(** * Nexstern DAG pipeline editor: graph validity and layout engine

    A shallow embedding of the validator ([useDAGValidation]), the edge
    admission policy and edge registry ([useEdgeManagement]), the node
    registry ([useNodeManagement]), the geometry helpers ([geometryUtils]),
    the layout engine ([layoutUtils]), the canvas view state
    ([useCanvasState]), the selection ([useSelection]) and the handlers
    of the editor component ([PipelineEditor]).

    Modelling conventions.
    - A JavaScript [number] that holds a coordinate or a ratio is a real
      number ([R]): exact real arithmetic stands for the double-precision
      arithmetic of the source, and there is no [NaN] and no infinity.
      [Math.round], [Math.floor] and [Math.ceil] return integers, injected
      back into [R].
    - Array lengths, indices and loop counters are natural numbers
      ([nat]); the identity counters are unbounded binary naturals ([N]),
      which is what the source computes as long as they stay below 2^53.
      What the doubles of the source do when a counter reaches 2^53 is
      modelled apart, in [Doubles], and the theorems that need fresh
      identities from arbitrary initial arrays assume [exact_counters].
    - Strings are [string]; arrays are lists; [Set<string>] is
      [gset string] where only membership is observed and a duplicate-free
      list where the iteration order is observed; [Map<string, _>] is
      [gmap string _].
    - React state owned by a hook is an explicit record threaded through
      the operations of that hook, each operation seeing the state the
      previous one left.  [validateEdge] reads the [edges] array of the
      render that made it: [EdgeStore.addEdge_in_render] and
      [EdgeStore.play] keep that array apart from the state, and
      [EdgeStore.addEdge] is the call made from a render that has seen
      the state.
    - The recursive functions and the [while] loop of the source take a
      [fuel] argument and return [None] when it runs out.  Where the source
      always terminates ([detectCycle], the level loop of the hierarchical
      layout) the caller passes a bound that lemmas show to be enough.
    - The third-party layered layout and [Math.random] are parameters of
      the layout engine. *)

From Stdlib Require Import Reals Lra Lia ZArith List String Ascii.
From Stdlib Require Import Decimal DecimalString DecimalN.
From stdpp Require Import gmap strings list fin_maps relations.

Open Scope string_scope.

(** ** Data model ([types/dag.ts]) *)

Record Position := mkPosition { pos_x : R; pos_y : R }.

Record DAGNode := mkNode {
  node_id : string;
  node_label : string;
  node_position : Position;
  node_selected : bool
}.

Record DAGEdge := mkEdge {
  edge_id : string;
  edge_source : string;
  edge_target : string;
  edge_selected : bool
}.

Record ValidationResult := mkValidation {
  isValid : bool;
  errors : list string
}.

(** [{ ...node, position }] *)
Definition with_position (n : DAGNode) (p : Position) : DAGNode :=
  mkNode (node_id n) (node_label n) p (node_selected n).

(** ** Identity strings: [`prefix-${counter}`] and [/prefix-(\d+)/] *)

Module Ident.

Definition is_digit (c : ascii) : bool :=
  let n := nat_of_ascii c in ((48 <=? n) && (n <=? 57))%nat.

(** The longest run of decimal digits at the start of [s] (greedy [\d+]). *)
Fixpoint take_digits (s : string) : string :=
  match s with
  | String c s' => if is_digit c then String c (take_digits s') else ""
  | EmptyString => ""
  end.

(** [strip_prefix p s] is the rest of [s] after [p] when [s] starts with [p]. *)
Fixpoint strip_prefix (p s : string) : option string :=
  match p, s with
  | EmptyString, _ => Some s
  | String a p', String b s' =>
      if Ascii.eqb a b then strip_prefix p' s' else None
  | String _ _, EmptyString => None
  end.

(** The regular expression anchored at the start of [s]: the captured
    group, when the prefix is followed by at least one digit. *)
Definition match_here (p s : string) : option string :=
  match strip_prefix p s with
  | Some rest =>
      match take_digits rest with
      | EmptyString => None
      | ds => Some ds
      end
  | None => None
  end.

(** [s.match(/p(\d+)/)]: the leftmost position where the pattern matches. *)
Fixpoint regex_match (p s : string) : option string :=
  match match_here p s with
  | Some ds => Some ds
  | None =>
      match s with
      | String _ s' => regex_match p s'
      | EmptyString => None
      end
  end.

(** [parseInt(ds, 10)] on a string of decimal digits. *)
Definition parseInt (ds : string) : option N :=
  option_map N.of_uint (NilEmpty.uint_of_string ds).

(** The number read from an identity, if the pattern matches. *)
Definition id_number (p s : string) : option N :=
  match regex_match p s with
  | Some ds => parseInt ds
  | None => None
  end.

(** Decimal rendering of a counter in a template literal. *)
Definition number_to_string (n : N) : string :=
  NilEmpty.string_of_uint (N.to_uint n).

(** [`${p}${n}`] *)
Definition make_id (p : string) (n : N) : string :=
  p ++ number_to_string n.

(** [ids.reduce((max, x) => match ? Math.max(max, num) : max, 0)] *)
Definition max_id_number (p : string) (ids : list string) : N :=
  fold_left
    (fun max s =>
       match id_number p s with
       | Some num => N.max max num
       | None => max
       end)
    ids 0%N.

(** *** The counters as doubles

    A counter and the number read from an identity are doubles.  Every
    natural number up to 2^53 is a double, [parseInt] reads it exactly
    and a template literal prints all its digits.  The sum 2^53 + 1 is
    not a double: it lies halfway between 2^53 and 2^53 + 2 and is
    rounded to the one with the even significand, 2^53. *)
Definition MAX_EXACT : N := 9007199254740992.

(** [x + 1] and [x++] on a double that holds a natural number up to 2^53;
    [None] beyond, where this model does not go. *)
Definition js_succ (x : N) : option N :=
  if (x <? MAX_EXACT)%N then Some (x + 1)%N
  else if (x =? MAX_EXACT)%N then Some MAX_EXACT
  else None.

(** [maxId] of the mount effects when every number read is at most 2^53;
    [None] when one is beyond. *)
Definition js_max_id_number (p : string) (ids : list string) : option N :=
  let maxId := max_id_number p ids in
  if (maxId <=? MAX_EXACT)%N then Some maxId else None.

End Ident.

(** ** Edge admission policy and edge registry ([hooks/useEdgeManagement.ts]) *)

Module EdgeStore.

Record EdgeValidationResult := mkEdgeValidation {
  ev_isValid : bool;
  ev_errorMessage : option string
}.

Definition msg_self : string := "Self-connections are not allowed".
Definition msg_duplicate : string := "Edge already exists between these nodes".
Definition msg_missing : string := "Source or target node does not exist".
Definition msg_direct_cycle : string :=
  "This connection would create a direct cycle".

Definition validateEdge (edges : list DAGEdge) (nodes : list DAGNode)
    (sourceId targetId : string) : EdgeValidationResult :=
  if String.eqb sourceId targetId then
    mkEdgeValidation false (Some msg_self)
  else
    let edgeExists :=
      existsb (fun edge => String.eqb (edge_source edge) sourceId
                           && String.eqb (edge_target edge) targetId) edges in
    if edgeExists then
      mkEdgeValidation false (Some msg_duplicate)
    else
      let sourceExists :=
        existsb (fun node => String.eqb (node_id node) sourceId) nodes in
      let targetExists :=
        existsb (fun node => String.eqb (node_id node) targetId) nodes in
      if negb sourceExists || negb targetExists then
        mkEdgeValidation false (Some msg_missing)
      else
        let wouldCreateDirectCycle :=
          existsb (fun edge => String.eqb (edge_source edge) targetId
                               && String.eqb (edge_target edge) sourceId) edges in
        if wouldCreateDirectCycle then
          mkEdgeValidation false (Some msg_direct_cycle)
        else
          mkEdgeValidation true None.

(** The state of the hook: the [edges] array and [edgeIdCounter.current]. *)
Record State := mkState {
  edges : list DAGEdge;
  edgeIdCounter : N
}.

(** State after mounting: the effect that scans the initial edges. *)
Definition mount (initialEdges : list DAGEdge) : State :=
  mkState initialEdges
          (Ident.max_id_number "edge-" (map edge_id initialEdges) + 1)%N.

(** [addEdge]: the returned flag, the message passed to [alert] (if any)
    and the next state.  [nodes] is the node array the hook was rendered
    with. *)
Definition addEdge (nodes : list DAGNode) (sourceId targetId : string)
    (st : State) : bool * option string * State :=
  let validation := validateEdge (edges st) nodes sourceId targetId in
  if negb (ev_isValid validation) then
    (false, ev_errorMessage validation, st)
  else
    let newEdge :=
      mkEdge (Ident.make_id "edge-" (edgeIdCounter st)) sourceId targetId false in
    (true, None, mkState (edges st ++ [newEdge])%list (edgeIdCounter st + 1)%N).

Definition removeEdge (edgeId : string) (st : State) : State :=
  mkState (List.filter (fun edge => negb (String.eqb (edge_id edge) edgeId))
                       (edges st))
          (edgeIdCounter st).

(** [ids.includes(x)] *)
Definition includes (ids : list string) (x : string) : bool :=
  existsb (String.eqb x) ids.

Definition removeEdges (edgeIds : list string) (st : State) : State :=
  mkState (List.filter (fun edge => negb (includes edgeIds (edge_id edge)))
                       (edges st))
          (edgeIdCounter st).

Definition removeEdgesForNode (nodeId : string) (st : State) : State :=
  mkState (List.filter (fun edge => negb (String.eqb (edge_source edge) nodeId)
                                    && negb (String.eqb (edge_target edge) nodeId))
                       (edges st))
          (edgeIdCounter st).

Definition removeEdgesForNodes (nodeIds : list string) (st : State) : State :=
  mkState (List.filter (fun edge => negb (includes nodeIds (edge_source edge))
                                    && negb (includes nodeIds (edge_target edge)))
                       (edges st))
          (edgeIdCounter st).

Definition clearEdges (st : State) : State := mkState [] 1%N.

(** The operations the hook exposes (the raw React setter apart). *)
Inductive Op :=
| OpAddEdge (nodes : list DAGNode) (sourceId targetId : string)
| OpRemoveEdge (edgeId : string)
| OpRemoveEdges (edgeIds : list string)
| OpRemoveEdgesForNode (nodeId : string)
| OpRemoveEdgesForNodes (nodeIds : list string)
| OpClearEdges.

Definition step (st : State) (op : Op) : State :=
  match op with
  | OpAddEdge nodes s t => snd (addEdge nodes s t st)
  | OpRemoveEdge i => removeEdge i st
  | OpRemoveEdges l => removeEdges l st
  | OpRemoveEdgesForNode n => removeEdgesForNode n st
  | OpRemoveEdgesForNodes l => removeEdgesForNodes l st
  | OpClearEdges => clearEdges st
  end.

Definition run (initialEdges : list DAGEdge) (ops : list Op) : State :=
  fold_left step ops (mount initialEdges).

(** The counter is above the number of every identity in the registry. *)
Definition edge_counter_above (st : State) : Prop :=
  forall e k, In e (edges st) ->
    Ident.id_number "edge-" (edge_id e) = Some k -> (k < edgeIdCounter st)%N.

(** [edges.find(edge => edge.id === edgeId)] *)
Definition getEdge (edgeId : string) (st : State) : option DAGEdge :=
  List.find (fun edge => String.eqb (edge_id edge) edgeId) (edges st).

(** [getEdgesForNode]: the [incoming] and the [outgoing] edges. *)
Definition getEdgesForNode (nodeId : string) (st : State)
    : list DAGEdge * list DAGEdge :=
  (List.filter (fun edge => String.eqb (edge_target edge) nodeId) (edges st),
   List.filter (fun edge => String.eqb (edge_source edge) nodeId) (edges st)).

(** What the admission policy maintains: no edge from a node to itself,
    no two edges with the same endpoints in the same order, no edge
    together with its reverse. *)
Definition endpoints (e : DAGEdge) : string * string :=
  (edge_source e, edge_target e).

Definition simple_graph (edges : list DAGEdge) : Prop :=
  (forall e, In e edges -> edge_source e <> edge_target e)
  /\ List.NoDup (map endpoints edges)
  /\ (forall e1 e2, In e1 edges -> In e2 edges ->
         ~ (edge_source e1 = edge_target e2 /\ edge_target e1 = edge_source e2)).

(** [addEdge] as the callback of one render.  [rendered] is the [edges]
    array of that render, which [validateEdge] reads; [st] holds what the
    call finds in the counter ref and what the updater passed to
    [setEdges] receives as [prev]. *)
Definition addEdge_in_render (rendered : list DAGEdge) (nodes : list DAGNode)
    (sourceId targetId : string) (st : State) : bool * option string * State :=
  let validation := validateEdge rendered nodes sourceId targetId in
  if negb (ev_isValid validation) then
    (false, ev_errorMessage validation, st)
  else
    let newEdge :=
      mkEdge (Ident.make_id "edge-" (edgeIdCounter st)) sourceId targetId false in
    (true, None, mkState (edges st ++ [newEdge])%list (edgeIdCounter st + 1)%N).

(** The hook between two events: its state and the [edges] array of its
    last render. *)
Record Hook := mkHook {
  hook_state : State;
  hook_rendered : list DAGEdge
}.

(** What happens to the hook: React renders it again, or one of its
    callbacks is called. *)
Inductive Event :=
| Render
| Call (op : Op).

Definition handle (h : Hook) (ev : Event) : Hook :=
  match ev with
  | Render => mkHook (hook_state h) (edges (hook_state h))
  | Call (OpAddEdge nodes s t) =>
      mkHook (snd (addEdge_in_render (hook_rendered h) nodes s t (hook_state h)))
             (hook_rendered h)
  | Call op => mkHook (step (hook_state h) op) (hook_rendered h)
  end.

(** The first render has seen the initial edges. *)
Definition mount_hook (initialEdges : list DAGEdge) : Hook :=
  mkHook (mount initialEdges) initialEdges.

Definition play (initialEdges : list DAGEdge) (events : list Event) : Hook :=
  fold_left handle events (mount_hook initialEdges).

(** Every [addEdge] among the events is called from a render that has
    seen the state it finds: a [Render] and no other call lies between it
    and the call before it.  [fresh] tells whether the render at the
    start has seen the state. *)
Fixpoint renders_before_adds (fresh : bool) (events : list Event) : bool :=
  match events with
  | [] => true
  | Render :: rest => renders_before_adds true rest
  | Call (OpAddEdge _ _ _) :: rest => fresh && renders_before_adds false rest
  | Call _ :: rest => renders_before_adds false rest
  end.

(** The numbers read at mount and every value the counter takes in
    [calls] calls stay below 2^53, where the doubles of the source are
    exact. *)
Definition exact_counters (initialEdges : list DAGEdge) (calls : nat) : Prop :=
  (Ident.max_id_number "edge-" (map edge_id initialEdges) + 1 + N.of_nat calls
   < Ident.MAX_EXACT)%N.

End EdgeStore.

(** ** Graph validator ([hooks/useDAGValidation.ts]) *)

Module Validation.

Definition msg_min_nodes : string := "DAG must have at least 2 nodes".
Definition msg_disconnected : string := "Disconnected nodes: ".
Definition msg_self_loops : string := "Self-loops are not allowed".
Definition msg_cycles : string := "Graph contains cycles".

(** [labels.join(sep)] *)
Fixpoint join (sep : string) (l : list string) : string :=
  match l with
  | [] => ""
  | [x] => x
  | x :: l' => x ++ sep ++ join sep l'
  end.

(** The adjacency [Map] of [detectCycle]: every node gets an empty
    array, then every edge pushes its target on the array of its source
    (created on the fly for a source that is not a node). *)
Definition buildGraph (nodes : list DAGNode) (edges : list DAGEdge)
    : gmap string (list string) :=
  let graph0 :=
    fold_left (fun graph node => <[node_id node := []]> graph) nodes ∅ in
  fold_left
    (fun graph edge =>
       let neighbors := default [] (graph !! edge_source edge) in
       <[edge_source edge := (neighbors ++ [edge_target edge])%list]> graph)
    edges graph0.

(** The two sets [dfs] mutates. *)
Record DfsState := mkDfs {
  visited : gset string;
  recursionStack : gset string
}.

(** [for (const neighbor of neighbors) if (dfs(neighbor)) return true;] *)
Fixpoint dfs_neighbors (dfs : string -> DfsState -> option (bool * DfsState))
    (neighbors : list string) (st : DfsState) : option (bool * DfsState) :=
  match neighbors with
  | [] => Some (false, st)
  | neighbor :: rest =>
      match dfs neighbor st with
      | None => None
      | Some (true, st') => Some (true, st')
      | Some (false, st') => dfs_neighbors dfs rest st'
      end
  end.

(** The inner function [dfs]; [fuel] bounds the depth of the recursion. *)
Fixpoint dfs (fuel : nat) (graph : gmap string (list string))
    (nodeId : string) (st : DfsState) : option (bool * DfsState) :=
  match fuel with
  | O => None
  | S fuel' =>
      if bool_decide (nodeId ∈ recursionStack st) then Some (true, st)
      else if bool_decide (nodeId ∈ visited st) then Some (false, st)
      else
        let st1 := mkDfs ({[nodeId]} ∪ visited st)
                         ({[nodeId]} ∪ recursionStack st) in
        let neighbors := default [] (graph !! nodeId) in
        match dfs_neighbors (dfs fuel' graph) neighbors st1 with
        | None => None
        | Some (true, st2) => Some (true, st2)
        | Some (false, st2) =>
            Some (false, mkDfs (visited st2) (recursionStack st2 ∖ {[nodeId]}))
        end
  end.

(** [for (const node of nodes) if (!visited.has(node.id) && dfs(node.id))
    return true;] *)
Fixpoint dfs_roots (fuel : nat) (graph : gmap string (list string))
    (nodes : list DAGNode) (st : DfsState) : option bool :=
  match nodes with
  | [] => Some false
  | node :: rest =>
      if bool_decide (node_id node ∈ visited st) then
        dfs_roots fuel graph rest st
      else
        match dfs fuel graph (node_id node) st with
        | None => None
        | Some (true, _) => Some true
        | Some (false, st') => dfs_roots fuel graph rest st'
        end
  end.

Definition detectCycle_fuel (fuel : nat) (nodes : list DAGNode)
    (edges : list DAGEdge) : option bool :=
  dfs_roots fuel (buildGraph nodes edges) nodes (mkDfs ∅ ∅).

(** The recursion of [dfs] is never deeper than the number of distinct
    identities it can meet: node identities and edge targets
    (lemma [detectCycle_fuel_enough]). *)
Definition dfs_depth_bound (nodes : list DAGNode) (edges : list DAGEdge) : nat :=
  S (length nodes + length edges).

(** [detectCycle(nodes, edges)].  The bound is always enough, so the
    second branch is never taken. *)
Definition detectCycle (nodes : list DAGNode) (edges : list DAGEdge) : bool :=
  match detectCycle_fuel (dfs_depth_bound nodes edges) nodes edges with
  | Some hasCycle => hasCycle
  | None => false
  end.

(** [useDAGValidation(nodes, edges)] *)
Definition validate (nodes : list DAGNode) (edges : list DAGEdge)
    : ValidationResult :=
  let errors1 :=
    if (length nodes <? 2)%nat then [msg_min_nodes] else [] in
  let errors2 :=
    if (2 <=? length nodes)%nat then
      let connectedNodes : gset string :=
        fold_left (fun s edge => {[edge_target edge]} ∪ ({[edge_source edge]} ∪ s))
                  edges ∅ in
      let disconnectedNodes :=
        List.filter (fun node => negb (bool_decide (node_id node ∈ connectedNodes)))
                    nodes in
      if (0 <? length disconnectedNodes)%nat then
        (errors1 ++ [(msg_disconnected ++ join ", " (map node_label disconnectedNodes))%string])%list
      else errors1
    else errors1 in
  let selfLoops :=
    List.filter (fun edge => String.eqb (edge_source edge) (edge_target edge)) edges in
  let errors3 :=
    if (0 <? length selfLoops)%nat then (errors2 ++ [msg_self_loops])%list else errors2 in
  let errors4 :=
    if (0 <? length nodes)%nat && (0 <? length edges)%nat then
      if detectCycle nodes edges then (errors3 ++ [msg_cycles])%list else errors3
    else errors3 in
  mkValidation ((length errors4 =? 0)%nat && (2 <=? length nodes)%nat) errors4.

(** The edge relation of the graph and what a cycle is. *)
Definition edge_rel (edges : list DAGEdge) (u v : string) : Prop :=
  exists e, In e edges /\ edge_source e = u /\ edge_target e = v.

Definition has_cycle (edges : list DAGEdge) : Prop :=
  exists v, tc (edge_rel edges) v v.

(** What a call of [dfs] guarantees when every node on the recursion
    stack [S] reaches the node it is called on: an answer [true] means the
    graph has a cycle, an answer [false] leaves the stack as it was. *)
Definition dfs_post (edges : list DAGEdge) (S : gset string)
    (r : bool * DfsState) : Prop :=
  (r.1 = true -> has_cycle edges)
  /\ (r.1 = false -> recursionStack r.2 = S).

(** A call returns, and leaves the stack [S] as it found it when it
    answers [false]. *)
Definition dfs_returns (S : gset string) (o : option (bool * DfsState)) : Prop :=
  exists r, o = Some r /\ (r.1 = false -> recursionStack r.2 = S).

(** The identities [dfs] can be called on. *)
Definition dfs_universe (nodes : list DAGNode) (edges : list DAGEdge)
    : gset string :=
  list_to_set (map node_id nodes ++ map edge_target edges).

(** The identities [dfs] has finished with. *)
Definition dfs_black (st : DfsState) : gset string :=
  visited st ∖ recursionStack st.

(** A set of identities closed under the edges, with a rank below [M]
    that decreases along every edge: no cycle goes through it. *)
Definition dfs_ranked (edges : list DAGEdge) (B : gset string)
    (rank : string -> nat) (M : nat) : Prop :=
  (forall u, u ∈ B -> (rank u < M)%nat)
  /\ (forall u v, u ∈ B -> edge_rel edges u v -> v ∈ B /\ (rank v < rank u)%nat).

(** What a call that answers [false] leaves behind. *)
Definition dfs_finished (edges : list DAGEdge) (st st' : DfsState) : Prop :=
  recursionStack st' = recursionStack st
  /\ visited st ⊆ visited st'
  /\ dfs_black st ⊆ dfs_black st'
  /\ exists rank M, dfs_ranked edges (dfs_black st') rank M.

End Validation.

(** ** Node registry ([hooks/useNodeManagement.ts]) *)

Module NodeStore.

(** White space removed by [String.prototype.trim] (the ASCII part). *)
Definition is_space (c : ascii) : bool :=
  match nat_of_ascii c with
  | 9%nat | 10%nat | 11%nat | 12%nat | 13%nat | 32%nat => true
  | _ => false
  end.

Fixpoint trim_start (s : string) : string :=
  match s with
  | String c s' => if is_space c then trim_start s' else s
  | EmptyString => ""
  end.

Fixpoint trim_end (s : string) : string :=
  match s with
  | String c s' =>
      match trim_end s' with
      | EmptyString => if is_space c then "" else String c ""
      | t => String c t
      end
  | EmptyString => ""
  end.

Definition trim (s : string) : string := trim_end (trim_start s).

(** A string is falsy when it is empty. *)
Definition truthy (s : string) : bool :=
  match s with EmptyString => false | _ => true end.

(** The state of the hook: the [nodes] array and [nodeIdCounter.current]. *)
Record State := mkState {
  nodes : list DAGNode;
  nodeIdCounter : N
}.

Definition mount (initialNodes : list DAGNode) : State :=
  mkState initialNodes
          (Ident.max_id_number "node-" (map node_id initialNodes) + 1)%N.

(** [addNode(label?, position?)].  [prompted] is what [prompt] answers
    ([None] when the dialog is cancelled) and [random] the two values
    [Math.random] yields; both are only consulted when the corresponding
    argument is missing.  The result is [None] when the source throws
    "Node name is required"; the counter is then left alone. *)
Definition addNode (label : option string) (position : option Position)
    (prompted : option string) (random : R * R) (st : State)
    : option DAGNode * State :=
  let nodeName :=
    match label with
    | Some l => if truthy l then Some l else prompted
    | None => prompted
    end in
  match nodeName with
  | Some name =>
      if negb (truthy name) || negb (truthy (trim name)) then (None, st)
      else
        let defaultPosition :=
          match position with
          | Some p => p
          | None => mkPosition (fst random * 400 + 100) (snd random * 300 + 100)
          end in
        let newNode :=
          mkNode (Ident.make_id "node-" (nodeIdCounter st)) (trim name)
                 defaultPosition false in
        (Some newNode,
         mkState (nodes st ++ [newNode])%list (nodeIdCounter st + 1)%N)
  | None => (None, st)
  end.

Definition removeNode (nodeId : string) (st : State) : State :=
  mkState (List.filter (fun node => negb (String.eqb (node_id node) nodeId))
                       (nodes st))
          (nodeIdCounter st).

Definition removeNodes (nodeIds : list string) (st : State) : State :=
  mkState (List.filter
             (fun node => negb (EdgeStore.includes nodeIds (node_id node)))
             (nodes st))
          (nodeIdCounter st).

Definition updateNodePosition (nodeId : string) (position : Position)
    (st : State) : State :=
  mkState (map (fun node => if String.eqb (node_id node) nodeId
                            then with_position node position else node)
               (nodes st))
          (nodeIdCounter st).

Definition updateNodeLabel (nodeId : string) (label : string)
    (st : State) : State :=
  if negb (truthy (trim label)) then st
  else
    mkState (map (fun node =>
                    if String.eqb (node_id node) nodeId
                    then mkNode (node_id node) (trim label)
                                (node_position node) (node_selected node)
                    else node)
                 (nodes st))
            (nodeIdCounter st).

Definition clearNodes (st : State) : State := mkState [] 1%N.

(** The operations the hook exposes (the raw React setter apart). *)
Inductive Op :=
| OpAddNode (label : option string) (position : option Position)
            (prompted : option string) (random : R * R)
| OpRemoveNode (nodeId : string)
| OpRemoveNodes (nodeIds : list string)
| OpUpdateNodePosition (nodeId : string) (position : Position)
| OpUpdateNodeLabel (nodeId : string) (label : string)
| OpClearNodes.

Definition step (st : State) (op : Op) : State :=
  match op with
  | OpAddNode l p a r => snd (addNode l p a r st)
  | OpRemoveNode i => removeNode i st
  | OpRemoveNodes l => removeNodes l st
  | OpUpdateNodePosition i p => updateNodePosition i p st
  | OpUpdateNodeLabel i l => updateNodeLabel i l st
  | OpClearNodes => clearNodes st
  end.

Definition run (initialNodes : list DAGNode) (ops : list Op) : State :=
  fold_left step ops (mount initialNodes).

Definition is_clear (op : Op) : bool :=
  match op with OpClearNodes => true | _ => false end.

(** The number carried by the identity of a node. *)
Definition node_number (n : DAGNode) : option N :=
  Ident.id_number "node-" (node_id n).

(** The counter is above the number of every identity in the registry. *)
Definition node_counter_above (st : State) : Prop :=
  forall n k, In n (nodes st) -> node_number n = Some k -> (k < nodeIdCounter st)%N.

(** [nodes.find(node => node.id === nodeId)] *)
Definition getNode (nodeId : string) (st : State) : option DAGNode :=
  List.find (fun node => String.eqb (node_id node) nodeId) (nodes st).

(** The raw setter [setNodes(value)]; the counter is a ref it does not
    touch. *)
Definition setNodes (value : list DAGNode) (st : State) : State :=
  mkState value (nodeIdCounter st).

(** A string [trimStart] leaves alone. *)
Definition starts_clean (s : string) : Prop :=
  match s with
  | String c _ => is_space c = false
  | EmptyString => True
  end.

(** A label as [addNode] and [updateNodeLabel] store it: not empty and
    without white space at either end. *)
Definition clean_label (s : string) : Prop :=
  truthy s = true /\ trim s = s.

(** The numbers read at mount and every value the counter takes in
    [calls] calls stay below 2^53, where the doubles of the source are
    exact. *)
Definition exact_counters (initialNodes : list DAGNode) (calls : nat) : Prop :=
  (Ident.max_id_number "node-" (map node_id initialNodes) + 1 + N.of_nat calls
   < Ident.MAX_EXACT)%N.

(** Strings of ASCII characters, on which [trim] above is all of
    [String.prototype.trim]. *)
Definition is_ascii (s : string) : bool :=
  forallb (fun c => (nat_of_ascii c <? 128)%nat) (list_ascii_of_string s).

Definition ascii_name (name : option string) : bool :=
  match name with
  | Some s => is_ascii s
  | None => true
  end.

(** The names an operation hands to [trim] are ASCII. *)
Definition ascii_op (op : Op) : bool :=
  match op with
  | OpAddNode label _ prompted _ => ascii_name label && ascii_name prompted
  | OpUpdateNodeLabel _ label => is_ascii label
  | _ => true
  end.

End NodeStore.

(** ** The mount effects and the two additions with double counters

    The same source lines as [EdgeStore.mount], [EdgeStore.addEdge],
    [NodeStore.mount] and [NodeStore.addNode], with [maxId + 1] and
    [counter.current++] computed as the doubles compute them
    ([Ident.js_succ]).  The result is [None] where a number beyond 2^53
    would be read or printed. *)

Module Doubles.

Definition mountEdges (initialEdges : list DAGEdge) : option EdgeStore.State :=
  match Ident.js_max_id_number "edge-" (map edge_id initialEdges) with
  | Some maxId => option_map (EdgeStore.mkState initialEdges) (Ident.js_succ maxId)
  | None => None
  end.

Definition addEdge (rendered : list DAGEdge) (nodes : list DAGNode)
    (sourceId targetId : string) (st : EdgeStore.State)
    : option (bool * option string * EdgeStore.State) :=
  let validation := EdgeStore.validateEdge rendered nodes sourceId targetId in
  if negb (EdgeStore.ev_isValid validation) then
    Some (false, EdgeStore.ev_errorMessage validation, st)
  else
    match Ident.js_succ (EdgeStore.edgeIdCounter st) with
    | Some next =>
        let newEdge :=
          mkEdge (Ident.make_id "edge-" (EdgeStore.edgeIdCounter st))
                 sourceId targetId false in
        Some (true, None,
              EdgeStore.mkState (EdgeStore.edges st ++ [newEdge])%list next)
    | None => None
    end.

Definition mountNodes (initialNodes : list DAGNode) : option NodeStore.State :=
  match Ident.js_max_id_number "node-" (map node_id initialNodes) with
  | Some maxId => option_map (NodeStore.mkState initialNodes) (Ident.js_succ maxId)
  | None => None
  end.

Definition addNode (label : option string) (position : option Position)
    (prompted : option string) (random : R * R) (st : NodeStore.State)
    : option (option DAGNode * NodeStore.State) :=
  let nodeName :=
    match label with
    | Some l => if NodeStore.truthy l then Some l else prompted
    | None => prompted
    end in
  match nodeName with
  | Some name =>
      if negb (NodeStore.truthy name) || negb (NodeStore.truthy (NodeStore.trim name))
      then Some (None, st)
      else
        match Ident.js_succ (NodeStore.nodeIdCounter st) with
        | Some next =>
            let defaultPosition :=
              match position with
              | Some p => p
              | None => mkPosition (fst random * 400 + 100) (snd random * 300 + 100)
              end in
            let newNode :=
              mkNode (Ident.make_id "node-" (NodeStore.nodeIdCounter st))
                     (NodeStore.trim name) defaultPosition false in
            Some (Some newNode,
                  NodeStore.mkState (NodeStore.nodes st ++ [newNode])%list next)
        | None => None
        end
  | None => Some (None, st)
  end.

(** The histories of the two hooks with these counters: [EdgeStore.play]
    and [NodeStore.run] with the additions above in the place of
    [EdgeStore.addEdge_in_render] and [NodeStore.addNode]. *)
Definition handleEdges (h : EdgeStore.Hook) (ev : EdgeStore.Event)
    : option EdgeStore.Hook :=
  match ev with
  | EdgeStore.Call (EdgeStore.OpAddEdge nodes s t) =>
      option_map
        (fun result => EdgeStore.mkHook (snd result) (EdgeStore.hook_rendered h))
        (addEdge (EdgeStore.hook_rendered h) nodes s t (EdgeStore.hook_state h))
  | _ => Some (EdgeStore.handle h ev)
  end.

Definition playEdges (initialEdges : list DAGEdge) (events : list EdgeStore.Event)
    : option EdgeStore.Hook :=
  fold_left (fun h ev => match h with
                         | Some h => handleEdges h ev
                         | None => None
                         end)
            events
            (option_map (fun st => EdgeStore.mkHook st initialEdges)
                        (mountEdges initialEdges)).

Definition stepNodes (st : NodeStore.State) (op : NodeStore.Op)
    : option NodeStore.State :=
  match op with
  | NodeStore.OpAddNode l p a r => option_map snd (addNode l p a r st)
  | _ => Some (NodeStore.step st op)
  end.

Definition runNodes (initialNodes : list DAGNode) (ops : list NodeStore.Op)
    : option NodeStore.State :=
  fold_left (fun st op => match st with
                          | Some st => stepNodes st op
                          | None => None
                          end)
            ops (mountNodes initialNodes).

End Doubles.

(** ** JavaScript numbers and the [Math] object, over the reals *)

Module JS.

Local Open Scope R_scope.

Definition ltb (a b : R) : bool := if Rlt_dec a b then true else false.
Definition leb (a b : R) : bool := if Rle_dec a b then true else false.

(** [a || b] on numbers: [b] when [a] is zero. *)
Definition or_else (a b : R) : R := if Req_dec_T a 0 then b else a.

Definition Math_floor (x : R) : R := IZR (Zfloor x).
Definition Math_ceil (x : R) : R := IZR (Zceil x).

(** [Math.round] rounds halves up. *)
Definition Math_round (x : R) : R := IZR (Zfloor (x + / 2)).

(** Truncation towards zero, and the remainder [a % b] built on it. *)
Definition trunc (x : R) : Z := if Rle_dec 0 x then Zfloor x else Zceil x.
Definition rem (a b : R) : R := a - b * IZR (trunc (a / b)).

Definition Math_atan2 (y x : R) : R :=
  if Rlt_dec 0 x then atan (y / x)
  else if Rlt_dec x 0 then
    (if Rle_dec 0 y then atan (y / x) + PI else atan (y / x) - PI)
  else if Rlt_dec 0 y then PI / 2
  else if Rlt_dec y 0 then - (PI / 2)
  else 0.

End JS.

(** ** Geometry helpers ([utils/geometryUtils.ts]) *)

Module Geometry.

Local Open Scope R_scope.

Definition NODE_WIDTH : R := 120.
Definition NODE_HEIGHT : R := 60.

Record Rect := mkRect {
  rect_x : R;
  rect_y : R;
  rect_width : R;
  rect_height : R
}.

Definition doRectsOverlap (rect1 rect2 : Rect) : bool :=
  negb (JS.ltb (rect_x rect1 + rect_width rect1) (rect_x rect2)
        || JS.ltb (rect_x rect2 + rect_width rect2) (rect_x rect1)
        || JS.ltb (rect_y rect1 + rect_height rect1) (rect_y rect2)
        || JS.ltb (rect_y rect2 + rect_height rect2) (rect_y rect1)).

Definition maxAttempts : nat := 50.
Definition step : R := 30.

(** The candidate probed at a given attempt. *)
Definition testPosition (startPosition : Position) (attempt : nat) : Position :=
  mkPosition (pos_x startPosition + INR (attempt mod 10)%nat * step)
             (pos_y startPosition + INR (attempt / 10)%nat * step).

(** The candidate inflated by [padding] on every side. *)
Definition testRect (p : Position) (padding : R) : Rect :=
  mkRect (pos_x p - padding) (pos_y p - padding)
         (NODE_WIDTH + padding * 2) (NODE_HEIGHT + padding * 2).

Definition nodeRect (node : DAGNode) : Rect :=
  mkRect (pos_x (node_position node)) (pos_y (node_position node))
         NODE_WIDTH NODE_HEIGHT.

Definition hasOverlap (nodes : list DAGNode) (p : Position) (padding : R) : bool :=
  existsb (fun node => doRectsOverlap (testRect p padding) (nodeRect node)) nodes.

(** The [for] loop over the attempts still to be made: the first
    candidate without overlap, if any. *)
Fixpoint probe (nodes : list DAGNode) (startPosition : Position) (padding : R)
    (attempts : list nat) : option Position :=
  match attempts with
  | [] => None
  | attempt :: rest =>
      let p := testPosition startPosition attempt in
      if negb (hasOverlap nodes p padding) then Some p
      else probe nodes startPosition padding rest
  end.

Definition findNonOverlappingPosition (nodes : list DAGNode)
    (preferredPosition : option Position) (padding : option R) : Position :=
  let padding := default 20 padding in
  let startPosition := default (mkPosition 100 100) preferredPosition in
  match probe nodes startPosition padding (seq 0 maxAttempts) with
  | Some p => p
  | None => startPosition
  end.

Definition calculateDistance (point1 point2 : Position) : R :=
  let dx := pos_x point2 - pos_x point1 in
  let dy := pos_y point2 - pos_y point1 in
  sqrt (dx * dx + dy * dy).


Definition getNodeCenter (node : DAGNode) : Position :=
  mkPosition (pos_x (node_position node) + NODE_WIDTH / 2)
             (pos_y (node_position node) + NODE_HEIGHT / 2).

(** The sides are closed: [>=] and [<=]. *)
Definition isPointInRect (point : Position) (rect : Rect) : bool :=
  JS.leb (rect_x rect) (pos_x point)
  && JS.leb (pos_x point) (rect_x rect + rect_width rect)
  && JS.leb (rect_y rect) (pos_y point)
  && JS.leb (pos_y point) (rect_y rect + rect_height rect).

Definition isPointNearNode (point : Position) (node : DAGNode)
    (threshold : option R) : bool :=
  let threshold := default 10 threshold in
  let nodeRect :=
    mkRect (pos_x (node_position node) - threshold)
           (pos_y (node_position node) - threshold)
           (NODE_WIDTH + threshold * 2) (NODE_HEIGHT + threshold * 2) in
  isPointInRect point nodeRect.

(** [findClosestNode]: [None] is [null].  The loop carries
    [closestNode] and [closestDistance]. *)
Definition findClosestNode (point : Position) (nodes : list DAGNode)
    : option DAGNode :=
  match nodes with
  | [] => None
  | first :: rest =>
      Some (fst (fold_left
                   (fun closest node =>
                      let distance := calculateDistance point (getNodeCenter node) in
                      if JS.ltb distance (snd closest) then (node, distance)
                      else closest)
                   rest
                   (first, calculateDistance point (getNodeCenter first))))
  end.

Record BoundingBox := mkBoundingBox {
  minX : R;
  minY : R;
  maxX : R;
  maxY : R;
  bb_width : R;
  bb_height : R
}.

(** The four running bounds [minX], [minY], [maxX], [maxY] and one
    round of the loop that widens them. *)
Definition widen (bounds : R * R * R * R) (node : DAGNode) : R * R * R * R :=
  let '(minX, minY, maxX, maxY) := bounds in
  (Rmin minX (pos_x (node_position node)),
   Rmin minY (pos_y (node_position node)),
   Rmax maxX (pos_x (node_position node) + NODE_WIDTH),
   Rmax maxY (pos_y (node_position node) + NODE_HEIGHT)).

Definition calculateBoundingBox (nodes : list DAGNode) : BoundingBox :=
  match nodes with
  | [] => mkBoundingBox 0 0 0 0 0 0
  | first :: _ =>
      let '(minX, minY, maxX, maxY) :=
        fold_left widen nodes
          (pos_x (node_position first), pos_y (node_position first),
           pos_x (node_position first) + NODE_WIDTH,
           pos_y (node_position first) + NODE_HEIGHT) in
      mkBoundingBox minX minY maxX maxY (maxX - minX) (maxY - minY)
  end.


End Geometry.

(** ** Layout engine ([utils/layoutUtils.ts]) *)

Module Layout.

Local Open Scope R_scope.
Import Geometry.

Inductive LayoutType :=
| hierarchical | dagre | circular | grid | tree | force.

Inductive Direction := TB | LR | BT | RL.

Record LayoutOptions := mkLayoutOptions {
  direction : Direction;
  nodeWidth : R;
  nodeHeight : R;
  rankSep : R;
  nodeSep : R
}.

Definition DEFAULT_LAYOUT_OPTIONS : LayoutOptions :=
  mkLayoutOptions LR NODE_WIDTH NODE_HEIGHT 180 100.

(** [Partial<LayoutOptions>] and [{ ...DEFAULT_LAYOUT_OPTIONS, ...options }]. *)
Record PartialLayoutOptions := mkPartialOptions {
  opt_direction : option Direction;
  opt_nodeWidth : option R;
  opt_nodeHeight : option R;
  opt_rankSep : option R;
  opt_nodeSep : option R
}.

Definition merge_options (options : PartialLayoutOptions) : LayoutOptions :=
  mkLayoutOptions
    (default (direction DEFAULT_LAYOUT_OPTIONS) (opt_direction options))
    (default (nodeWidth DEFAULT_LAYOUT_OPTIONS) (opt_nodeWidth options))
    (default (nodeHeight DEFAULT_LAYOUT_OPTIONS) (opt_nodeHeight options))
    (default (rankSep DEFAULT_LAYOUT_OPTIONS) (opt_rankSep options))
    (default (nodeSep DEFAULT_LAYOUT_OPTIONS) (opt_nodeSep options)).

(** *** Grid *)

Definition calculateGridLayout (nodes : list DAGNode) (columns : option R)
    (spacing : option (R * R)) : list DAGNode :=
  let spacing := default (200, 140) spacing in
  if (length nodes =? 0)%nat then nodes
  else
    let n := INR (length nodes) in
    let computed := JS.Math_ceil (sqrt (n * 1.2)) in
    let optimalColumns :=
      match columns with
      | Some c => JS.or_else c computed
      | None => computed
      end in
    let actualColumns := Rmin optimalColumns n in
    let startX := 100 in
    let startY := 100 in
    imap (fun index node =>
            let col := JS.rem (INR index) actualColumns in
            let row := JS.Math_floor (INR index / actualColumns) in
            with_position node
              (mkPosition (startX + col * fst spacing)
                          (startY + row * snd spacing)))
         nodes.

(** *** Circular *)

Definition calculateCircularLayout (nodes : list DAGNode) (radius : option R)
    (center : option (R * R)) : list DAGNode :=
  let center := default (400, 300) center in
  match nodes with
  | [] => nodes
  | [node] =>
      [with_position node
         (mkPosition (fst center - NODE_WIDTH / 2) (snd center - NODE_HEIGHT / 2))]
  | _ =>
      let n := INR (length nodes) in
      let computed := Rmax 150 (n * 25) in
      let optimalRadius :=
        match radius with
        | Some r => JS.or_else r computed
        | None => computed
        end in
      let angleStep := (2 * PI) / n in
      let startAngle := - PI / 2 in
      imap (fun index node =>
              let angle := startAngle + INR index * angleStep in
              with_position node
                (mkPosition
                   (JS.Math_round
                      (fst center + optimalRadius * cos angle - NODE_WIDTH / 2))
                   (JS.Math_round
                      (snd center + optimalRadius * sin angle - NODE_HEIGHT / 2))))
           nodes
  end.

(** *** Hierarchical (layered breadth-first) *)

(** The [incomingEdges] and [outgoingEdges] maps: one empty array per
    node, then each edge is pushed on the arrays of its endpoints that
    are nodes ([map.get(k)?.push(v)]). *)
Definition init_adjacency (nodes : list DAGNode) : gmap string (list string) :=
  fold_left (fun m node => <[node_id node := []]> m) nodes ∅.

Definition push_if_present (m : gmap string (list string)) (k v : string)
    : gmap string (list string) :=
  match m !! k with
  | Some l => <[k := (l ++ [v])%list]> m
  | None => m
  end.

Definition incomingEdges (nodes : list DAGNode) (edges : list DAGEdge)
    : gmap string (list string) :=
  fold_left (fun m edge => push_if_present m (edge_target edge) (edge_source edge))
            edges (init_adjacency nodes).

Definition outgoingEdges (nodes : list DAGNode) (edges : list DAGEdge)
    : gmap string (list string) :=
  fold_left (fun m edge => push_if_present m (edge_source edge) (edge_target edge))
            edges (init_adjacency nodes).

(** [nodes.filter(node => (incomingEdges.get(node.id) || []).length === 0)] *)
Definition rootNodes (incoming : gmap string (list string))
    (nodes : list DAGNode) : list DAGNode :=
  List.filter
    (fun node => (length (default [] (incoming !! node_id node)) =? 0)%nat)
    nodes.

(** [Set.prototype.add] on a set whose iteration order is observed. *)
Definition ordered_add (s : list string) (x : string) : list string :=
  if bool_decide (x ∈ s) then s else (s ++ [x])%list.

(** The variables of the level loop.  [levelIndex] always equals
    [levels.length], so [levels[levelIndex] = ...] appends. *)
Record BfsState := mkBfs {
  levels : list (list string);
  visited : gset string;
  nodeToLevel : gmap string nat;
  currentLevel : list string;
  levelIndex : nat
}.

(** One iteration of the [while] body. *)
Definition bfs_step (incoming outgoing : gmap string (list string))
    (st : BfsState) : BfsState :=
  let levels' := (levels st ++ [currentLevel st])%list in
  let visited' :=
    fold_left (fun s nodeId => {[nodeId]} ∪ s) (currentLevel st) (visited st) in
  let nodeToLevel' :=
    fold_left (fun m nodeId => <[nodeId := levelIndex st]> m)
              (currentLevel st) (nodeToLevel st) in
  let nextLevel :=
    fold_left
      (fun next nodeId =>
         let children := default [] (outgoing !! nodeId) in
         fold_left
           (fun next childId =>
              if negb (bool_decide (childId ∈ visited')) then
                let parents := default [] (incoming !! childId) in
                let allParentsVisited :=
                  forallb (fun parentId => bool_decide (parentId ∈ visited')) parents in
                if allParentsVisited then ordered_add next childId else next
              else next)
           children next)
      (currentLevel st) [] in
  mkBfs levels' visited' nodeToLevel' nextLevel (S (levelIndex st)).

(** [while (currentLevel.length > 0) { ... }] *)
Fixpoint bfs_loop (fuel : nat) (incoming outgoing : gmap string (list string))
    (st : BfsState) : option BfsState :=
  match fuel with
  | O => None
  | S fuel' =>
      match currentLevel st with
      | [] => Some st
      | _ => bfs_loop fuel' incoming outgoing (bfs_step incoming outgoing st)
      end
  end.

(** The loop runs at most once per identity it can mark, plus the
    closing test (lemma [bfs_loop_enough]). *)
Definition bfs_bound (nodes : list DAGNode) (edges : list DAGEdge) : nat :=
  S (length nodes + length edges).

(** "Handle disconnected nodes": the nodes the loop never marked make
    up one more level. *)
Definition add_unvisited (nodes : list DAGNode) (st : BfsState) : BfsState :=
  let unvisitedNodes :=
    List.filter (fun node => negb (bool_decide (node_id node ∈ visited st))) nodes in
  if (0 <? length unvisitedNodes)%nat then
    mkBfs (levels st ++ [map node_id unvisitedNodes])%list
          (visited st)
          (fold_left (fun m node => <[node_id node := levelIndex st]> m)
                     unvisitedNodes (nodeToLevel st))
          (currentLevel st) (levelIndex st)
  else st.

(** [levelNodes.indexOf(id)], which is [-1] when [id] is absent. *)
Fixpoint indexOf (l : list string) (x : string) : Z :=
  match l with
  | [] => (-1)%Z
  | y :: l' =>
      if String.eqb y x then 0%Z
      else let i := indexOf l' x in if (i <? 0)%Z then (-1)%Z else (i + 1)%Z
  end.

(** The [while] loop started on the roots, with the bound as fuel. *)
Definition level_loop (nodes : list DAGNode) (edges : list DAGEdge)
    : option BfsState :=
  let incoming := incomingEdges nodes edges in
  let outgoing := outgoingEdges nodes edges in
  let roots := rootNodes incoming nodes in
  bfs_loop (bfs_bound nodes edges) incoming outgoing
           (mkBfs [] ∅ ∅ (map node_id roots) 0).

(** The level assignment of a graph with at least one root: the state
    of the loop when it ends, completed with the trailing level. *)
Definition assign_levels (nodes : list DAGNode) (edges : list DAGEdge)
    : option BfsState :=
  option_map (add_unvisited nodes) (level_loop nodes edges).

(** The position of a node from the level assignment. *)
Definition place_in_level (st : BfsState) (levelSpacing nodeSpacing : R)
    (node : DAGNode) : DAGNode :=
  let level := default 0%nat (nodeToLevel st !! node_id node) in
  let levelNodes := default [] (levels st !! level) in
  let positionInLevel := indexOf levelNodes (node_id node) in
  let levelWidth := Rmax ((INR (length levelNodes) - 1) * nodeSpacing) 0 in
  let startX := 200 - levelWidth / 2 in
  with_position node
    (mkPosition (JS.Math_round (startX + IZR positionInLevel * nodeSpacing))
                (JS.Math_round (INR level * levelSpacing + 80))).

Definition calculateHierarchicalLayout (nodes : list DAGNode)
    (edges : list DAGEdge) (levelSpacing nodeSpacing : option R)
    : list DAGNode :=
  let levelSpacing := default 180 levelSpacing in
  let nodeSpacing := default 160 nodeSpacing in
  if (length nodes =? 0)%nat then nodes
  else
    let incoming := incomingEdges nodes edges in
    if (length (rootNodes incoming nodes) =? 0)%nat then
      calculateGridLayout nodes
        (Some (JS.Math_ceil (sqrt (INR (length nodes))))) None
    else
      match assign_levels nodes edges with
      | Some st => map (place_in_level st levelSpacing nodeSpacing) nodes
      | None => nodes
      end.

(** *** Tree *)

Inductive TreeDirection := vertical | horizontal.

(** [children.forEach(childId => totalWidth += rec(childId, level + 1,
    totalWidth, children.length))] *)
Fixpoint subtree_children
    (rec : string -> nat -> nat -> nat -> gmap string Position ->
           option (nat * gmap string Position))
    (children : list string) (level siblingsCount totalWidth : nat)
    (positions : gmap string Position) : option (nat * gmap string Position) :=
  match children with
  | [] => Some (totalWidth, positions)
  | childId :: rest =>
      match rec childId level totalWidth siblingsCount positions with
      | None => None
      | Some (width, positions') =>
          subtree_children rec rest level siblingsCount
                           (totalWidth + width)%nat positions'
      end
  end.

(** The inner function [calculateSubtreePositions]: the width of the
    subtree and the updated [positions] map; [fuel] bounds the depth of
    the recursion. *)
Fixpoint calculateSubtreePositions (fuel : nat)
    (outgoing : gmap string (list string)) (dir : TreeDirection)
    (nodeId : string) (level siblingIndex siblingsCount : nat)
    (positions : gmap string Position) : option (nat * gmap string Position) :=
  match fuel with
  | O => None
  | S fuel' =>
      let children := default [] (outgoing !! nodeId) in
      let childSpacing := match dir with vertical => 160 | horizontal => 200 end in
      let levelSpacing := match dir with vertical => 140 | horizontal => 180 end in
      match children with
      | [] =>
          let x := match dir with
                   | vertical => INR siblingIndex * childSpacing + 100
                   | horizontal => INR level * levelSpacing + 100
                   end in
          let y := match dir with
                   | vertical => INR level * levelSpacing + 80
                   | horizontal => INR siblingIndex * childSpacing + 100
                   end in
          Some (1%nat,
                <[nodeId := mkPosition (JS.Math_round x) (JS.Math_round y)]> positions)
      | first :: _ =>
          match subtree_children (calculateSubtreePositions fuel' outgoing dir)
                                 children (level + 1)%nat (length children) 0%nat
                                 positions with
          | None => None
          | Some (totalWidth, positions') =>
              let firstChild := positions' !! first in
              let lastChild := positions' !! List.last children first in
              match firstChild, lastChild with
              | Some fc, Some lc =>
                  let centerX := (pos_x fc + pos_x lc) / 2 in
                  let centerY := match dir with
                                 | vertical => INR level * levelSpacing + 80
                                 | horizontal => (pos_y fc + pos_y lc) / 2
                                 end in
                  let x := match dir with
                           | vertical => centerX
                           | horizontal => INR level * levelSpacing + 100
                           end in
                  let y := match dir with
                           | vertical => centerY
                           | horizontal => centerX
                           end in
                  Some (totalWidth,
                        <[nodeId := mkPosition (JS.Math_round x) (JS.Math_round y)]>
                          positions')
              | _, _ => Some (totalWidth, positions')
              end
          end
      end
  end.

(** [None] when the recursion is deeper than [fuel] (in the source, when
    it overflows the call stack on a cycle reachable from the root). *)
Definition calculateTreeLayout (fuel : nat) (nodes : list DAGNode)
    (edges : list DAGEdge) (dir : TreeDirection) : option (list DAGNode) :=
  if (length nodes =? 0)%nat then Some nodes
  else
    let incoming := incomingEdges nodes edges in
    let outgoing := outgoingEdges nodes edges in
    match rootNodes incoming nodes with
    | [] => Some (calculateHierarchicalLayout nodes edges None None)
    | rootNode :: _ =>
        match calculateSubtreePositions fuel outgoing dir (node_id rootNode)
                                        0 0 1 ∅ with
        | None => None
        | Some (_, positions) =>
            Some (map (fun node =>
                         with_position node
                           (default (node_position node) (positions !! node_id node)))
                      nodes)
        end
    end.

(** *** Force-directed *)

Record Particle := mkParticle {
  p_id : string;
  p_x : R;
  p_y : R;
  p_vx : R;
  p_vy : R
}.

(** The index pairs [(i, j)], [i < j < n], in the order of the two
    nested [for] loops. *)
Definition index_pairs (n : nat) : list (nat * nat) :=
  flat_map (fun i => map (fun j => (i, j)) (seq (S i) (n - S i))) (seq 0 n).

(** Initial particles.  [random k] is the [k]-th value [Math.random]
    returns; it is asked only for a coordinate that is zero. *)
Fixpoint init_particles (random : nat -> R) (k : nat) (canvasSize : R * R)
    (nodes : list DAGNode) : list Particle :=
  match nodes with
  | [] => []
  | node :: rest =>
      let px := pos_x (node_position node) in
      let py := pos_y (node_position node) in
      let '(x, k1) :=
        if Req_dec_T px 0
        then (fst canvasSize / 2 + (random k - 0.5) * 200, S k)
        else (px, k) in
      let '(y, k2) :=
        if Req_dec_T py 0
        then (snd canvasSize / 2 + (random k1 - 0.5) * 200, S k1)
        else (py, k1) in
      mkParticle (node_id node) x y 0 0 :: init_particles random k2 canvasSize rest
  end.

Definition repulsionStrength : R := 8000.
Definition attractionStrength : R := 0.05.
Definition damping : R := 0.85.
Definition centeringForce : R := 0.001.

Definition add_velocity (fx fy : R) (p : Particle) : Particle :=
  mkParticle (p_id p) (p_x p) (p_y p) (p_vx p + fx) (p_vy p + fy).

Definition repel (positions : list Particle) (ij : nat * nat) : list Particle :=
  match positions !! fst ij, positions !! snd ij with
  | Some pi, Some pj =>
      let dx := p_x pj - p_x pi in
      let dy := p_y pj - p_y pi in
      let distance := JS.or_else (sqrt (dx * dx + dy * dy)) 1 in
      let force := repulsionStrength / (distance * distance) in
      let fx := (dx / distance) * force in
      let fy := (dy / distance) * force in
      alter (add_velocity fx fy) (snd ij)
            (alter (add_velocity (- fx) (- fy)) (fst ij) positions)
  | _, _ => positions
  end.

(** [positions.find(p => p.id === id)], with the index of the object
    found so that updates through it reach the array. *)
Definition find_particle (positions : list Particle) (id : string)
    : option (nat * Particle) :=
  list_find (fun p => p_id p = id) positions.

Definition attract (positions : list Particle) (edge : DAGEdge) : list Particle :=
  match find_particle positions (edge_source edge),
        find_particle positions (edge_target edge) with
  | Some (i, source), Some (j, target) =>
      let dx := p_x target - p_x source in
      let dy := p_y target - p_y source in
      let fx := dx * attractionStrength in
      let fy := dy * attractionStrength in
      alter (add_velocity (- fx) (- fy)) j
            (alter (add_velocity fx fy) i positions)
  | _, _ => positions
  end.

Definition integrate (canvasSize : R * R) (p : Particle) : Particle :=
  let centerX := fst canvasSize / 2 in
  let centerY := snd canvasSize / 2 in
  let vx := (p_vx p + (centerX - p_x p) * centeringForce) * damping in
  let vy := (p_vy p + (centerY - p_y p) * centeringForce) * damping in
  let padding := 100 in
  mkParticle (p_id p)
    (Rmax padding (Rmin (p_x p + vx) (fst canvasSize - padding)))
    (Rmax padding (Rmin (p_y p + vy) (snd canvasSize - padding)))
    vx vy.

(** One iteration of the simulation. *)
Definition force_step (edges : list DAGEdge) (canvasSize : R * R)
    (positions : list Particle) : list Particle :=
  let reset := map (fun p => mkParticle (p_id p) (p_x p) (p_y p) 0 0) positions in
  let repelled := fold_left repel (index_pairs (length reset)) reset in
  let attracted := fold_left attract edges repelled in
  map (integrate canvasSize) attracted.

Definition calculateForceLayout (random : nat -> R) (nodes : list DAGNode)
    (edges : list DAGEdge) (iterations : option nat)
    (canvasSize : option (R * R)) : list DAGNode :=
  let iterations := default 100%nat iterations in
  let canvasSize := default (800, 600) canvasSize in
  if (length nodes =? 0)%nat then nodes
  else
    let positions :=
      Nat.iter iterations (force_step edges canvasSize)
               (init_particles random 0 canvasSize nodes) in
    map (fun node =>
           let pos := find_particle positions (node_id node) in
           let x := match pos with
                    | Some (_, p) => JS.or_else (p_x p) (pos_x (node_position node))
                    | None => pos_x (node_position node)
                    end in
           let y := match pos with
                    | Some (_, p) => JS.or_else (p_y p) (pos_y (node_position node))
                    | None => pos_y (node_position node)
                    end in
           with_position node (mkPosition (JS.Math_round x) (JS.Math_round y)))
        nodes.

(** *** Overlap resolver *)

(** The body of the two inner loops for one pair of indices: the array
    and the [hasOverlap] flag. *)
Definition resolve_pair (minDistance : R) (st : list DAGNode * bool)
    (ij : nat * nat) : list DAGNode * bool :=
  let resolvedNodes := fst st in
  match resolvedNodes !! fst ij, resolvedNodes !! snd ij with
  | Some node1, Some node2 =>
      let dx := pos_x (node_position node2) - pos_x (node_position node1) in
      let dy := pos_y (node_position node2) - pos_y (node_position node1) in
      let distance := sqrt (dx * dx + dy * dy) in
      if JS.ltb distance minDistance then
        let separationDistance := (minDistance - distance) / 2 + 5 in
        let angle := JS.Math_atan2 dy dx in
        let separationX := cos angle * separationDistance in
        let separationY := sin angle * separationDistance in
        let node1' :=
          with_position node1
            (mkPosition (JS.Math_round (pos_x (node_position node1) - separationX))
                        (JS.Math_round (pos_y (node_position node1) - separationY))) in
        let node2' :=
          with_position node2
            (mkPosition (JS.Math_round (pos_x (node_position node2) + separationX))
                        (JS.Math_round (pos_y (node_position node2) + separationY))) in
        (<[snd ij := node2']> (<[fst ij := node1']> resolvedNodes), true)
      else st
  | _, _ => st
  end.

(** [for (iteration = 0; iteration < maxIterations; iteration++)], with
    its [break] when a pass finds no overlap. *)
Fixpoint resolve_iterations (remaining : nat) (minDistance : R)
    (resolvedNodes : list DAGNode) : list DAGNode :=
  match remaining with
  | O => resolvedNodes
  | S remaining' =>
      let '(resolvedNodes', hasOverlap) :=
        fold_left (resolve_pair minDistance)
                  (index_pairs (length resolvedNodes)) (resolvedNodes, false) in
      if negb hasOverlap then resolvedNodes'
      else resolve_iterations remaining' minDistance resolvedNodes'
  end.

Definition resolveNodeOverlaps (nodes : list DAGNode) (minSpacing : option R)
    : list DAGNode :=
  let minSpacing := default 40 minSpacing in
  if (length nodes <=? 1)%nat then nodes
  else
    let maxIterations := 15%nat in
    let minDistance := NODE_WIDTH + minSpacing in
    resolve_iterations maxIterations minDistance nodes.

(** *** Strategy selection *)

(** The [incomingCounts] map: zero for every node, then one more for
    the target of every edge (a target that is not a node gets an entry
    of its own).  The source also fills [outgoingCounts] and [leafNodes],
    which it never reads. *)
Definition incomingCounts (nodes : list DAGNode) (edges : list DAGEdge)
    : gmap string nat :=
  fold_left
    (fun m edge =>
       <[edge_target edge := (default 0 (m !! edge_target edge) + 1)%nat]> m)
    edges
    (fold_left (fun m node => <[node_id node := 0%nat]> m) nodes ∅).

Definition getSuggestedLayout (nodes : list DAGNode) (edges : list DAGEdge)
    : LayoutType :=
  if (length nodes <=? 1)%nat then grid
  else if (length nodes <=? 4)%nat then circular
  else
    let counts := incomingCounts nodes edges in
    let rootNodes :=
      List.filter (fun entry => (snd entry =? 0)%nat) (map_to_list counts) in
    if (length rootNodes =? 1)%nat
       && (length edges =? length nodes - 1)%nat then tree
    else
      let treelike :=
        INR (length (List.filter (fun entry => (snd entry <=? 1)%nat)
                                 (map_to_list counts)))
        / INR (length nodes) in
      if JS.ltb 0.8 treelike && (0 <? length edges)%nat then hierarchical
      else
        let density :=
          INR (length edges)
          / ((INR (length nodes) * (INR (length nodes) - 1)) / 2) in
        if JS.ltb 0.3 density then force
        else if (0 <? length edges)%nat && (length nodes <=? 20)%nat then dagre
        else if (length nodes <=? 12)%nat then circular else grid.

Section Engine.

(** The third-party layered layout.  [dagre_layout nodes edges options]
    is [None] when anything in the [try] block throws, and otherwise
    the function [graph.node] after [dagre.layout(graph)]: the centre
    it computed for an identity, if the graph has that node. *)
Variable dagre_layout :
  list DAGNode -> list DAGEdge -> LayoutOptions -> option (string -> option Position).

(** The successive values of [Math.random]. *)
Variable random : nat -> R.

Definition applyDagreLayout (nodes : list DAGNode) (edges : list DAGEdge)
    (options : PartialLayoutOptions) : list DAGNode :=
  if (length nodes =? 0)%nat then nodes
  else
    let layoutOptions := merge_options options in
    match dagre_layout nodes edges layoutOptions with
    | Some graph_node =>
        map (fun node =>
               match graph_node (node_id node) with
               | Some graphNode =>
                   with_position node
                     (mkPosition
                        (JS.Math_round (pos_x graphNode - nodeWidth layoutOptions / 2))
                        (JS.Math_round (pos_y graphNode - nodeHeight layoutOptions / 2)))
               | None => node
               end)
            nodes
    | None =>
        calculateHierarchicalLayout nodes edges
          (Some (rankSep layoutOptions)) (Some (nodeSep layoutOptions))
    end.

Definition applyBestLayout (fuel : nat) (nodes : list DAGNode)
    (edges : list DAGEdge) (canvasSize : option (R * R))
    : option (list DAGNode) :=
  let layoutType := getSuggestedLayout nodes edges in
  let defaultCanvasSize := default (800, 600) canvasSize in
  let layoutedNodes :=
    match layoutType with
    | tree => calculateTreeLayout fuel nodes edges vertical
    | hierarchical =>
        Some (calculateHierarchicalLayout nodes edges (Some 180) (Some 160))
    | dagre =>
        Some (applyDagreLayout nodes edges
                (mkPartialOptions (Some LR) None None (Some 200) (Some 120)))
    | force =>
        Some (calculateForceLayout random nodes edges (Some 150%nat)
                                   (Some defaultCanvasSize))
    | circular => Some (calculateCircularLayout nodes None None)
    | grid =>
        let cols := JS.Math_ceil (sqrt (INR (length nodes) * 1.5)) in
        Some (calculateGridLayout nodes (Some cols) (Some (200, 150)))
    end in
  option_map (fun l => resolveNodeOverlaps l (Some 50)) layoutedNodes.

End Engine.

(** *** Fit to view *)



(** Two node arrays that differ at most in the positions. *)
Definition same_up_to_position (nodes nodes' : list DAGNode) : Prop :=
  Forall2 (fun n n' => node_id n' = node_id n
                       /\ node_label n' = node_label n
                       /\ node_selected n' = node_selected n)
          nodes nodes'.

(** The rectangle of a node placed at [p]. *)
Definition rect_at (p : Position) : Rect :=
  mkRect (pos_x p) (pos_y p) NODE_WIDTH NODE_HEIGHT.

(** The identities the level loop can mark. *)
Definition bfs_universe (nodes : list DAGNode) (edges : list DAGEdge)
    : gset string :=
  list_to_set (map node_id nodes ++ map edge_target edges).

(** What holds of the loop variables at the head of every iteration. *)
Definition bfs_inv (U : gset string) (st : BfsState) : Prop :=
  visited st ⊆ U
  /\ (forall x, x ∈ currentLevel st -> x ∈ U /\ x ∉ visited st)
  /\ levelIndex st = length (levels st)
  /\ (forall id l, nodeToLevel st !! id = Some l ->
        id ∈ visited st /\ (l < levelIndex st)%nat).

(** What the level loop maintains besides: a marked identity has a
    level, the parents of an identity with a level are on smaller
    levels, and the parents of the identities about to be marked are
    marked. *)
Definition bfs_layered (incoming : gmap string (list string)) (st : BfsState)
    : Prop :=
  (forall id, id ∈ visited st -> exists l, nodeToLevel st !! id = Some l)
  /\ (forall v l p, nodeToLevel st !! v = Some l ->
        In p (default [] (incoming !! v)) ->
        exists lp, nodeToLevel st !! p = Some lp /\ (lp < l)%nat)
  /\ (forall v p, v ∈ currentLevel st -> In p (default [] (incoming !! v)) ->
        p ∈ visited st).

(** A node that is not marked while all its parents are is about to be
    marked. *)
Definition bfs_pending (nodes : list DAGNode)
    (incoming : gmap string (list string)) (st : BfsState) : Prop :=
  forall v, In v (map node_id nodes) -> v ∉ visited st ->
    (forall p, In p (default [] (incoming !! v)) -> p ∈ visited st) ->
    v ∈ currentLevel st.

(** What a layout must leave alone in a node. *)
Definition frame_of (n : DAGNode) : string * string * bool :=
  (node_id n, node_label n, node_selected n).

(** The number of edges into an identity. *)
Definition indegree (edges : list DAGEdge) (v : string) : nat :=
  length (List.filter (fun e => String.eqb (edge_target e) v) edges).

(** The recursion of the tree layout, when the strategy selection asks
    for it on nodes with distinct identities, is never deeper than the
    number of nodes (lemma [tree_layout_returns]). *)
Definition tree_depth_bound (nodes : list DAGNode) : nat := S (length nodes).

(** A path of the recursion, last call first: it starts from a node
    without incoming edge and follows edges. *)
Fixpoint descends (edges : list DAGEdge) (path : list string) : Prop :=
  match path with
  | [] => True
  | [root] => indegree edges root = 0%nat
  | v :: ((p :: _) as rest) =>
      (exists e, In e edges /\ edge_source e = p /\ edge_target e = v)
      /\ descends edges rest
  end.

End Layout.

(** ** Canvas view state ([hooks/useCanvasState.ts]) *)

Module Canvas.

Local Open Scope R_scope.
Import Geometry.

Definition DEFAULT_ZOOM : R := 1.
Definition MIN_ZOOM : R := 0.1.
Definition MAX_ZOOM : R := 3.
Definition ZOOM_STEP : R := 0.1.

(** [CanvasState] of [types/dag.ts]; [canvasSize] is (width, height). *)
Record CanvasState := mkCanvas {
  zoom : R;
  pan : Position;
  canvasSize : R * R
}.

Definition mount (initialCanvasSize : option (R * R)) : CanvasState :=
  mkCanvas DEFAULT_ZOOM (mkPosition 0 0) (default (800, 600) initialCanvasSize).

Definition zoomIn (prev : CanvasState) : CanvasState :=
  mkCanvas (Rmin (zoom prev + ZOOM_STEP) MAX_ZOOM) (pan prev) (canvasSize prev).

Definition zoomOut (prev : CanvasState) : CanvasState :=
  mkCanvas (Rmax (zoom prev - ZOOM_STEP) MIN_ZOOM) (pan prev) (canvasSize prev).

Definition setZoom (z : R) (prev : CanvasState) : CanvasState :=
  let clampedZoom := Rmax MIN_ZOOM (Rmin MAX_ZOOM z) in
  mkCanvas clampedZoom (pan prev) (canvasSize prev).

Definition resetZoom (prev : CanvasState) : CanvasState :=
  mkCanvas DEFAULT_ZOOM (pan prev) (canvasSize prev).

(** The operation [pan(delta)]. *)
Definition panBy (delta : Position) (prev : CanvasState) : CanvasState :=
  mkCanvas (zoom prev)
           (mkPosition (pos_x (pan prev) + pos_x delta) (pos_y (pan prev) + pos_y delta))
           (canvasSize prev).

Definition setPan (newPan : Position) (prev : CanvasState) : CanvasState :=
  mkCanvas (zoom prev) newPan (canvasSize prev).

Definition resetPan (prev : CanvasState) : CanvasState :=
  mkCanvas (zoom prev) (mkPosition 0 0) (canvasSize prev).

Definition resetView (prev : CanvasState) : CanvasState :=
  mkCanvas DEFAULT_ZOOM (mkPosition 0 0) (canvasSize prev).

Definition fitToView (nodes : list DAGNode) (padding : option R)
    (prev : CanvasState) : CanvasState :=
  let padding := default 50 padding in
  if (length nodes =? 0)%nat then resetView prev
  else
    let boundingBox := calculateBoundingBox nodes in
    let availableWidth := fst (canvasSize prev) - padding * 2 in
    let availableHeight := snd (canvasSize prev) - padding * 2 in
    let scaleX := availableWidth / bb_width boundingBox in
    let scaleY := availableHeight / bb_height boundingBox in
    let newZoom := Rmin (Rmin scaleX scaleY) MAX_ZOOM in
    let scaledWidth := bb_width boundingBox * newZoom in
    let scaledHeight := bb_height boundingBox * newZoom in
    let newPan :=
      mkPosition
        ((fst (canvasSize prev) - scaledWidth) / 2 - minX boundingBox * newZoom)
        ((snd (canvasSize prev) - scaledHeight) / 2 - minY boundingBox * newZoom) in
    mkCanvas (Rmax newZoom MIN_ZOOM) newPan (canvasSize prev).

Definition updateCanvasSize (size : R * R) (prev : CanvasState) : CanvasState :=
  mkCanvas (zoom prev) (pan prev) size.

(** The operations the hook exposes. *)
Inductive Op :=
| OpZoomIn
| OpZoomOut
| OpSetZoom (z : R)
| OpResetZoom
| OpPan (delta : Position)
| OpSetPan (newPan : Position)
| OpResetPan
| OpResetView
| OpFitToView (nodes : list DAGNode) (padding : option R)
| OpUpdateCanvasSize (size : R * R).

Definition step (st : CanvasState) (op : Op) : CanvasState :=
  match op with
  | OpZoomIn => zoomIn st
  | OpZoomOut => zoomOut st
  | OpSetZoom z => setZoom z st
  | OpResetZoom => resetZoom st
  | OpPan delta => panBy delta st
  | OpSetPan newPan => setPan newPan st
  | OpResetPan => resetPan st
  | OpResetView => resetView st
  | OpFitToView nodes padding => fitToView nodes padding st
  | OpUpdateCanvasSize size => updateCanvasSize size st
  end.

Definition run (initialCanvasSize : option (R * R)) (ops : list Op) : CanvasState :=
  fold_left step ops (mount initialCanvasSize).

End Canvas.

(** ** Selection ([hooks/useSelection.ts]) *)

Module Selection.

Record SelectionState := mkSelection {
  nodes : list string;
  edges : list string
}.

Definition mount (initialSelection : option SelectionState) : SelectionState :=
  default (mkSelection [] []) initialSelection.

(** [ids.includes(x) ? ids.filter(id => id !== x) : [...ids, x]] *)
Definition toggle (ids : list string) (x : string) : list string :=
  if EdgeStore.includes ids x
  then List.filter (fun id => negb (String.eqb id x)) ids
  else (ids ++ [x])%list.

(** [[...new Set([...prev, ...ids])]]: first occurrences, in order. *)
Definition union (prev ids : list string) : list string :=
  fold_left Layout.ordered_add (prev ++ ids)%list [].

Definition selectNode (nodeId : string) (multiSelect : bool)
    (prev : SelectionState) : SelectionState :=
  if multiSelect then mkSelection (toggle (nodes prev) nodeId) (edges prev)
  else mkSelection [nodeId] [].

Definition selectEdge (edgeId : string) (multiSelect : bool)
    (prev : SelectionState) : SelectionState :=
  if multiSelect then mkSelection (nodes prev) (toggle (edges prev) edgeId)
  else mkSelection [] [edgeId].

Definition selectNodes (nodeIds : list string) (replace : bool)
    (prev : SelectionState) : SelectionState :=
  mkSelection (if replace then nodeIds else union (nodes prev) nodeIds) (edges prev).

Definition selectEdges (edgeIds : list string) (replace : bool)
    (prev : SelectionState) : SelectionState :=
  mkSelection (nodes prev) (if replace then edgeIds else union (edges prev) edgeIds).

Definition toggleNodeSelection (nodeId : string) (prev : SelectionState)
    : SelectionState :=
  mkSelection (toggle (nodes prev) nodeId) (edges prev).

Definition toggleEdgeSelection (edgeId : string) (prev : SelectionState)
    : SelectionState :=
  mkSelection (nodes prev) (toggle (edges prev) edgeId).

Definition clearSelection (prev : SelectionState) : SelectionState :=
  mkSelection [] [].

Definition clearNodeSelection (prev : SelectionState) : SelectionState :=
  mkSelection [] (edges prev).

Definition clearEdgeSelection (prev : SelectionState) : SelectionState :=
  mkSelection (nodes prev) [].

Definition isNodeSelected (nodeId : string) (st : SelectionState) : bool :=
  EdgeStore.includes (nodes st) nodeId.

Definition isEdgeSelected (edgeId : string) (st : SelectionState) : bool :=
  EdgeStore.includes (edges st) edgeId.

Definition hasSelection (st : SelectionState) : bool :=
  (0 <? length (nodes st))%nat || (0 <? length (edges st))%nat.

(** [getSelectionCount]: [nodes], [edges] and [total]. *)
Definition getSelectionCount (st : SelectionState) : nat * nat * nat :=
  (length (nodes st), length (edges st),
   (length (nodes st) + length (edges st))%nat).

Definition selectAll (nodeIds edgeIds : list string) (prev : SelectionState)
    : SelectionState :=
  mkSelection nodeIds edgeIds.

Definition invertSelection (nodeIds edgeIds : list string)
    (prev : SelectionState) : SelectionState :=
  mkSelection
    (List.filter (fun id => negb (EdgeStore.includes (nodes prev) id)) nodeIds)
    (List.filter (fun id => negb (EdgeStore.includes (edges prev) id)) edgeIds).

End Selection.

(** ** The editor ([components/PipelineEditor/PipelineEditor.tsx])

    The three hooks the component owns for the graph, and the handlers
    it builds from them.  The canvas view state is left out: no handler
    reads it to change nodes, edges or selection, except for the canvas
    size that [applyAutoLayout] passes on, which is an argument here. *)

Module Editor.

Section Handlers.

Variable dagre_layout :
  list DAGNode -> list DAGEdge -> Layout.LayoutOptions ->
  option (string -> option Position).

Record State := mkEditor {
  nodeManagement : NodeStore.State;
  edgeManagement : EdgeStore.State;
  selection : Selection.SelectionState
}.

(** [useNodeManagement([])], [useEdgeManagement([], nodes)],
    [useSelection()]. *)
Definition mount : State :=
  mkEditor (NodeStore.mount []) (EdgeStore.mount []) (Selection.mount None).

(** [addNode]: [random] holds the two values of [Math.random],
    [prompted] the answer to the prompt.  When [nodeManagement.addNode]
    throws, the [catch] leaves everything as it is. *)
Definition addNode (random : R * R) (prompted : option string) (st : State) : State :=
  let position :=
    Geometry.findNonOverlappingPosition
      (NodeStore.nodes (nodeManagement st))
      (Some (mkPosition (fst random * 300 + 100) (snd random * 200 + 100)))
      None in
  match NodeStore.addNode None (Some position) prompted (0%R, 0%R)
                          (nodeManagement st) with
  | (Some newNode, nodeManagement') =>
      mkEditor nodeManagement' (edgeManagement st)
               (Selection.selectNode (node_id newNode) false
                  (Selection.clearSelection (selection st)))
  | (None, nodeManagement') =>
      mkEditor nodeManagement' (edgeManagement st) (selection st)
  end.

(** [onEdgeCreate = edgeManagement.addEdge], the edge hook being
    rendered with [nodeManagement.nodes]. *)
Definition onEdgeCreate (sourceId targetId : string) (st : State) : State :=
  mkEditor (nodeManagement st)
           (snd (EdgeStore.addEdge (NodeStore.nodes (nodeManagement st))
                                   sourceId targetId (edgeManagement st)))
           (selection st).

(** [onNodePositionUpdate = nodeManagement.updateNodePosition] *)
Definition onNodePositionUpdate (nodeId : string) (position : Position)
    (st : State) : State :=
  mkEditor (NodeStore.updateNodePosition nodeId position (nodeManagement st))
           (edgeManagement st) (selection st).

Inductive ItemType := ItemNode | ItemEdge.

Definition selectItem (type : ItemType) (id : string) (multiSelect : bool)
    (st : State) : State :=
  mkEditor (nodeManagement st) (edgeManagement st)
           (match type with
            | ItemNode => Selection.selectNode id multiSelect (selection st)
            | ItemEdge => Selection.selectEdge id multiSelect (selection st)
            end).

Definition clearSelection (st : State) : State :=
  mkEditor (nodeManagement st) (edgeManagement st)
           (Selection.clearSelection (selection st)).

(** Ctrl+A *)
Definition selectAll (st : State) : State :=
  mkEditor (nodeManagement st) (edgeManagement st)
           (Selection.selectAll
              (map node_id (NodeStore.nodes (nodeManagement st)))
              (map edge_id (EdgeStore.edges (edgeManagement st)))
              (selection st)).

Definition deleteSelectedItems (st : State) : State :=
  let selectedNodes := Selection.nodes (selection st) in
  let selectedEdges := Selection.edges (selection st) in
  let '(edgeManagement1, nodeManagement1) :=
    if (0 <? length selectedNodes)%nat then
      (EdgeStore.removeEdgesForNodes selectedNodes (edgeManagement st),
       NodeStore.removeNodes selectedNodes (nodeManagement st))
    else (edgeManagement st, nodeManagement st) in
  let edgeManagement2 :=
    if (0 <? length selectedEdges)%nat then
      EdgeStore.removeEdges selectedEdges edgeManagement1
    else edgeManagement1 in
  mkEditor nodeManagement1 edgeManagement2
           (Selection.clearSelection (selection st)).

(** [applyAutoLayout].  [fuel] bounds the recursion of the tree layout:
    when it runs out the handler throws before [setNodes], and nothing
    changes. *)
Definition applyAutoLayout (fuel : nat) (random : nat -> R) (canvasSize : R * R)
    (st : State) : State :=
  match Layout.applyBestLayout dagre_layout random fuel
          (NodeStore.nodes (nodeManagement st))
          (EdgeStore.edges (edgeManagement st))
          (Some canvasSize) with
  | Some layoutedNodes =>
      mkEditor (NodeStore.setNodes layoutedNodes (nodeManagement st))
               (edgeManagement st) (selection st)
  | None => st
  end.

(** [clearAll]; [confirmed] is the answer to [window.confirm]. *)
Definition clearAll (confirmed : bool) (st : State) : State :=
  if confirmed then
    mkEditor (NodeStore.clearNodes (nodeManagement st))
             (EdgeStore.clearEdges (edgeManagement st))
             (Selection.clearSelection (selection st))
  else st.

(** What the user can do to the graph and the selection. *)
Inductive Op :=
| OpAddNode (random : R * R) (prompted : option string)
| OpEdgeCreate (sourceId targetId : string)
| OpNodePositionUpdate (nodeId : string) (position : Position)
| OpSelectItem (type : ItemType) (id : string) (multiSelect : bool)
| OpClearSelection
| OpSelectAll
| OpDeleteSelectedItems
| OpApplyAutoLayout (fuel : nat) (random : nat -> R) (canvasSize : R * R)
| OpClearAll (confirmed : bool).

Definition step (st : State) (op : Op) : State :=
  match op with
  | OpAddNode random prompted => addNode random prompted st
  | OpEdgeCreate sourceId targetId => onEdgeCreate sourceId targetId st
  | OpNodePositionUpdate nodeId position => onNodePositionUpdate nodeId position st
  | OpSelectItem type id multiSelect => selectItem type id multiSelect st
  | OpClearSelection => clearSelection st
  | OpSelectAll => selectAll st
  | OpDeleteSelectedItems => deleteSelectedItems st
  | OpApplyAutoLayout fuel random canvasSize =>
      applyAutoLayout fuel random canvasSize st
  | OpClearAll confirmed => clearAll confirmed st
  end.

Definition run (ops : list Op) : State := fold_left step ops mount.

(** The graph the editor holds is well formed: identities are pairwise
    distinct, every edge joins two nodes that exist, and the edges make
    up a simple graph. *)
Definition well_formed (st : State) : Prop :=
  List.NoDup (map node_id (NodeStore.nodes (nodeManagement st)))
  /\ List.NoDup (map edge_id (EdgeStore.edges (edgeManagement st)))
  /\ (forall e, In e (EdgeStore.edges (edgeManagement st)) ->
        In (edge_source e) (map node_id (NodeStore.nodes (nodeManagement st)))
        /\ In (edge_target e) (map node_id (NodeStore.nodes (nodeManagement st))))
  /\ EdgeStore.simple_graph (EdgeStore.edges (edgeManagement st)).

End Handlers.

End Editor.

(** * Properties *)

(** ** Folds *)

Section Folds.

Lemma fold_left_invariant {A B : Type} (P : A -> Prop) (f : A -> B -> A)
    (l : list B) (a : A) :
  P a -> (forall a b, In b l -> P a -> P (f a b)) -> P (fold_left f l a).
Proof.
  revert a. induction l as [|b l IH]; intros a Ha Hf; simpl; [exact Ha|].
  apply IH.
  - apply Hf; [left; reflexivity | exact Ha].
  - intros a' b' Hb'. apply Hf. right. exact Hb'.
Qed.

Lemma fold_left_prefix {A B : Type} (P : list B -> A -> Prop) (f : A -> B -> A)
    (l : list B) (a : A) :
  P [] a -> (forall pre b a, P pre a -> P (pre ++ [b])%list (f a b)) ->
  P l (fold_left f l a).
Proof.
  intros H0 Hstep.
  assert (H : forall rest pre a, P pre a -> P (pre ++ rest)%list (fold_left f rest a)).
  { induction rest as [|b rest IH]; intros pre a' Hp; simpl.
    - rewrite app_nil_r. exact Hp.
    - replace (pre ++ b :: rest)%list with ((pre ++ [b]) ++ rest)%list
        by (rewrite <- app_assoc; reflexivity).
      apply IH, Hstep, Hp. }
  apply (H l [] a H0).
Qed.

End Folds.

(** ** Edge admission *)

Section EdgeAdmission.

Import EdgeStore.

Lemma existsb_edge_pair (edges : list DAGEdge) (s t : string) :
  existsb (fun edge => String.eqb (edge_source edge) s
                       && String.eqb (edge_target edge) t) edges = true
  <-> exists e, In e edges /\ edge_source e = s /\ edge_target e = t.
Proof.
  rewrite existsb_exists. split.
  - intros (e & Hin & He). apply andb_true_iff in He as [Hs Ht].
    apply String.eqb_eq in Hs, Ht. eauto.
  - intros (e & Hin & Hs & Ht). exists e. split; [assumption|].
    rewrite Hs, Ht, !String.eqb_refl. reflexivity.
Qed.

Lemma existsb_node_id (nodes : list DAGNode) (i : string) :
  existsb (fun node => String.eqb (node_id node) i) nodes = true
  <-> In i (map node_id nodes).
Proof.
  rewrite existsb_exists, in_map_iff. split.
  - intros (n & Hin & Hn). apply String.eqb_eq in Hn. eauto.
  - intros (n & Hn & Hin). exists n. rewrite Hn, String.eqb_refl. auto.
Qed.

(** C10: a proposed edge whose source equals its target is rejected
    with the self-connection message, whatever the edge and node sets
    are (the identity need not even be a node). *)
Theorem validateEdge_self_connection (edges : list DAGEdge)
    (nodes : list DAGNode) (sourceId targetId : string) :
  sourceId = targetId ->
  validateEdge edges nodes sourceId targetId
  = mkEdgeValidation false (Some "Self-connections are not allowed").
Proof.
  intros ->. unfold validateEdge. rewrite String.eqb_refl. reflexivity.
Qed.

Lemma validateEdge_self_connection_witness :
  validateEdge [mkEdge "edge-1" "A" "A" false] [] "ghost" "ghost"
  = mkEdgeValidation false (Some "Self-connections are not allowed").
Proof. apply validateEdge_self_connection. reflexivity. Defined.

(** The four checks in their order: each reason is reported exactly when
    the checks before it pass and its own check fails. *)
Lemma validateEdge_checks (edges : list DAGEdge) (nodes : list DAGNode)
    (s t : string) :
  let duplicate := exists e, In e edges /\ edge_source e = s /\ edge_target e = t in
  let reverse := exists e, In e edges /\ edge_source e = t /\ edge_target e = s in
  let present := In s (map node_id nodes) /\ In t (map node_id nodes) in
  (s = t -> validateEdge edges nodes s t = mkEdgeValidation false (Some msg_self))
  /\ (s <> t -> duplicate ->
      validateEdge edges nodes s t = mkEdgeValidation false (Some msg_duplicate))
  /\ (s <> t -> ~ duplicate -> ~ present ->
      validateEdge edges nodes s t = mkEdgeValidation false (Some msg_missing))
  /\ (s <> t -> ~ duplicate -> present -> reverse ->
      validateEdge edges nodes s t = mkEdgeValidation false (Some msg_direct_cycle))
  /\ (s <> t -> ~ duplicate -> present -> ~ reverse ->
      validateEdge edges nodes s t = mkEdgeValidation true None).
Proof.
  intros duplicate reverse present. unfold validateEdge.
  pose proof (existsb_edge_pair edges s t) as Hdup.
  pose proof (existsb_edge_pair edges t s) as Hrev.
  pose proof (existsb_node_id nodes s) as Hs.
  pose proof (existsb_node_id nodes t) as Ht.
  fold duplicate in Hdup. fold reverse in Hrev.
  destruct (String.eqb_spec s t) as [Heq|Hne].
  { repeat split; intros; congruence. }
  destruct (existsb (fun edge => String.eqb (edge_source edge) s
                                 && String.eqb (edge_target edge) t) edges).
  { assert (Hd : duplicate) by (apply Hdup; reflexivity).
    repeat split; intros; try contradiction; reflexivity. }
  assert (Hnd : ~ duplicate) by (intros Hd; apply Hdup in Hd; discriminate).
  destruct (existsb (fun node => String.eqb (node_id node) s) nodes); cycle 1.
  { assert (Hns : ~ present) by (intros [H _]; apply Hs in H; discriminate).
    repeat split; intros; try contradiction; reflexivity. }
  destruct (existsb (fun node => String.eqb (node_id node) t) nodes); cycle 1.
  { assert (Hnt : ~ present) by (intros [_ H]; apply Ht in H; discriminate).
    repeat split; intros; try contradiction; reflexivity. }
  assert (Hp : present) by (split; [apply Hs|apply Ht]; reflexivity).
  cbn [negb orb].
  destruct (existsb (fun edge => String.eqb (edge_source edge) t
                                 && String.eqb (edge_target edge) s) edges).
  - assert (Hr : reverse) by (apply Hrev; reflexivity).
    repeat split; intros; try contradiction; reflexivity.
  - assert (Hnr : ~ reverse) by (intros Hr; apply Hrev in Hr; discriminate).
    repeat split; intros; try contradiction; reflexivity.
Qed.

(** C4: with distinct nodes [A] and [B], an edge [B -> A] present and
    no edge [A -> B], the proposal [A -> B] is rejected with the
    direct-cycle reason: the three earlier checks pass and the fourth
    fails. *)
Theorem validateEdge_direct_cycle (edges : list DAGEdge)
    (nodes : list DAGNode) (A B : string) :
  A <> B ->
  In A (map node_id nodes) ->
  In B (map node_id nodes) ->
  (exists e, In e edges /\ edge_source e = B /\ edge_target e = A) ->
  (forall e, In e edges -> ~ (edge_source e = A /\ edge_target e = B)) ->
  validateEdge edges nodes A B
  = mkEdgeValidation false (Some "This connection would create a direct cycle").
Proof.
  intros Hne HA HB Hrev Hdup. unfold validateEdge.
  apply String.eqb_neq in Hne. rewrite Hne.
  destruct (existsb _ edges) eqn:Hex.
  { apply existsb_edge_pair in Hex as (e & Hin & Hs & Ht).
    exfalso. apply (Hdup e Hin). auto. }
  apply existsb_node_id in HA, HB. rewrite HA, HB. simpl.
  apply existsb_edge_pair in Hrev. rewrite Hrev. reflexivity.
Qed.

Lemma validateEdge_direct_cycle_witness :
  validateEdge [mkEdge "edge-1" "B" "A" false]
               [mkNode "A" "a" (mkPosition 0 0) false;
                mkNode "B" "b" (mkPosition 0 0) false] "A" "B"
  = mkEdgeValidation false (Some "This connection would create a direct cycle").
Proof.
  apply validateEdge_direct_cycle.
  - discriminate.
  - simpl. auto.
  - simpl. auto.
  - eexists. split; [left; reflexivity|]. split; reflexivity.
  - intros e [<-|[]] [H _]. discriminate H.
Defined.

End EdgeAdmission.

(** ** Identity strings *)

Section Identities.

Import Ident.

Lemma strip_prefix_app (p s : string) : strip_prefix p (p ++ s) = Some s.
Proof.
  induction p as [|a p IH]; simpl; [reflexivity|].
  rewrite Ascii.eqb_refl. exact IH.
Qed.

Lemma take_digits_string_of_uint (d : uint) :
  take_digits (NilEmpty.string_of_uint d) = NilEmpty.string_of_uint d.
Proof. induction d; simpl; try rewrite IHd; reflexivity. Qed.

Lemma string_of_uint_nonempty (d : uint) :
  d <> Nil -> NilEmpty.string_of_uint d <> "".
Proof. destruct d; simpl; congruence. Qed.

Lemma to_uint_nonnil (n : N) : N.to_uint n <> Nil.
Proof.
  destruct n as [|p]; simpl; [discriminate|].
  apply DecimalPos.Unsigned.to_uint_nonnil.
Qed.

(** Reading back an identity built from a counter gives the counter. *)
Lemma id_number_make_id (p : string) (n : N) :
  id_number p (make_id p n) = Some n.
Proof.
  unfold id_number, make_id, number_to_string.
  assert (Hm : match_here p (p ++ NilEmpty.string_of_uint (N.to_uint n))
               = Some (NilEmpty.string_of_uint (N.to_uint n))).
  { unfold match_here. rewrite strip_prefix_app, take_digits_string_of_uint.
    pose proof (string_of_uint_nonempty _ (to_uint_nonnil n)) as Hne.
    destruct (NilEmpty.string_of_uint (N.to_uint n)); congruence. }
  assert (Hr : regex_match p (p ++ NilEmpty.string_of_uint (N.to_uint n))
               = Some (NilEmpty.string_of_uint (N.to_uint n))).
  { destruct (p ++ NilEmpty.string_of_uint (N.to_uint n)) eqn:E;
      simpl; rewrite Hm; reflexivity. }
  rewrite Hr. unfold parseInt. rewrite NilEmpty.usu. simpl.
  rewrite DecimalN.Unsigned.of_to. reflexivity.
Qed.

Lemma max_id_number_acc (p : string) (ids : list string) (acc : N) :
  (acc <= fold_left (fun max s => match id_number p s with
                                  | Some num => N.max max num
                                  | None => max
                                  end) ids acc)%N
  /\ forall s k, In s ids -> id_number p s = Some k ->
       (k <= fold_left (fun max s => match id_number p s with
                                     | Some num => N.max max num
                                     | None => max
                                     end) ids acc)%N.
Proof.
  revert acc. induction ids as [|s0 ids IH]; intros acc; simpl.
  - split; [lia|]. intros s k [].
  - destruct (IH (match id_number p s0 with
                  | Some num => N.max acc num | None => acc end)) as [Hacc Hin].
    split.
    + destruct (id_number p s0); lia.
    + intros s k [->|Hs] Hk.
      * rewrite Hk in Hacc |- *. lia.
      * eapply Hin; eassumption.
Qed.

(** The scan made on mount is an upper bound of every number present. *)
Lemma max_id_number_ge (p : string) (ids : list string) (s : string) (k : N) :
  In s ids -> id_number p s = Some k -> (k <= max_id_number p ids)%N.
Proof. intros. eapply (proj2 (max_id_number_acc p ids 0)); eassumption. Qed.

End Identities.

(** ** Edge registry *)

Section EdgeRegistry.

Import EdgeStore.

Lemma edge_counter_above_mount (initialEdges : list DAGEdge) :
  edge_counter_above (mount initialEdges).
Proof.
  intros e k Hin Hk. simpl in *.
  assert (k <= Ident.max_id_number "edge-" (map edge_id initialEdges))%N.
  { eapply max_id_number_ge; [|eassumption]. apply in_map. assumption. }
  lia.
Qed.

Lemma edge_counter_above_step (st : State) (op : Op) :
  edge_counter_above st -> edge_counter_above (step st op).
Proof.
  intros Hinv. destruct op; simpl;
    try (intros e k Hin Hk; simpl in Hin; apply filter_In in Hin as [Hin _];
         exact (Hinv e k Hin Hk)).
  - unfold addEdge.
    destruct (negb (ev_isValid (validateEdge (edges st) nodes sourceId targetId)));
      simpl; [assumption|].
    intros e k Hin Hk. simpl in *. apply in_app_or in Hin as [Hin|[<-|[]]].
    + specialize (Hinv e k Hin Hk). lia.
    + simpl in Hk. rewrite id_number_make_id in Hk. injection Hk as <-. lia.
  - intros e k [].
Qed.

Lemma edge_counter_above_run (initialEdges : list DAGEdge) (ops : list Op) :
  edge_counter_above (run initialEdges ops).
Proof.
  unfold run. generalize (edge_counter_above_mount initialEdges).
  generalize (mount initialEdges). induction ops as [|op ops IH]; intros st Hst.
  - exact Hst.
  - simpl. apply IH, edge_counter_above_step, Hst.
Qed.

Lemma edge_counter_above_add (rendered : list DAGEdge) (nodes : list DAGNode)
    (s t : string) (st : State) :
  edge_counter_above st ->
  edge_counter_above (snd (addEdge_in_render rendered nodes s t st)).
Proof.
  intros Hinv. unfold addEdge_in_render.
  destruct (negb (ev_isValid (validateEdge rendered nodes s t))); simpl;
    [assumption|].
  intros e k Hin Hk. simpl in *. apply in_app_or in Hin as [Hin|[<-|[]]].
  - specialize (Hinv e k Hin Hk). lia.
  - simpl in Hk. rewrite id_number_make_id in Hk. injection Hk as <-. lia.
Qed.

Lemma edge_counter_above_play (initialEdges : list DAGEdge) (events : list Event) :
  edge_counter_above (hook_state (play initialEdges events)).
Proof.
  unfold play. apply (fold_left_invariant (fun h => edge_counter_above (hook_state h))).
  - apply edge_counter_above_mount.
  - intros h ev _ Hh. destruct ev as [|op]; [exact Hh|].
    destruct op; try (apply (edge_counter_above_step (hook_state h)), Hh).
    apply edge_counter_above_add, Hh.
Qed.

(** The call made from a render that has seen the state. *)
Lemma addEdge_in_fresh_render (nodes : list DAGNode) (s t : string) (st : State) :
  addEdge_in_render (edges st) nodes s t st = addEdge nodes s t st.
Proof. reflexivity. Qed.

(** [run] is [play] with a render before every call. *)
Lemma play_rendered (initialEdges : list DAGEdge) (ops : list Op) :
  hook_state (play initialEdges (flat_map (fun op => [Render; Call op]) ops))
  = run initialEdges ops.
Proof.
  unfold play, run.
  change (mount initialEdges) with (hook_state (mount_hook initialEdges)).
  generalize (mount_hook initialEdges).
  induction ops as [|op ops IH]; intros h; simpl; [reflexivity|].
  rewrite IH. destruct op; reflexivity.
Qed.

(** *** The exact counters are the double counters below 2^53 *)

Lemma mountEdges_exact (initialEdges : list DAGEdge) :
  exact_counters initialEdges 0 ->
  Doubles.mountEdges initialEdges = Some (mount initialEdges).
Proof.
  unfold exact_counters, Doubles.mountEdges, Ident.js_max_id_number, Ident.js_succ, mount.
  intros H.
  assert (Hle : (Ident.max_id_number "edge-" (map edge_id initialEdges)
                 <=? Ident.MAX_EXACT)%N = true) by (apply N.leb_le; lia).
  assert (Hlt : (Ident.max_id_number "edge-" (map edge_id initialEdges)
                 <? Ident.MAX_EXACT)%N = true) by (apply N.ltb_lt; lia).
  rewrite Hle, Hlt. reflexivity.
Qed.

Lemma addEdge_exact (rendered : list DAGEdge) (nodes : list DAGNode)
    (s t : string) (st : State) :
  (edgeIdCounter st < Ident.MAX_EXACT)%N ->
  Doubles.addEdge rendered nodes s t st
  = Some (addEdge_in_render rendered nodes s t st).
Proof.
  intros H. unfold Doubles.addEdge, addEdge_in_render, Ident.js_succ.
  apply N.ltb_lt in H. rewrite H.
  destruct (negb (ev_isValid (validateEdge rendered nodes s t))); reflexivity.
Qed.

Lemma handle_counter (h : Hook) (ev : Event) :
  (1 <= edgeIdCounter (hook_state h))%N ->
  (1 <= edgeIdCounter (hook_state (handle h ev))
   <= edgeIdCounter (hook_state h) + 1)%N.
Proof.
  intros H. destruct ev as [|op]; simpl; [lia|].
  destruct op; simpl; try lia.
  unfold addEdge_in_render. destruct (negb _); simpl; lia.
Qed.

Lemma handleEdges_exact (events : list Event) (h : Hook) :
  (1 <= edgeIdCounter (hook_state h))%N ->
  (edgeIdCounter (hook_state h) + N.of_nat (length events) < Ident.MAX_EXACT)%N ->
  fold_left (fun h ev => match h with
                         | Some h => Doubles.handleEdges h ev
                         | None => None
                         end) events (Some h)
  = Some (fold_left handle events h)
  /\ (edgeIdCounter (hook_state (fold_left handle events h)) < Ident.MAX_EXACT)%N.
Proof.
  revert h. induction events as [|ev events IH]; intros h H1 Hb.
  - simpl in *. split; [reflexivity|lia].
  - cbn [fold_left]. pose proof (handle_counter h ev H1) as Hc.
    assert (Hev : Doubles.handleEdges h ev = Some (handle h ev)).
    { destruct ev as [|op]; [reflexivity|]. destruct op; try reflexivity.
      unfold Doubles.handleEdges. rewrite addEdge_exact; [reflexivity|].
      cbn [length] in Hb. lia. }
    rewrite Hev. apply IH; [lia|]. cbn [length] in Hb. lia.
Qed.

(** Along a history in the range of [exact_counters] the hook with the
    exact counter is the hook with the double counter, and the next
    [addEdge] is too. *)
Lemma playEdges_exact (initialEdges : list DAGEdge) (events : list Event) :
  exact_counters initialEdges (length events) ->
  Doubles.playEdges initialEdges events = Some (play initialEdges events)
  /\ forall rendered nodes s t,
       Doubles.addEdge rendered nodes s t (hook_state (play initialEdges events))
       = Some (addEdge_in_render rendered nodes s t
                                 (hook_state (play initialEdges events))).
Proof.
  intros H. unfold Doubles.playEdges, play.
  rewrite mountEdges_exact by (unfold exact_counters in *; lia).
  cbn [option_map]. fold (mount_hook initialEdges).
  destruct (handleEdges_exact events (mount_hook initialEdges)) as [Hplay Hlt].
  - simpl. lia.
  - unfold exact_counters in H. simpl. exact H.
  - split; [exact Hplay|]. intros rendered nodes s t. apply addEdge_exact, Hlt.
Qed.

(** C5, as the hook implements it.  Take any history of the hook,
    renders and calls in any order, in which the numbers of the initial
    identities and the counter stay below 2^53, and call [addEdge] as
    any render made it, [rendered] being the edges of that render.  On a
    proposal that the [validateEdge] of that render rejects, [addEdge]
    returns [false] and leaves the state as it is; on a proposal it
    admits, [addEdge] returns [true] and appends exactly one edge from
    [sourceId] to [targetId] whose identity differs from the identity of
    every edge already there. *)
Theorem addEdge_contract (initialEdges : list DAGEdge) (events : list Event)
    (rendered : list DAGEdge) (nodes : list DAGNode)
    (sourceId targetId : string) :
  exact_counters initialEdges (length events) ->
  let st := hook_state (play initialEdges events) in
  let validation := validateEdge rendered nodes sourceId targetId in
  let '(result, _, st') :=
    addEdge_in_render rendered nodes sourceId targetId st in
  (ev_isValid validation = false -> result = false /\ st' = st)
  /\ (ev_isValid validation = true ->
      result = true
      /\ exists newEdge,
           edges st' = (edges st ++ [newEdge])%list
           /\ edge_source newEdge = sourceId
           /\ edge_target newEdge = targetId
           /\ forall e, In e (edges st) -> edge_id e <> edge_id newEdge).
Proof.
  intros _ st validation. unfold addEdge_in_render. fold validation.
  destruct (ev_isValid validation) eqn:Hv; simpl.
  - split; [discriminate|]. intros _. split; [reflexivity|].
    eexists. split; [reflexivity|]. split; [reflexivity|]. split; [reflexivity|].
    intros e Hin Heq. simpl in Heq.
    pose proof (edge_counter_above_play initialEdges events e (edgeIdCounter st) Hin) as Hk.
    fold st in Hk. rewrite Heq, id_number_make_id in Hk.
    specialize (Hk eq_refl). lia.
  - split; [auto|discriminate].
Qed.

End EdgeRegistry.

Section EdgeRegistryExamples.

Import EdgeStore.

Lemma addEdge_contract_witness :
  let nodes := [mkNode "A" "a" (mkPosition 0 0) false;
                mkNode "B" "b" (mkPosition 0 0) false;
                mkNode "C" "c" (mkPosition 0 0) false] in
  let h := play [mkEdge "edge-7" "A" "B" false] [Call (OpAddEdge nodes "B" "C")] in
  let st := hook_state h in
  let validation := validateEdge (hook_rendered h) nodes "A" "C" in
  let '(result, _, st') := addEdge_in_render (hook_rendered h) nodes "A" "C" st in
  (ev_isValid validation = false -> result = false /\ st' = st)
  /\ (ev_isValid validation = true ->
      result = true
      /\ exists newEdge,
           edges st' = (edges st ++ [newEdge])%list
           /\ edge_source newEdge = "A"
           /\ edge_target newEdge = "C"
           /\ forall e, In e (edges st) -> edge_id e <> edge_id newEdge).
Proof.
  apply (addEdge_contract
           [mkEdge "edge-7" "A" "B" false]
           [Call (OpAddEdge [mkNode "A" "a" (mkPosition 0 0) false;
                             mkNode "B" "b" (mkPosition 0 0) false;
                             mkNode "C" "c" (mkPosition 0 0) false] "B" "C")]
           [mkEdge "edge-7" "A" "B" false]
           [mkNode "A" "a" (mkPosition 0 0) false;
            mkNode "B" "b" (mkPosition 0 0) false;
            mkNode "C" "c" (mkPosition 0 0) false] "A" "C").
  reflexivity.
Defined.

(** C5 as stated fails at 2^53, where the double counter stops: mounted
    on the edge "edge-9007199254740992", the registry admits the edge from
    A to C and gives it that same identity. *)
Lemma addEdge_reissues_identity_at_2_53 :
  let old := mkEdge "edge-9007199254740992" "A" "B" false in
  let nodes := [mkNode "A" "a" (mkPosition 0 0) false;
                mkNode "B" "b" (mkPosition 0 0) false;
                mkNode "C" "c" (mkPosition 0 0) false] in
  let newEdge := mkEdge "edge-9007199254740992" "A" "C" false in
  exists st st',
    Doubles.mountEdges [old] = Some st
    /\ ev_isValid (validateEdge (edges st) nodes "A" "C") = true
    /\ Doubles.addEdge (edges st) nodes "A" "C" st = Some (true, None, st')
    /\ edges st' = (edges st ++ [newEdge])%list
    /\ In old (edges st)
    /\ edge_id old = edge_id newEdge
    /\ ~ (forall e, In e (edges st) -> edge_id e <> edge_id newEdge).
Proof.
  intros old nodes newEdge.
  exists (mkState [old] Ident.MAX_EXACT).
  exists (mkState [old; newEdge] Ident.MAX_EXACT).
  split; [vm_compute; reflexivity|].
  split; [reflexivity|].
  split; [vm_compute; reflexivity|].
  split; [reflexivity|].
  split; [left; reflexivity|].
  split; [reflexivity|].
  intros H. apply (H old); [left; reflexivity|reflexivity].
Qed.

End EdgeRegistryExamples.

(** ** Node registry *)

Section NodeRegistry.

Import NodeStore.

Lemma node_counter_above_mount (initialNodes : list DAGNode) :
  node_counter_above (mount initialNodes).
Proof.
  intros n k Hin Hk. simpl in *.
  assert (k <= Ident.max_id_number "node-" (map node_id initialNodes))%N.
  { eapply max_id_number_ge; [|exact Hk]. apply in_map. assumption. }
  lia.
Qed.

Lemma addNode_created (label : option string) (position : option Position)
    (prompted : option string) (random : R * R) (st st' : State)
    (created : DAGNode) :
  addNode label position prompted random st = (Some created, st') ->
  node_id created = Ident.make_id "node-" (nodeIdCounter st)
  /\ nodes st' = (nodes st ++ [created])%list
  /\ nodeIdCounter st' = (nodeIdCounter st + 1)%N.
Proof.
  unfold addNode. intros H.
  destruct (match label with
            | Some l => if truthy l then Some l else prompted
            | None => prompted
            end) as [name|]; [|discriminate].
  destruct (negb (truthy name) || negb (truthy (trim name))); [discriminate|].
  injection H as <- <-. simpl. auto.
Qed.

Lemma addNode_failed (label : option string) (position : option Position)
    (prompted : option string) (random : R * R) (st st' : State) :
  addNode label position prompted random st = (None, st') -> st' = st.
Proof.
  unfold addNode. intros H.
  destruct (match label with
            | Some l => if truthy l then Some l else prompted
            | None => prompted
            end) as [name|]; [|congruence].
  destruct (negb (truthy name) || negb (truthy (trim name)));
    [congruence|discriminate].
Qed.

Lemma node_counter_above_step (st : State) (op : Op) :
  node_counter_above st -> node_counter_above (step st op).
Proof.
  intros Hinv. destruct op; simpl.
  - destruct (addNode label position prompted random st) as [[created|] st'] eqn:E;
      simpl.
    + apply addNode_created in E as (Hid & Hnodes & Hcnt).
      intros n k Hin Hk. rewrite Hnodes in Hin. rewrite Hcnt.
      apply in_app_or in Hin as [Hin|[<-|[]]].
      * specialize (Hinv n k Hin Hk). lia.
      * unfold node_number in Hk. rewrite Hid, id_number_make_id in Hk.
        injection Hk as <-. lia.
    + apply addNode_failed in E as ->. assumption.
  - intros n k Hin Hk. simpl in Hin. apply filter_In in Hin as [Hin _].
    exact (Hinv n k Hin Hk).
  - intros n k Hin Hk. simpl in Hin. apply filter_In in Hin as [Hin _].
    exact (Hinv n k Hin Hk).
  - intros n k Hin Hk. simpl in Hin. apply in_map_iff in Hin as (n0 & <- & Hin).
    apply (Hinv n0 k Hin). unfold node_number in *.
    destruct (String.eqb (node_id n0) nodeId); exact Hk.
  - unfold updateNodeLabel. destruct (negb (truthy (trim label))); [assumption|].
    intros n k Hin Hk. simpl in Hin. apply in_map_iff in Hin as (n0 & <- & Hin).
    apply (Hinv n0 k Hin). unfold node_number in *.
    destruct (String.eqb (node_id n0) nodeId); exact Hk.
  - intros n k [].
Qed.

Lemma node_counter_above_run (initialNodes : list DAGNode) (ops : list Op) :
  node_counter_above (run initialNodes ops).
Proof.
  unfold run. generalize (node_counter_above_mount initialNodes).
  generalize (mount initialNodes). induction ops as [|op ops IH]; intros st Hst.
  - exact Hst.
  - simpl. apply IH, node_counter_above_step, Hst.
Qed.

(** Every operation but [clearNodes] leaves the counter where it is or
    moves it up. *)
Lemma counter_mono_step (st : State) (op : Op) :
  is_clear op = false -> (nodeIdCounter st <= nodeIdCounter (step st op))%N.
Proof.
  destruct op; simpl; intros Hc; try lia; try discriminate.
  - destruct (addNode label position prompted random st) as [[created|] st'] eqn:E;
      simpl.
    + apply addNode_created in E as (_ & _ & ->). lia.
    + apply addNode_failed in E as ->. lia.
  - unfold updateNodeLabel. destruct (negb (truthy (trim label))); simpl; lia.
Qed.

Lemma counter_mono_steps (ops : list Op) (st : State) :
  forallb (fun op => negb (is_clear op)) ops = true ->
  (nodeIdCounter st <= nodeIdCounter (fold_left step ops st))%N.
Proof.
  revert st. induction ops as [|op ops IH]; intros st Hops; simpl in *; [lia|].
  apply andb_true_iff in Hops as [Hop Hops]. apply negb_true_iff in Hop.
  pose proof (counter_mono_step st op Hop). specialize (IH (step st op) Hops). lia.
Qed.

(** *** The exact counters are the double counters below 2^53 *)

Lemma mountNodes_exact (initialNodes : list DAGNode) :
  exact_counters initialNodes 0 ->
  Doubles.mountNodes initialNodes = Some (mount initialNodes).
Proof.
  unfold exact_counters, Doubles.mountNodes, Ident.js_max_id_number, Ident.js_succ, mount.
  intros H.
  assert (Hle : (Ident.max_id_number "node-" (map node_id initialNodes)
                 <=? Ident.MAX_EXACT)%N = true) by (apply N.leb_le; lia).
  assert (Hlt : (Ident.max_id_number "node-" (map node_id initialNodes)
                 <? Ident.MAX_EXACT)%N = true) by (apply N.ltb_lt; lia).
  rewrite Hle, Hlt. reflexivity.
Qed.

Lemma addNode_exact (label : option string) (position : option Position)
    (prompted : option string) (random : R * R) (st : State) :
  (nodeIdCounter st < Ident.MAX_EXACT)%N ->
  Doubles.addNode label position prompted random st
  = Some (addNode label position prompted random st).
Proof.
  intros H. unfold Doubles.addNode, addNode, Ident.js_succ.
  apply N.ltb_lt in H. rewrite H.
  destruct (match label with
            | Some l => if truthy l then Some l else prompted
            | None => prompted
            end) as [name|]; [|reflexivity].
  destruct (negb (truthy name) || negb (truthy (trim name))); reflexivity.
Qed.

Lemma step_counter (st : State) (op : Op) :
  (1 <= nodeIdCounter st)%N ->
  (1 <= nodeIdCounter (step st op) <= nodeIdCounter st + 1)%N.
Proof.
  intros H. destruct op; simpl; try lia.
  - destruct (addNode label position prompted random st) as [[created|] st'] eqn:E;
      simpl.
    + apply addNode_created in E as (_ & _ & ->). lia.
    + apply addNode_failed in E as ->. lia.
  - unfold updateNodeLabel. destruct (negb (truthy (trim label))); simpl; lia.
Qed.

Lemma stepNodes_exact (ops : list Op) (st : State) :
  (1 <= nodeIdCounter st)%N ->
  (nodeIdCounter st + N.of_nat (length ops) < Ident.MAX_EXACT)%N ->
  fold_left (fun st op => match st with
                          | Some st => Doubles.stepNodes st op
                          | None => None
                          end) ops (Some st)
  = Some (fold_left step ops st)
  /\ (nodeIdCounter (fold_left step ops st) < Ident.MAX_EXACT)%N.
Proof.
  revert st. induction ops as [|op ops IH]; intros st H1 Hb.
  - simpl in *. split; [reflexivity|lia].
  - cbn [fold_left]. pose proof (step_counter st op H1) as Hc.
    assert (Hop : Doubles.stepNodes st op = Some (step st op)).
    { destruct op; try reflexivity.
      unfold Doubles.stepNodes. rewrite addNode_exact; [reflexivity|].
      cbn [length] in Hb. lia. }
    rewrite Hop. apply IH; [lia|]. cbn [length] in Hb. lia.
Qed.

(** Along a run in the range of [exact_counters] the registry with the
    exact counter is the registry with the double counter, and the next
    [addNode] is too. *)
Lemma runNodes_exact (initialNodes : list DAGNode) (ops : list Op) :
  exact_counters initialNodes (length ops) ->
  Doubles.runNodes initialNodes ops = Some (run initialNodes ops)
  /\ forall label position prompted random,
       Doubles.addNode label position prompted random (run initialNodes ops)
       = Some (addNode label position prompted random (run initialNodes ops)).
Proof.
  intros H. unfold Doubles.runNodes, run.
  rewrite mountNodes_exact by (unfold exact_counters in *; lia).
  destruct (stepNodes_exact ops (mount initialNodes)) as [Hrun Hlt].
  - simpl. lia.
  - unfold exact_counters in H. simpl. exact H.
  - split; [exact Hrun|]. intros label position prompted random.
    apply addNode_exact, Hlt.
Qed.

(** C6, as the registry implements it: along every sequence of
    operations in which the numbers of the initial identities and the
    counter stay below 2^53, a newly created node gets a number strictly
    above the number of every identity that was in the registry at any
    earlier point, provided the registry was not cleared in between
    ([clearNodes] restarts the numbering at 1). *)
Theorem addNode_number_above (initialNodes : list DAGNode)
    (before recent : list Op)
    (label : option string) (position : option Position)
    (prompted : option string) (random : R * R)
    (created m : DAGNode) (st' : State) (a : N) :
  exact_counters initialNodes (length (before ++ recent)) ->
  forallb (fun op => negb (is_clear op)) recent = true ->
  addNode label position prompted random (run initialNodes (before ++ recent))
  = (Some created, st') ->
  In m (nodes (run initialNodes before)) ->
  node_number m = Some a ->
  exists b, node_number created = Some b /\ (a < b)%N.
Proof.
  intros _ Hrecent Hadd Hm Ha.
  apply addNode_created in Hadd as (Hid & _ & _).
  exists (nodeIdCounter (run initialNodes (before ++ recent))). split.
  - unfold node_number. rewrite Hid. apply id_number_make_id.
  - pose proof (node_counter_above_run initialNodes before m a Hm Ha) as Hlt.
    unfold run in *. rewrite fold_left_app.
    pose proof (counter_mono_steps recent
                  (fold_left step before (mount initialNodes)) Hrecent) as Hle.
    eapply N.lt_le_trans; [exact Hlt | exact Hle].
Qed.

End NodeRegistry.

Section NodeRegistryExamples.

Import NodeStore.

Lemma addNode_number_above_witness :
  exists b, node_number (mkNode "node-2" "b" (mkPosition 0 0) false) = Some b
            /\ (1 < b)%N.
Proof.
  apply (addNode_number_above []
           [OpAddNode (Some "a") (Some (mkPosition 0 0)) None (0%R, 0%R)]
           [OpRemoveNode "node-1"]
           (Some "b") (Some (mkPosition 0 0)) None (0%R, 0%R)
           (mkNode "node-2" "b" (mkPosition 0 0) false)
           (mkNode "node-1" "a" (mkPosition 0 0) false)
           (mkState [mkNode "node-2" "b" (mkPosition 0 0) false] 3%N)
           1%N).
  - reflexivity.
  - reflexivity.
  - reflexivity.
  - simpl. left. reflexivity.
  - reflexivity.
Defined.

(** C6 as stated fails across [clearNodes]: after two additions and a
    clear, the next node is "node-1" although "node-2" was in the
    registry earlier in the same sequence. *)
Lemma addNode_number_restarts_after_clear :
  let add l := OpAddNode (Some l) (Some (mkPosition 0 0)) None (0%R, 0%R) in
  let before := [add "a"; add "b"] in
  let recent := [OpClearNodes] in
  let m := mkNode "node-2" "b" (mkPosition 0 0) false in
  let created := mkNode "node-1" "c" (mkPosition 0 0) false in
  In m (nodes (run [] before))
  /\ addNode (Some "c") (Some (mkPosition 0 0)) None (0%R, 0%R)
             (run [] (before ++ recent))
     = (Some created, mkState [created] 2%N)
  /\ node_number m = Some 2%N
  /\ node_number created = Some 1%N
  /\ ~ (2 < 1)%N.
Proof.
  simpl. repeat split.
  - right. left. reflexivity.
  - lia.
Qed.

(** With doubles for counters the numbering stops at 2^53: mounted on
    the node "node-9007199254740992", the registry gives the next node
    that same identity. *)
Lemma addNode_reissues_identity_at_2_53 :
  let old := mkNode "node-9007199254740992" "a" (mkPosition 0 0) false in
  let created := mkNode "node-9007199254740992" "b" (mkPosition 0 0) false in
  exists st st',
    Doubles.mountNodes [old] = Some st
    /\ Doubles.addNode (Some "b") (Some (mkPosition 0 0)) None (0%R, 0%R) st
       = Some (Some created, st')
    /\ nodes st' = [old; created]
    /\ node_number old = Some 9007199254740992%N
    /\ node_number created = Some 9007199254740992%N.
Proof.
  intros old created.
  exists (mkState [old] Ident.MAX_EXACT).
  exists (mkState [old; created] Ident.MAX_EXACT).
  split; [vm_compute; reflexivity|].
  split; [vm_compute; reflexivity|].
  split; [reflexivity|].
  split; vm_compute; reflexivity.
Qed.

End NodeRegistryExamples.

(** ** Cycle detection *)

Section DepthFirstSearch.

Import Validation.

Variable nodes : list DAGNode.
Variable edges : list DAGEdge.

Let graph := buildGraph nodes edges.
Let E := edge_rel edges.

(** Every neighbour recorded in the adjacency map comes from an edge. *)
Lemma buildGraph_neighbors (u v : string) (l : list string) :
  graph !! u = Some l -> In v l -> E u v.
Proof.
  unfold graph, buildGraph. revert u v l.
  apply (fold_left_invariant
           (fun g : gmap string (list string) =>
              forall u v l, g !! u = Some l -> In v l -> E u v)).
  - apply (fold_left_invariant
             (fun g : gmap string (list string) =>
                forall u v l, g !! u = Some l -> In v l -> E u v)).
    + intros u v l Hl. rewrite lookup_empty in Hl. discriminate.
    + intros g n _ IH u v l Hl Hv. cbv beta in Hl.
      destruct (decide (node_id n = u)) as [Heq|Hne].
      * rewrite Heq, lookup_insert_eq in Hl. injection Hl as <-. destruct Hv.
      * rewrite lookup_insert_ne in Hl by exact Hne. eapply IH; eassumption.
  - intros g e He IH u v l Hl Hv. cbv beta zeta in Hl.
    destruct (decide (edge_source e = u)) as [Heq|Hne].
    + subst u. rewrite lookup_insert_eq in Hl. injection Hl as <-.
      apply in_app_or in Hv as [Hv|[<-|[]]].
      * destruct (g !! edge_source e) as [l0|] eqn:Hg; simpl in Hv; [|destruct Hv].
        eapply IH; eassumption.
      * exists e. auto.
    + rewrite lookup_insert_ne in Hl by exact Hne. eapply IH; eassumption.
Qed.

Lemma neighbors_edges (u v : string) :
  In v (default [] (graph !! u)) -> E u v.
Proof.
  destruct (graph !! u) as [l|] eqn:Hl; simpl; [|intros []].
  eapply buildGraph_neighbors; eassumption.
Qed.

Lemma stack_pop (x : string) (S : gset string) :
  x ∉ S -> ({[x]} ∪ S) ∖ {[x]} = S.
Proof.
  intros Hx. apply set_eq. intros y.
  rewrite elem_of_difference, elem_of_union, !elem_of_singleton. split.
  - intros [[->|Hy] Hne]; [contradiction Hne; reflexivity|exact Hy].
  - intros Hy. split; [right; exact Hy|]. intros ->. contradiction.
Qed.

Lemma dfs_neighbors_sound
    (rec : string -> DfsState -> option (bool * DfsState))
    (S : gset string) (l : list string) :
  (forall m st r, In m l -> recursionStack st = S -> rec m st = Some r ->
                  dfs_post edges S r) ->
  forall st r, recursionStack st = S -> dfs_neighbors rec l st = Some r ->
               dfs_post edges S r.
Proof.
  induction l as [|m l IH]; intros Hrec st r HS Hr; simpl in Hr.
  - injection Hr as <-. split; simpl; [discriminate|auto].
  - destruct (rec m st) as [[[] st1]|] eqn:Hm; try discriminate.
    + injection Hr as <-. eapply Hrec; [left; reflexivity|exact HS|exact Hm].
    + assert (Hpost : dfs_post edges S (false, st1)).
      { eapply Hrec; [left; reflexivity|exact HS|exact Hm]. }
      eapply IH; [|apply Hpost; reflexivity|exact Hr].
      intros m' st' r' Hin. apply Hrec. right. exact Hin.
Qed.

Lemma dfs_sound (fuel : nat) (n : string) (st : DfsState) (r : bool * DfsState) :
  (forall x, x ∈ recursionStack st -> tc E x n) ->
  dfs fuel graph n st = Some r -> dfs_post edges (recursionStack st) r.
Proof.
  revert n st r. induction fuel as [|fuel IH]; intros n st r Hstack Hr;
    simpl in Hr; [discriminate|].
  case_bool_decide as Hin.
  { injection Hr as <-. split; simpl; [|discriminate].
    intros _. exists n. apply Hstack, Hin. }
  case_bool_decide as Hvis.
  { injection Hr as <-. split; simpl; [discriminate|auto]. }
  set (S1 := {[n]} ∪ recursionStack st) in *.
  set (st1 := mkDfs ({[n]} ∪ visited st) S1) in *.
  assert (Hloop : forall r1, dfs_neighbors (dfs fuel graph)
                               (default [] (graph !! n)) st1 = Some r1 ->
                             dfs_post edges S1 r1).
  { intros r1. apply dfs_neighbors_sound; [|reflexivity].
    intros m st' r' Hm HS Hcall. rewrite <- HS. apply (IH m); [|exact Hcall].
    intros x Hx. rewrite HS in Hx. apply neighbors_edges in Hm.
    apply elem_of_union in Hx as [Hx|Hx].
    - apply elem_of_singleton in Hx as ->. apply tc_once. exact Hm.
    - eapply tc_r; [apply Hstack, Hx | exact Hm]. }
  destruct (dfs_neighbors _ _ st1) as [[[] st2]|] eqn:Hn; try discriminate.
  - injection Hr as <-. destruct (Hloop _ eq_refl) as [Hc _].
    split; simpl; [exact Hc|discriminate].
  - injection Hr as <-. destruct (Hloop _ eq_refl) as [_ Hs].
    split; simpl; [discriminate|]. intros _.
    simpl in Hs. rewrite (Hs eq_refl). unfold S1. apply stack_pop, Hin.
Qed.

Lemma dfs_roots_sound (fuel : nat) (roots : list DAGNode) (st : DfsState) :
  recursionStack st = ∅ ->
  dfs_roots fuel graph roots st = Some true -> has_cycle edges.
Proof.
  revert st. induction roots as [|node roots IH]; intros st Hst Hr; simpl in Hr;
    [discriminate|].
  case_bool_decide as Hvis; [eapply IH; eassumption|].
  destruct (dfs fuel graph (node_id node) st) as [[[] st1]|] eqn:Hd;
    try discriminate.
  - apply dfs_sound in Hd as [Hc _]; [exact (Hc eq_refl)|].
    intros x Hx. rewrite Hst in Hx. apply not_elem_of_empty in Hx. destruct Hx.
  - apply dfs_sound in Hd as [_ Hs].
    + eapply IH; [|exact Hr]. rewrite <- Hst. apply Hs. reflexivity.
    + intros x Hx. rewrite Hst in Hx. apply not_elem_of_empty in Hx. destruct Hx.
Qed.

(** [detectCycle] reports a cycle only when the graph has one. *)
Lemma detectCycle_sound : detectCycle nodes edges = true -> has_cycle edges.
Proof.
  unfold detectCycle, detectCycle_fuel. fold graph.
  destruct (dfs_roots _ graph nodes _) as [[]|] eqn:Hr; try discriminate.
  intros _. eapply dfs_roots_sound; [|exact Hr]. reflexivity.
Qed.


(** *** Termination *)

Let U : gset string := dfs_universe nodes edges.

Lemma size_list_to_set_le (l : list string) :
  size (list_to_set l : gset string) <= length l.
Proof.
  induction l as [|x l IH].
  - rewrite list_to_set_nil, size_empty. simpl. lia.
  - rewrite list_to_set_cons, size_union_alt, size_singleton. simpl.
    assert (size (list_to_set l ∖ {[x]} : gset string) <= size (list_to_set l : gset string)).
    { apply subseteq_size. intros y Hy. apply elem_of_difference in Hy as [Hy _].
      exact Hy. }
    lia.
Qed.

Lemma size_U : size U < dfs_depth_bound nodes edges.
Proof.
  unfold dfs_depth_bound, U, dfs_universe.
  pose proof (size_list_to_set_le (map node_id nodes ++ map edge_target edges)) as H.
  rewrite length_app, !length_map in H. lia.
Qed.

Lemma neighbors_in_U (u v : string) :
  In v (default [] (graph !! u)) -> v ∈ U.
Proof.
  intros Hv. apply neighbors_edges in Hv as (e & He & _ & <-).
  unfold U, dfs_universe. apply elem_of_list_to_set, elem_of_app. right.
  apply list_elem_of_In, in_map, He.
Qed.

Lemma dfs_neighbors_returns
    (rec : string -> DfsState -> option (bool * DfsState))
    (S : gset string) (l : list string) :
  (forall m st, In m l -> recursionStack st = S -> dfs_returns S (rec m st)) ->
  forall st, recursionStack st = S -> dfs_returns S (dfs_neighbors rec l st).
Proof.
  induction l as [|m l IH]; intros Hrec st HS; simpl.
  - exists (false, st). auto.
  - destruct (Hrec m st (or_introl eq_refl) HS) as ([[] st1] & -> & Hs).
    + exists (true, st1). split; [reflexivity|discriminate].
    + apply IH; [|apply Hs; reflexivity].
      intros m' st' Hin. apply Hrec. right. exact Hin.
Qed.

Lemma dfs_returns_enough (fuel : nat) (n : string) (st : DfsState) :
  n ∈ U -> recursionStack st ⊆ U ->
  size U < fuel + size (recursionStack st) ->
  dfs_returns (recursionStack st) (dfs fuel graph n st).
Proof.
  revert n st. induction fuel as [|fuel IH]; intros n st Hn Hsub Hfuel.
  { apply subseteq_size in Hsub. lia. }
  simpl. case_bool_decide as Hin.
  { exists (true, st). split; [reflexivity|discriminate]. }
  case_bool_decide as Hvis.
  { exists (false, st). auto. }
  set (S1 := {[n]} ∪ recursionStack st).
  set (st1 := mkDfs ({[n]} ∪ visited st) S1).
  assert (Hsize : size S1 = Datatypes.S (size (recursionStack st))).
  { unfold S1. rewrite size_union by (apply disjoint_singleton_l; exact Hin).
    rewrite size_singleton. reflexivity. }
  assert (Hsub1 : S1 ⊆ U).
  { unfold S1. apply union_subseteq. split; [apply singleton_subseteq_l, Hn|exact Hsub]. }
  destruct (dfs_neighbors_returns (dfs fuel graph) S1 (default [] (graph !! n)))
    with (st := st1) as ([[] st2] & -> & Hs).
  - intros m st' Hm HS. rewrite <- HS. apply IH.
    + eapply neighbors_in_U, Hm.
    + rewrite HS. exact Hsub1.
    + rewrite HS, Hsize. lia.
  - reflexivity.
  - exists (true, st2). split; [reflexivity|discriminate].
  - exists (false, mkDfs (visited st2) (recursionStack st2 ∖ {[n]})).
    split; [reflexivity|]. intros _. simpl in *. rewrite (Hs eq_refl).
    unfold S1. apply stack_pop, Hin.
Qed.

Lemma dfs_roots_returns (fuel : nat) (roots : list DAGNode) (st : DfsState) :
  size U < fuel ->
  (forall node, In node roots -> node_id node ∈ U) ->
  recursionStack st = ∅ ->
  exists b, dfs_roots fuel graph roots st = Some b.
Proof.
  intros Hfuel. revert st. induction roots as [|node roots IH];
    intros st Hroots Hst; simpl.
  - eauto.
  - case_bool_decide as Hvis.
    { apply IH; [|exact Hst]. intros n' Hn'. apply Hroots. right. exact Hn'. }
    destruct (dfs_returns_enough fuel (node_id node) st) as ([[] st1] & -> & Hs).
    + apply Hroots. left. reflexivity.
    + rewrite Hst. apply empty_subseteq.
    + rewrite Hst, size_empty. lia.
    + eauto.
    + apply IH.
      * intros n' Hn'. apply Hroots. right. exact Hn'.
      * rewrite <- Hst. apply Hs. reflexivity.
Qed.

(** The depth bound built into [detectCycle] is always enough: the
    search returns an answer, which [detectCycle] hands on. *)
Lemma detectCycle_fuel_enough :
  detectCycle_fuel (dfs_depth_bound nodes edges) nodes edges
  = Some (detectCycle nodes edges).
Proof.
  unfold detectCycle.
  destruct (dfs_roots_returns (dfs_depth_bound nodes edges) nodes (mkDfs ∅ ∅))
    as [b Hb].
  - apply size_U.
  - intros node Hnode. unfold U, dfs_universe. apply elem_of_list_to_set, elem_of_app. left.
    apply list_elem_of_In, in_map, Hnode.
  - reflexivity.
  - unfold detectCycle_fuel. fold graph. rewrite Hb. reflexivity.
Qed.

(** More fuel does not change the answer of the search. *)
Lemma dfs_neighbors_mono
    (rec1 rec2 : string -> DfsState -> option (bool * DfsState)) :
  (forall m st r, rec1 m st = Some r -> rec2 m st = Some r) ->
  forall l st r, dfs_neighbors rec1 l st = Some r -> dfs_neighbors rec2 l st = Some r.
Proof.
  intros Hrec. induction l as [|m l IH]; intros st r; simpl; [auto|].
  destruct (rec1 m st) as [[b st1]|] eqn:H1; [|discriminate].
  rewrite (Hrec _ _ _ H1). destruct b; [auto|apply IH].
Qed.

Lemma dfs_fuel_mono (fuel : nat) :
  forall n st r, dfs fuel graph n st = Some r -> dfs (S fuel) graph n st = Some r.
Proof.
  induction fuel as [|fuel IH]; intros n st r H; [discriminate|].
  remember (S fuel) as fuel1 eqn:Hf. cbn [dfs]. rewrite Hf in H. cbn [dfs] in H.
  destruct (bool_decide (n ∈ recursionStack st)); [exact H|].
  destruct (bool_decide (n ∈ visited st)); [exact H|].
  destruct (dfs_neighbors (dfs fuel graph) (default [] (graph !! n)) _)
    as [[b st2]|] eqn:Hloop; [|discriminate].
  rewrite (dfs_neighbors_mono _ _ IH _ _ _ Hloop). exact H.
Qed.

Lemma dfs_roots_mono (fuel : nat) (roots : list DAGNode) :
  forall st b, dfs_roots fuel graph roots st = Some b ->
               dfs_roots (S fuel) graph roots st = Some b.
Proof.
  induction roots as [|node roots IH]; intros st b; cbn [dfs_roots]; [auto|].
  destruct (bool_decide (node_id node ∈ visited st)); [apply IH|].
  destruct (dfs fuel graph (node_id node) st) as [[b' st1]|] eqn:Hd; [|discriminate].
  rewrite (dfs_fuel_mono _ _ _ _ Hd). destruct b'; [auto|apply IH].
Qed.

(** From the depth bound on, every amount of fuel gives the answer of
    [detectCycle]. *)
Lemma detectCycle_fuel_above (fuel : nat) :
  dfs_depth_bound nodes edges <= fuel ->
  detectCycle_fuel fuel nodes edges = Some (detectCycle nodes edges).
Proof.
  induction 1 as [|fuel _ IH]; [apply detectCycle_fuel_enough|].
  unfold detectCycle_fuel in *. fold graph in IH |- *. apply dfs_roots_mono, IH.
Qed.

End DepthFirstSearch.

(** ** Cycle detection: no cycle is missed *)

Section DepthFirstComplete.
Import Validation.

Variable nodes : list DAGNode.
Variable edges : list DAGEdge.

Let graph := buildGraph nodes edges.
Let E := edge_rel edges.

(** Every edge is recorded in the adjacency map. *)
Lemma buildGraph_edges (e : DAGEdge) :
  In e edges -> In (edge_target e) (default [] (graph !! edge_source e)).
Proof.
  unfold graph, buildGraph. revert e.
  apply (fold_left_prefix
           (fun pre (g : gmap string (list string)) =>
              forall e, In e pre ->
                In (edge_target e) (default [] (g !! edge_source e)))).
  - intros e [].
  - intros pre e0 g IH e He. cbv beta zeta. rewrite lookup_insert.
    apply in_app_or in He as [He|[<-|[]]].
    + case_decide as Hs.
      * simpl. apply in_or_app. left. rewrite Hs. apply IH, He.
      * apply IH, He.
    + rewrite decide_True by reflexivity. simpl. apply in_or_app. right. left.
      reflexivity.
Qed.

Lemma neighbors_iff (u v : string) :
  In v (default [] (graph !! u)) <-> E u v.
Proof.
  split; [apply neighbors_edges|].
  intros (e & He & <- & <-). apply buildGraph_edges, He.
Qed.

Lemma ranked_tc (B : gset string) (rank : string -> nat) (M : nat) (u v : string) :
  dfs_ranked edges B rank M -> u ∈ B -> tc E u v -> v ∈ B /\ rank v < rank u.
Proof.
  intros [_ Hr] Hu Htc. induction Htc as [u v Huv|u w v Huw _ IH].
  - apply Hr; assumption.
  - destruct (Hr u w Hu Huw) as [Hw Hlt]. destruct (IH Hw) as [Hv Hlt']. split; [exact Hv|lia].
Qed.


Lemma dfs_neighbors_complete
    (rec : string -> DfsState -> option (bool * DfsState)) (l : list string) :
  (forall m st st', In m l ->
     recursionStack st ⊆ visited st ->
     (exists rank M, dfs_ranked edges (dfs_black st) rank M) ->
     rec m st = Some (false, st') ->
     dfs_finished edges st st' /\ m ∈ dfs_black st') ->
  forall st st',
    recursionStack st ⊆ visited st ->
    (exists rank M, dfs_ranked edges (dfs_black st) rank M) ->
    dfs_neighbors rec l st = Some (false, st') ->
    dfs_finished edges st st' /\ forall m, In m l -> m ∈ dfs_black st'.
Proof.
  induction l as [|m l IH]; intros Hrec st st' Hsub Hrk Hr; simpl in Hr.
  - injection Hr as <-. split; [|intros m []].
    split; [reflexivity|]. split; [reflexivity|]. split; [reflexivity|exact Hrk].
  - destruct (rec m st) as [[[] st1]|] eqn:Hm; try discriminate.
    destruct (Hrec m st st1 (or_introl eq_refl) Hsub Hrk Hm)
      as [(Hs1 & Hv1 & Hb1 & Hrk1) Hm1].
    destruct (IH (fun m' s s' Hin => Hrec m' s s' (or_intror Hin)) st1 st')
      as [(Hs2 & Hv2 & Hb2 & Hrk2) Hall]; [| exact Hrk1 | exact Hr |].
    { rewrite Hs1. etransitivity; [exact Hsub|exact Hv1]. }
    split.
    + split; [congruence|]. split; [etransitivity; eassumption|].
      split; [etransitivity; eassumption|exact Hrk2].
    + intros m' [<-|Hin]; [apply Hb2, Hm1|apply Hall, Hin].
Qed.

Lemma dfs_complete (fuel : nat) (n : string) (st st' : DfsState) :
  recursionStack st ⊆ visited st ->
  (exists rank M, dfs_ranked edges (dfs_black st) rank M) ->
  dfs fuel graph n st = Some (false, st') ->
  dfs_finished edges st st' /\ n ∈ dfs_black st'.
Proof.
  revert n st st'. induction fuel as [|fuel IH]; intros n st st' Hsub Hrk Hr;
    simpl in Hr; [discriminate|].
  case_bool_decide as Hin; [discriminate|].
  case_bool_decide as Hvis.
  { injection Hr as <-. split.
    - split; [reflexivity|]. split; [reflexivity|]. split; [reflexivity|exact Hrk].
    - apply elem_of_difference. auto. }
  set (st1 := mkDfs ({[n]} ∪ visited st) ({[n]} ∪ recursionStack st)) in *.
  assert (Hb1 : dfs_black st1 = dfs_black st).
  { unfold dfs_black, st1. cbn [visited recursionStack]. apply set_eq. intros x.
    rewrite !elem_of_difference, !elem_of_union, !elem_of_singleton. split.
    - intros [[->|Hx] Hn]; [exfalso; apply Hn; left; reflexivity|].
      split; [exact Hx|]. intros Hs. apply Hn. right. exact Hs.
    - intros [Hx Hn]. split; [right; exact Hx|].
      intros [->|Hs]; [apply Hvis, Hx|apply Hn, Hs]. }
  destruct (dfs_neighbors (dfs fuel graph) (default [] (graph !! n)) st1)
    as [[[] st2]|] eqn:Hloop; try discriminate.
  injection Hr as <-.
  destruct (dfs_neighbors_complete (dfs fuel graph) (default [] (graph !! n)))
    with (st := st1) (st' := st2) as [(Hs2 & Hv2 & Hb2 & (rank & M & Hbound & Hrank)) Hall].
  - intros m s s' _. apply IH.
  - unfold st1. cbn [visited recursionStack]. apply union_mono_l, Hsub.
  - rewrite Hb1. exact Hrk.
  - exact Hloop.
  - assert (Hn2 : n ∈ visited st2) by (apply Hv2, elem_of_union_l, elem_of_singleton; reflexivity).
    assert (Hnb2 : n ∉ dfs_black st2).
    { unfold dfs_black. rewrite Hs2. intros Hx. apply elem_of_difference in Hx as [_ Hx].
      apply Hx, elem_of_union_l, elem_of_singleton. reflexivity. }
    assert (Hblack : forall x, x ∈ dfs_black (mkDfs (visited st2) (recursionStack st2 ∖ {[n]}))
                               <-> x = n \/ x ∈ dfs_black st2).
    { intros x. unfold dfs_black. cbn [visited recursionStack]. rewrite Hs2.
      unfold st1. cbn [recursionStack]. rewrite stack_pop by exact Hin.
      rewrite !elem_of_difference, elem_of_union, elem_of_singleton. split.
      - intros [Hx Hs]. destruct (decide (x = n)) as [->|Hne]; [left; reflexivity|].
        right. split; [exact Hx|]. intros [->|Hs']; [apply Hne; reflexivity|apply Hs, Hs'].
      - intros [->|[Hx Hs]]; [split; [exact Hn2|exact Hin]|].
        split; [exact Hx|]. intros Hs'. apply Hs. right. exact Hs'. }
    split; [|apply Hblack; left; reflexivity].
    split; [|split; [|split]].
    + cbn [recursionStack]. rewrite Hs2. unfold st1. cbn [recursionStack].
      apply stack_pop, Hin.
    + cbn [visited]. etransitivity; [|exact Hv2]. unfold st1. cbn [visited].
      apply union_subseteq_r.
    + intros x Hx. apply Hblack. right. apply Hb2. rewrite Hb1. exact Hx.
    + exists (fun x => if decide (x = n) then M else rank x), (S M). split.
      * intros u Hu. apply Hblack in Hu as [->|Hu].
        -- destruct (decide (n = n)) as [_|Hne]; [lia|contradiction Hne; reflexivity].
        -- destruct (decide (u = n)) as [->|_]; [contradiction|].
           specialize (Hbound u Hu). lia.
      * intros u v Hu Huv. apply Hblack in Hu as [->|Hu].
        -- assert (Hv : v ∈ dfs_black st2) by (apply Hall, neighbors_iff, Huv).
           split; [apply Hblack; right; exact Hv|].
           destruct (decide (v = n)) as [->|_]; [contradiction|].
           destruct (decide (n = n)) as [_|Hne]; [|contradiction Hne; reflexivity].
           apply Hbound, Hv.
        -- destruct (Hrank u v Hu Huv) as [Hv Hlt].
           split; [apply Hblack; right; exact Hv|].
           destruct (decide (v = n)) as [->|_]; [contradiction|].
           destruct (decide (u = n)) as [->|_]; [contradiction|]. exact Hlt.
Qed.

Lemma dfs_roots_complete (fuel : nat) (roots : list DAGNode) (st : DfsState) :
  recursionStack st = ∅ ->
  (exists rank M, dfs_ranked edges (dfs_black st) rank M) ->
  dfs_roots fuel graph roots st = Some false ->
  exists B rank M, dfs_ranked edges B rank M
                   /\ visited st ⊆ B
                   /\ forall node, In node roots -> node_id node ∈ B.
Proof.
  revert st. induction roots as [|node roots IH]; intros st Hst Hrk Hr; simpl in Hr.
  - destruct Hrk as (rank & M & Hrk). exists (dfs_black st), rank, M.
    split; [exact Hrk|]. split; [|intros node []].
    unfold dfs_black. rewrite Hst. intros x Hx. apply elem_of_difference.
    split; [exact Hx|apply not_elem_of_empty].
  - case_bool_decide as Hvis.
    + destruct (IH st Hst Hrk Hr) as (B & rank & M & HB & Hsub & Hall).
      exists B, rank, M. split; [exact HB|]. split; [exact Hsub|].
      intros node' [<-|Hin]; [apply Hsub, Hvis|apply Hall, Hin].
    + destruct (dfs fuel graph (node_id node) st) as [[[] st1]|] eqn:Hd;
        try discriminate.
      destruct (dfs_complete fuel (node_id node) st st1)
        as [(Hs1 & Hv1 & Hb1 & Hrk1) Hn1]; [|exact Hrk|exact Hd|].
      { rewrite Hst. apply empty_subseteq. }
      destruct (IH st1) as (B & rank & M & HB & Hsub & Hall);
        [rewrite Hs1; exact Hst|exact Hrk1|exact Hr|].
      exists B, rank, M. split; [exact HB|].
      split; [etransitivity; eassumption|].
      intros node' [<-|Hin]; [|apply Hall, Hin].
      apply Hsub. apply elem_of_difference in Hn1 as [Hn1 _]. exact Hn1.
Qed.

(** [detectCycle] finds every cycle that goes through a node. *)
Lemma detectCycle_complete (v : string) :
  In v (map node_id nodes) -> tc E v v -> detectCycle nodes edges = true.
Proof.
  intros Hv Hcycle. destruct (detectCycle nodes edges) eqn:Hd; [reflexivity|].
  exfalso. pose proof (detectCycle_fuel_enough nodes edges) as Hrun.
  rewrite Hd in Hrun. unfold detectCycle_fuel in Hrun. fold graph in Hrun.
  destruct (dfs_roots_complete (dfs_depth_bound nodes edges) nodes (mkDfs ∅ ∅)) as (B & rank & M & HB & _ & Hall);
    [reflexivity| |exact Hrun|].
  - exists (fun _ => 0%nat), 0%nat. split.
    + intros u Hu. apply elem_of_difference in Hu as [Hu _].
      apply not_elem_of_empty in Hu. destruct Hu.
    + intros u w Hu. apply elem_of_difference in Hu as [Hu _].
      apply not_elem_of_empty in Hu. destruct Hu.
  - apply in_map_iff in Hv as (node & <- & Hnode).
    destruct (ranked_tc B rank M _ _ HB (Hall node Hnode) Hcycle) as [_ Hlt]. lia.
Qed.

End DepthFirstComplete.

(** ** Validator *)

Section Validator.

Import Validation.

Lemma connectedNodes_acc (edges : list DAGEdge) (acc : gset string) (x : string) :
  x ∈ acc \/ (exists e, In e edges /\ (edge_source e = x \/ edge_target e = x)) ->
  x ∈ fold_left (fun s edge => {[edge_target edge]} ∪ ({[edge_source edge]} ∪ s))
                edges acc.
Proof.
  revert acc. induction edges as [|e edges IH]; intros acc H; simpl.
  - destruct H as [H|(e & [] & _)]. exact H.
  - apply IH. destruct H as [H|(e' & [<-|Hin] & He')].
    + left. apply elem_of_union_r, elem_of_union_r, H.
    + left. destruct He' as [<-|<-].
      * apply elem_of_union_r, elem_of_union_l, elem_of_singleton. reflexivity.
      * apply elem_of_union_l, elem_of_singleton. reflexivity.
    + right. exists e'. auto.
Qed.

Lemma filter_nil_iff {A : Type} (f : A -> bool) (l : list A) :
  (forall x, In x l -> f x = false) -> List.filter f l = [].
Proof.
  induction l as [|a l IH]; intros H; simpl; [reflexivity|].
  rewrite (H a (or_introl eq_refl)). apply IH. intros x Hx. apply H. right. exact Hx.
Qed.

(** The verdict is the conjunction the source computes. *)
Lemma validate_isValid (nodes : list DAGNode) (edges : list DAGEdge) :
  isValid (validate nodes edges)
  = (length (errors (validate nodes edges)) =? 0)%nat && (2 <=? length nodes)%nat.
Proof. reflexivity. Qed.

(** A connected graph without self-loop and without cycle passes every
    rule. *)
Lemma validate_valid (nodes : list DAGNode) (edges : list DAGEdge) :
  2 <= length nodes ->
  (forall n, In n nodes ->
     exists e, In e edges /\ (edge_source e = node_id n \/ edge_target e = node_id n)) ->
  (forall e, In e edges -> edge_source e <> edge_target e) ->
  ~ has_cycle edges ->
  validate nodes edges = mkValidation true [].
Proof.
  intros Hlen Hconn Hloops Hacyclic. unfold validate.
  assert (H1 : (length nodes <? 2)%nat = false) by (apply Nat.ltb_ge; exact Hlen).
  assert (H2 : (2 <=? length nodes)%nat = true) by (apply Nat.leb_le; exact Hlen).
  rewrite H1, H2.
  rewrite (filter_nil_iff _ nodes).
  2:{ intros n Hn. apply negb_false_iff, bool_decide_eq_true.
      apply connectedNodes_acc. right. apply Hconn, Hn. }
  rewrite (filter_nil_iff _ edges).
  2:{ intros e He. apply String.eqb_neq, Hloops, He. }
  simpl.
  destruct (detectCycle nodes edges) eqn:Hc.
  { exfalso. apply Hacyclic. eapply detectCycle_sound, Hc. }
  destruct ((0 <? length nodes)%nat && (0 <? length edges)%nat); reflexivity.
Qed.

(** C3: a graph with at least two nodes, every node an endpoint of some
    edge, no self-loop and no cycle is valid with an empty error list; and
    for every graph the verdict is [true] exactly when the error list is
    empty and there are at least two nodes. *)
Theorem validate_acyclic_connected (nodes : list DAGNode) (edges : list DAGEdge) :
  (2 <= length nodes ->
   (forall n, In n nodes ->
      exists e, In e edges /\ (edge_source e = node_id n \/ edge_target e = node_id n)) ->
   (forall e, In e edges -> edge_source e <> edge_target e) ->
   ~ has_cycle edges ->
   validate nodes edges = mkValidation true [])
  /\ (isValid (validate nodes edges) = true
      <-> errors (validate nodes edges) = [] /\ 2 <= length nodes).
Proof.
  split; [apply validate_valid|].
  rewrite validate_isValid, andb_true_iff, Nat.eqb_eq, Nat.leb_le.
  rewrite length_zero_iff_nil. reflexivity.
Qed.

(** A chain over three distinct identities has no cycle. *)
Lemma chain_acyclic (A B C i1 i2 : string) (s1 s2 : bool) :
  A <> B -> B <> C -> A <> C ->
  ~ has_cycle [mkEdge i1 A B s1; mkEdge i2 B C s2].
Proof.
  intros HAB HBC HAC (v & Hv).
  set (rank := fun s : string =>
                 if decide (s = A) then 0%nat
                 else if decide (s = B) then 1%nat else 2%nat).
  assert (HrA : rank A = 0%nat) by (unfold rank; rewrite decide_True; reflexivity).
  assert (HrB : rank B = 1%nat).
  { unfold rank. rewrite decide_False by congruence. rewrite decide_True; reflexivity. }
  assert (HrC : rank C = 2%nat).
  { unfold rank. rewrite !decide_False by congruence. reflexivity. }
  assert (Hrank : forall u w,
             tc (edge_rel [mkEdge i1 A B s1; mkEdge i2 B C s2]) u w ->
             (rank u < rank w)%nat).
  { induction 1 as [u w (e & He & <- & <-)|u w z (e & He & <- & <-) _ IH].
    - destruct He as [<-|[<-|[]]]; simpl; lia.
    - destruct He as [<-|[<-|[]]]; simpl in IH |- *; lia. }
  apply Hrank in Hv. lia.
Qed.

Lemma validate_acyclic_connected_witness :
  validate [mkNode "A" "a" (mkPosition 0 0) false;
            mkNode "B" "b" (mkPosition 0 0) false;
            mkNode "C" "c" (mkPosition 0 0) false]
           [mkEdge "edge-1" "A" "B" false; mkEdge "edge-2" "B" "C" false]
  = mkValidation true [].
Proof.
  apply (proj1 (validate_acyclic_connected _ _)).
  - simpl. lia.
  - intros n [<-|[<-|[<-|[]]]]; simpl.
    + exists (mkEdge "edge-1" "A" "B" false). auto.
    + exists (mkEdge "edge-1" "A" "B" false). auto.
    + exists (mkEdge "edge-2" "B" "C" false). auto.
  - intros e [<-|[<-|[]]]; simpl; discriminate.
  - apply chain_acyclic; discriminate.
Defined.

(** The three-node chain of the end-to-end scenario is valid. *)
Lemma validate_chain (A B C la lb lc i1 i2 : string) (pa pb pc : Position)
    (sa sb sc s1 s2 : bool) :
  A <> B -> B <> C -> A <> C ->
  validate [mkNode A la pa sa; mkNode B lb pb sb; mkNode C lc pc sc]
           [mkEdge i1 A B s1; mkEdge i2 B C s2]
  = mkValidation true [].
Proof.
  intros HAB HBC HAC. apply validate_valid.
  - simpl. lia.
  - intros n [<-|[<-|[<-|[]]]]; simpl.
    + exists (mkEdge i1 A B s1). simpl. auto.
    + exists (mkEdge i1 A B s1). simpl. auto.
    + exists (mkEdge i2 B C s2). simpl. auto.
  - intros e [<-|[<-|[]]]; simpl; assumption.
  - apply chain_acyclic; assumption.
Qed.

(** C2: over nodes that include three distinct identities [A], [B] and
    [C], with exactly the edges [A -> B] and [B -> C] in the registry, the
    admission policy accepts [C -> A] (it only looks for the direct reverse
    edge), [addEdge] appends it, and the validator run on the resulting
    graph reports a cycle. *)
Theorem longer_cycle_admitted_then_reported
    (nodes : list DAGNode) (A B C i1 i2 : string) (s1 s2 : bool) (counter : N) :
  A <> B -> B <> C -> A <> C ->
  In A (map node_id nodes) -> In B (map node_id nodes) -> In C (map node_id nodes) ->
  let st := EdgeStore.mkState [mkEdge i1 A B s1; mkEdge i2 B C s2] counter in
  EdgeStore.validateEdge (EdgeStore.edges st) nodes C A
  = EdgeStore.mkEdgeValidation true None
  /\ (let '(added, _, st') := EdgeStore.addEdge nodes C A st in
      added = true
      /\ (exists i3, EdgeStore.edges st'
                     = [mkEdge i1 A B s1; mkEdge i2 B C s2; mkEdge i3 C A false])
      /\ In "Graph contains cycles" (errors (validate nodes (EdgeStore.edges st')))
      /\ isValid (validate nodes (EdgeStore.edges st')) = false).
Proof.
  intros HAB HBC HAC HA HB HC st.
  assert (Hvalid : EdgeStore.validateEdge (EdgeStore.edges st) nodes C A
                   = EdgeStore.mkEdgeValidation true None).
  { unfold EdgeStore.validateEdge, st. cbn [EdgeStore.edges existsb edge_source edge_target].
    apply existsb_node_id in HA, HC. rewrite HA, HC.
    assert (String.eqb C A = false) as -> by (apply String.eqb_neq; congruence).
    assert (String.eqb A C = false) as -> by (apply String.eqb_neq; congruence).
    assert (String.eqb B C = false) as -> by (apply String.eqb_neq; congruence).
    assert (String.eqb B A = false) as -> by (apply String.eqb_neq; congruence).
    rewrite !String.eqb_refl. reflexivity. }
  split; [exact Hvalid|].
  unfold EdgeStore.addEdge. rewrite Hvalid. cbn [EdgeStore.ev_isValid negb].
  set (i3 := Ident.make_id "edge-" (EdgeStore.edgeIdCounter st)).
  set (edges' := [mkEdge i1 A B s1; mkEdge i2 B C s2; mkEdge i3 C A false]).
  change (EdgeStore.edges
            (EdgeStore.mkState (EdgeStore.edges st ++ [mkEdge i3 C A false])%list
                               (EdgeStore.edgeIdCounter st + 1)%N))
    with edges'.
  assert (Hcycle : detectCycle nodes edges' = true).
  { apply (detectCycle_complete nodes edges' A HA).
    eapply tc_l; [|eapply tc_l; [|apply tc_once]].
    - exists (mkEdge i1 A B s1). simpl. auto.
    - exists (mkEdge i2 B C s2). simpl. auto.
    - exists (mkEdge i3 C A false). simpl. auto. }
  assert (Hnodes : (0 <? length nodes)%nat = true).
  { destruct nodes; [destruct HA|reflexivity]. }
  assert (Herrors : exists errors3,
             errors (validate nodes edges') = (errors3 ++ ["Graph contains cycles"])%list).
  { unfold validate. rewrite Hnodes, Hcycle. cbn [length Nat.ltb Nat.leb andb errors].
    eexists. reflexivity. }
  destruct Herrors as [errors3 Herrors].
  split; [reflexivity|]. split; [exists i3; reflexivity|]. split.
  - rewrite Herrors. apply in_or_app. right. left. reflexivity.
  - rewrite validate_isValid, Herrors, length_app. simpl.
    rewrite Nat.add_1_r. reflexivity.
Qed.

Lemma longer_cycle_admitted_then_reported_witness :
  let nodes := [mkNode "A" "a" (mkPosition 0 0) false;
                mkNode "B" "b" (mkPosition 0 0) false;
                mkNode "C" "c" (mkPosition 0 0) false] in
  let st := EdgeStore.mkState [mkEdge "edge-1" "A" "B" false;
                               mkEdge "edge-2" "B" "C" false] 3%N in
  EdgeStore.validateEdge (EdgeStore.edges st) nodes "C" "A"
  = EdgeStore.mkEdgeValidation true None
  /\ (let '(added, _, st') := EdgeStore.addEdge nodes "C" "A" st in
      added = true
      /\ (exists i3, EdgeStore.edges st'
                     = [mkEdge "edge-1" "A" "B" false; mkEdge "edge-2" "B" "C" false;
                        mkEdge i3 "C" "A" false])
      /\ In "Graph contains cycles" (errors (validate nodes (EdgeStore.edges st')))
      /\ isValid (validate nodes (EdgeStore.edges st')) = false).
Proof.
  intros nodes st.
  apply (longer_cycle_admitted_then_reported nodes "A" "B" "C" "edge-1" "edge-2"
                                             false false 3%N);
    try discriminate; simpl; auto.
Defined.

End Validator.

(** ** Placement search *)

Section Placement.

Import Geometry.

Lemma hasOverlap_false (nodes : list DAGNode) (p : Position) (padding : R) :
  hasOverlap nodes p padding = false
  <-> forall node, In node nodes ->
        doRectsOverlap (testRect p padding) (nodeRect node) = false.
Proof.
  unfold hasOverlap. split.
  - intros H node Hin. destruct (doRectsOverlap _ (nodeRect node)) eqn:E; [|reflexivity].
    assert (existsb (fun node => doRectsOverlap (testRect p padding) (nodeRect node))
                    nodes = true) as Ht.
    { apply existsb_exists. exists node. auto. }
    congruence.
  - intros H. destruct (existsb _ nodes) eqn:E; [|reflexivity].
    apply existsb_exists in E as (node & Hin & Ho). rewrite (H node Hin) in Ho.
    discriminate.
Qed.

(** The loop over the attempts [k, k+1, ..., k+n-1]. *)
Lemma probe_seq (nodes : list DAGNode) (start : Position) (padding : R) (n k : nat) :
  match probe nodes start padding (seq k n) with
  | Some p =>
      exists attempt, k <= attempt < k + n
        /\ p = testPosition start attempt
        /\ hasOverlap nodes (testPosition start attempt) padding = false
        /\ forall earlier, k <= earlier < attempt ->
             hasOverlap nodes (testPosition start earlier) padding = true
  | None =>
      forall attempt, k <= attempt < k + n ->
        hasOverlap nodes (testPosition start attempt) padding = true
  end.
Proof.
  revert k. induction n as [|n IH]; intros k; simpl.
  - intros attempt H. lia.
  - destruct (hasOverlap nodes (testPosition start k) padding) eqn:Hk; simpl.
    + specialize (IH (S k)).
      destruct (probe nodes start padding (seq (S k) n)) as [p|].
      * destruct IH as (attempt & Hrange & Hp & Hfree & Hbefore).
        exists attempt. split; [lia|]. split; [exact Hp|]. split; [exact Hfree|].
        intros earlier He. destruct (Nat.eq_dec earlier k) as [->|Hne];
          [exact Hk | apply Hbefore; lia].
      * intros attempt Ha. destruct (Nat.eq_dec attempt k) as [->|Hne];
          [exact Hk | apply IH; lia].
    + exists k. split; [lia|]. split; [reflexivity|]. split; [exact Hk|].
      intros earlier He. lia.
Qed.

(** Two rectangles lie apart on an axis exactly when [doRectsOverlap]
    answers [false]. *)
Lemma doRectsOverlap_false (r1 r2 : Rect) :
  doRectsOverlap r1 r2 = false
  <-> (rect_x r1 + rect_width r1 < rect_x r2
       \/ rect_x r2 + rect_width r2 < rect_x r1
       \/ rect_y r1 + rect_height r1 < rect_y r2
       \/ rect_y r2 + rect_height r2 < rect_y r1)%R.
Proof.
  unfold doRectsOverlap, JS.ltb. rewrite negb_false_iff.
  destruct (Rlt_dec (rect_x r1 + rect_width r1) (rect_x r2));
    destruct (Rlt_dec (rect_x r2 + rect_width r2) (rect_x r1));
    destruct (Rlt_dec (rect_y r1 + rect_height r1) (rect_y r2));
    destruct (Rlt_dec (rect_y r2 + rect_height r2) (rect_y r1));
    simpl; split; intros H; try reflexivity; try discriminate; tauto.
Qed.

(** C8: the search probes the candidates
    [start + ((attempt mod 10) * 30, (attempt / 10) * 30)] for
    [attempt = 0, ..., 49] in that order, [start] being the preferred
    position or (100, 100), and returns the first candidate that is free:
    its 120 by 60 rectangle, inflated by the padding (20 by default) on
    every side, lies apart from the rectangle of every node, to the left
    of it, to the right of it, above it or below it.  When none of the
    fifty candidates is free it returns [start].  The function is total.
    For a padding of -30 or more the inflated rectangle has sides of
    non-negative length, and lying apart is then the same as having no
    point of the plane in common, sides included. *)
Theorem findNonOverlappingPosition_first_free (nodes : list DAGNode)
    (preferredPosition : option Position) (padding : option R) :
  let start := default (mkPosition 100 100) preferredPosition in
  let pad := default 20%R padding in
  let candidate attempt :=
    mkPosition (pos_x start + INR (attempt mod 10) * 30)
               (pos_y start + INR (attempt / 10) * 30) in
  let inflated p :=
    mkRect (pos_x p - pad) (pos_y p - pad) (120 + pad * 2) (60 + pad * 2) in
  let rect_of node :=
    mkRect (pos_x (node_position node)) (pos_y (node_position node)) 120 60 in
  let apart r1 r2 :=
    (rect_x r1 + rect_width r1 < rect_x r2
     \/ rect_x r2 + rect_width r2 < rect_x r1
     \/ rect_y r1 + rect_height r1 < rect_y r2
     \/ rect_y r2 + rect_height r2 < rect_y r1)%R in
  let covers r (q : Position) :=
    (rect_x r <= pos_x q <= rect_x r + rect_width r
     /\ rect_y r <= pos_y q <= rect_y r + rect_height r)%R in
  let free p :=
    forall node, In node nodes -> apart (inflated p) (rect_of node) in
  ((exists attempt, attempt < 50
      /\ free (candidate attempt)
      /\ (forall earlier, earlier < attempt -> ~ free (candidate earlier))
      /\ findNonOverlappingPosition nodes preferredPosition padding
         = candidate attempt)
   \/ ((forall attempt, attempt < 50 -> ~ free (candidate attempt))
       /\ findNonOverlappingPosition nodes preferredPosition padding = start))
  /\ ((-30 <= pad)%R ->
      forall p node,
        apart (inflated p) (rect_of node)
        <-> ~ exists q, covers (inflated p) q /\ covers (rect_of node) q).
Proof.
  intros start pad candidate inflated rect_of apart covers free.
  assert (Hfree : forall attempt,
             hasOverlap nodes (testPosition start attempt) pad = false
             <-> free (candidate attempt)).
  { intros attempt. rewrite hasOverlap_false. unfold free.
    split; intros H node Hin; specialize (H node Hin);
      apply doRectsOverlap_false; exact H. }
  split.
  - unfold findNonOverlappingPosition. fold start. fold pad.
    pose proof (probe_seq nodes start pad maxAttempts 0) as Hprobe.
    destruct (probe nodes start pad (seq 0 maxAttempts)) as [p|].
    + left. destruct Hprobe as (attempt & Hrange & Hp & Hok & Hbefore).
      exists attempt. unfold maxAttempts in Hrange. repeat split.
      * lia.
      * apply Hfree, Hok.
      * intros earlier He Hf. apply Hfree in Hf.
        rewrite Hbefore in Hf by lia. discriminate.
      * exact Hp.
    + right. split; [|reflexivity].
      intros attempt Ha Hf. apply Hfree in Hf.
      rewrite Hprobe in Hf by (unfold maxAttempts; lia). discriminate.
  - intros Hpad p node. unfold apart, covers, inflated, rect_of. simpl. split.
    + intros Hapart (q & Hq1 & Hq2). lra.
    + intros Hnone.
      destruct (Rlt_dec (pos_x p - pad + (120 + pad * 2))
                        (pos_x (node_position node))) as [|Ha]; [tauto|].
      destruct (Rlt_dec (pos_x (node_position node) + 120) (pos_x p - pad))
        as [|Hb]; [tauto|].
      destruct (Rlt_dec (pos_y p - pad + (60 + pad * 2))
                        (pos_y (node_position node))) as [|Hc]; [tauto|].
      destruct (Rlt_dec (pos_y (node_position node) + 60) (pos_y p - pad))
        as [|Hd]; [tauto|].
      exfalso. apply Hnone.
      exists (mkPosition (Rmax (pos_x p - pad) (pos_x (node_position node)))
                         (Rmax (pos_y p - pad) (pos_y (node_position node)))).
      simpl.
      pose proof (Rmax_l (pos_x p - pad) (pos_x (node_position node))).
      pose proof (Rmax_r (pos_x p - pad) (pos_x (node_position node))).
      pose proof (Rmax_l (pos_y p - pad) (pos_y (node_position node))).
      pose proof (Rmax_r (pos_y p - pad) (pos_y (node_position node))).
      assert (Rmax (pos_x p - pad) (pos_x (node_position node))
              <= pos_x p - pad + (120 + pad * 2))%R by (apply Rmax_lub; lra).
      assert (Rmax (pos_x p - pad) (pos_x (node_position node))
              <= pos_x (node_position node) + 120)%R by (apply Rmax_lub; lra).
      assert (Rmax (pos_y p - pad) (pos_y (node_position node))
              <= pos_y p - pad + (60 + pad * 2))%R by (apply Rmax_lub; lra).
      assert (Rmax (pos_y p - pad) (pos_y (node_position node))
              <= pos_y (node_position node) + 60)%R by (apply Rmax_lub; lra).
      lra.
Qed.

End Placement.

(** ** Circular layout and the overlap resolver *)

Section Circular.

Import Geometry Layout.
Local Open Scope R_scope.

Lemma Math_round_eq (z : Z) (x : R) :
  IZR z - / 2 <= x < IZR z + / 2 -> JS.Math_round x = IZR z.
Proof. intros H. unfold JS.Math_round. f_equal. apply Zfloor_eq. lra. Qed.

Lemma sqrt3_bounds : 1.73 < sqrt 3 < 1.74.
Proof.
  assert (H0 : 0 <= sqrt 3) by apply sqrt_pos.
  assert (H1 : sqrt 3 * sqrt 3 = 3) by (apply sqrt_sqrt; lra).
  split; nra.
Qed.

Lemma cos_sin_top : cos (- PI / 2 + INR 0 * (2 * PI / INR 3)) = 0
                    /\ sin (- PI / 2 + INR 0 * (2 * PI / INR 3)) = -1.
Proof.
  replace (- PI / 2 + INR 0 * (2 * PI / INR 3)) with (- (PI / 2)) by (simpl; lra).
  rewrite cos_neg, sin_neg, cos_PI2, sin_PI2. split; lra.
Qed.

Lemma cos_sin_right : cos (- PI / 2 + INR 1 * (2 * PI / INR 3)) = sqrt 3 / 2
                      /\ sin (- PI / 2 + INR 1 * (2 * PI / INR 3)) = 1 / 2.
Proof.
  replace (- PI / 2 + INR 1 * (2 * PI / INR 3)) with (PI / 6) by (simpl; lra).
  rewrite cos_PI6, sin_PI6. split; reflexivity.
Qed.

Lemma cos_sin_left : cos (- PI / 2 + INR 2 * (2 * PI / INR 3)) = - (sqrt 3 / 2)
                     /\ sin (- PI / 2 + INR 2 * (2 * PI / INR 3)) = 1 / 2.
Proof.
  replace (- PI / 2 + INR 2 * (2 * PI / INR 3)) with (- (PI / 6) + PI) by (simpl; lra).
  rewrite neg_cos, neg_sin, cos_neg, sin_neg, cos_PI6, sin_PI6. split; lra.
Qed.

Lemma circular_three (a b c : DAGNode) :
  calculateCircularLayout [a; b; c] None None
  = [with_position a (mkPosition 340 120);
     with_position b (mkPosition 470 345);
     with_position c (mkPosition 210 345)].
Proof.
  unfold calculateCircularLayout. cbn [default imap fst snd length]. unfold compose.
  assert (Hr : Rmax 150 (INR 3 * 25) = 150) by (apply Rmax_left; simpl; lra).
  destruct cos_sin_top as [-> ->], cos_sin_right as [-> ->], cos_sin_left as [-> ->].
  rewrite Hr. unfold NODE_WIDTH, NODE_HEIGHT.
  pose proof sqrt3_bounds as Hs.
  rewrite (Math_round_eq 340), (Math_round_eq 120), (Math_round_eq 470),
    (Math_round_eq 345), (Math_round_eq 210) by lra.
  reflexivity.
Qed.

Lemma sqrt_ge_170 (x : R) : 28900 <= x -> JS.ltb (sqrt x) (NODE_WIDTH + 50) = false.
Proof.
  intros H. unfold JS.ltb, NODE_WIDTH. destruct (Rlt_dec (sqrt x) (120 + 50)) as [Hlt|]; [|reflexivity].
  exfalso. assert (H170 : sqrt 28900 = 170).
  { replace 28900 with (170 * 170) by lra. apply sqrt_square. lra. }
  pose proof (sqrt_le_1_alt _ _ H) as Hle. lra.
Qed.

Lemma resolve_pairs_far (minDistance : R) (nodes : list DAGNode)
    (pairs : list (nat * nat)) :
  (forall i j n1 n2, In (i, j) pairs ->
     nodes !! i = Some n1 -> nodes !! j = Some n2 ->
     JS.ltb (sqrt ((pos_x (node_position n2) - pos_x (node_position n1))
                   * (pos_x (node_position n2) - pos_x (node_position n1))
                   + (pos_y (node_position n2) - pos_y (node_position n1))
                     * (pos_y (node_position n2) - pos_y (node_position n1))))
            minDistance = false) ->
  fold_left (resolve_pair minDistance) pairs (nodes, false) = (nodes, false).
Proof.
  induction pairs as [|[i j] pairs IH]; intros Hfar; simpl; [reflexivity|].
  assert (Hstep : resolve_pair minDistance (nodes, false) (i, j) = (nodes, false)).
  { unfold resolve_pair. cbn [fst snd].
    destruct (nodes !! i) as [n1|] eqn:Hi; [|reflexivity].
    destruct (nodes !! j) as [n2|] eqn:Hj; [|reflexivity].
    rewrite (Hfar i j n1 n2 (or_introl eq_refl) Hi Hj). reflexivity. }
  rewrite Hstep. apply IH. intros i' j' n1 n2 Hin. apply Hfar. right. exact Hin.
Qed.

(** Nodes that are already far enough apart are left where they are. *)
Lemma resolveNodeOverlaps_far (nodes : list DAGNode) (minSpacing : R) :
  (forall i j n1 n2, In (i, j) (index_pairs (length nodes)) ->
     nodes !! i = Some n1 -> nodes !! j = Some n2 ->
     JS.ltb (sqrt ((pos_x (node_position n2) - pos_x (node_position n1))
                   * (pos_x (node_position n2) - pos_x (node_position n1))
                   + (pos_y (node_position n2) - pos_y (node_position n1))
                     * (pos_y (node_position n2) - pos_y (node_position n1))))
            (NODE_WIDTH + minSpacing) = false) ->
  resolveNodeOverlaps nodes (Some minSpacing) = nodes.
Proof.
  intros Hfar. unfold resolveNodeOverlaps.
  change (default 40 (Some minSpacing)) with minSpacing.
  destruct (length nodes <=? 1)%nat; [reflexivity|].
  cbn [resolve_iterations]. rewrite (resolve_pairs_far _ _ _ Hfar). reflexivity.
Qed.

Lemma resolve_three (a b c : DAGNode) :
  let l := [with_position a (mkPosition 340 120);
            with_position b (mkPosition 470 345);
            with_position c (mkPosition 210 345)] in
  resolveNodeOverlaps l (Some 50) = l.
Proof.
  intros l. apply resolveNodeOverlaps_far.
  intros i j n1 n2 Hin Hi Hj.
  change (index_pairs (length l)) with [(0, 1); (0, 2); (1, 2)]%nat in Hin.
  destruct Hin as [Hin|[Hin|[Hin|[]]]]; injection Hin as <- <-;
    injection Hi as <-; injection Hj as <-; cbn [with_position node_position pos_x pos_y];
    apply sqrt_ge_170; lra.
Qed.
Lemma ltb_true (a b : R) : a < b -> JS.ltb a b = true.
Proof. intros H. unfold JS.ltb. destruct (Rlt_dec a b); [reflexivity|contradiction]. Qed.

(** C1, as the engine implements it: for three nodes [A], [B], [C] with
    distinct identities and the edges [A -> B] and [B -> C] the validator
    answers valid, the strategy chosen is "circular" (three nodes are at
    most four; the tree test is only reached from five nodes on), and the
    layout returned places the nodes at (340, 120), (470, 345) and
    (210, 345): three distinct positions whose node rectangles do not
    overlap. *)
Theorem three_node_chain_layout
    (dagre_layout : list DAGNode -> list DAGEdge -> LayoutOptions ->
                    option (string -> option Position))
    (random : nat -> R) (fuel : nat) (canvasSize : option (R * R))
    (a b c la lb lc i1 i2 : string) (pa pb pc : Position) (sa sb sc s1 s2 : bool) :
  a <> b -> b <> c -> a <> c ->
  let A := mkNode a la pa sa in
  let B := mkNode b lb pb sb in
  let C := mkNode c lc pc sc in
  let nodes := [A; B; C] in
  let edges := [mkEdge i1 a b s1; mkEdge i2 b c s2] in
  let p1 := mkPosition 340 120 in
  let p2 := mkPosition 470 345 in
  let p3 := mkPosition 210 345 in
  Validation.validate nodes edges = mkValidation true []
  /\ getSuggestedLayout nodes edges = circular
  /\ applyBestLayout dagre_layout random fuel nodes edges canvasSize
     = Some [with_position A p1; with_position B p2; with_position C p3]
  /\ (p1 <> p2 /\ p1 <> p3 /\ p2 <> p3)
  /\ (doRectsOverlap (rect_at p1) (rect_at p2) = false
      /\ doRectsOverlap (rect_at p1) (rect_at p3) = false
      /\ doRectsOverlap (rect_at p2) (rect_at p3) = false).
Proof.
  intros Hab Hbc Hac A B C nodes edges p1 p2 p3.
  split; [apply validate_chain; assumption|].
  split; [reflexivity|].
  split.
  { unfold applyBestLayout.
    change (getSuggestedLayout nodes edges) with circular. cbv iota.
    unfold nodes. rewrite circular_three. cbn [option_map].
    f_equal. apply resolve_three. }
  split.
  { repeat split; intros H; injection H; intros; lra. }
  unfold doRectsOverlap, rect_at, p1, p2, p3, NODE_WIDTH, NODE_HEIGHT.
  cbn [rect_x rect_y rect_width rect_height pos_x pos_y].
  repeat split.
  - rewrite (ltb_true (340 + 120) 470) by lra. reflexivity.
  - rewrite (ltb_true (210 + 120) 340) by lra. rewrite orb_true_r. reflexivity.
  - rewrite (ltb_true (210 + 120) 470) by lra. rewrite orb_true_r. reflexivity.
Qed.

Lemma three_node_chain_layout_witness :
  let A := mkNode "A" "A" (mkPosition 0 0) false in
  let B := mkNode "B" "B" (mkPosition 0 0) false in
  let C := mkNode "C" "C" (mkPosition 0 0) false in
  let nodes := [A; B; C] in
  let edges := [mkEdge "edge-1" "A" "B" false; mkEdge "edge-2" "B" "C" false] in
  Validation.validate nodes edges = mkValidation true []
  /\ getSuggestedLayout nodes edges = circular
  /\ applyBestLayout (fun _ _ _ => None) (fun _ => 0) 0 nodes edges None
     = Some [with_position A (mkPosition 340 120);
             with_position B (mkPosition 470 345);
             with_position C (mkPosition 210 345)].
Proof.
  intros A B C nodes edges.
  destruct (three_node_chain_layout (fun _ _ _ => None) (fun _ => 0) 0 None
              "A" "B" "C" "A" "B" "C" "edge-1" "edge-2"
              (mkPosition 0 0) (mkPosition 0 0) (mkPosition 0 0)
              false false false false false)
    as (Hv & Hs & Hl & _); try discriminate.
  split; [exact Hv|]. split; [exact Hs|exact Hl].
Defined.

(** C1 as stated fails: the strategy chosen for the three-node chain is
    not "tree". *)
Lemma three_node_chain_not_tree :
  getSuggestedLayout
    [mkNode "A" "A" (mkPosition 0 0) false;
     mkNode "B" "B" (mkPosition 0 0) false;
     mkNode "C" "C" (mkPosition 0 0) false]
    [mkEdge "edge-1" "A" "B" false; mkEdge "edge-2" "B" "C" false]
  = circular
  /\ circular <> tree.
Proof. split; [reflexivity|discriminate]. Qed.

End Circular.

(** ** Hierarchical layout: the level loop *)

Section LevelLoop.

Import Layout.

Variable nodes : list DAGNode.
Variable edges : list DAGEdge.

Let incoming := incomingEdges nodes edges.
Let outgoing := outgoingEdges nodes edges.
Let U := bfs_universe nodes edges.

Lemma init_adjacency_lookup (ns : list DAGNode) (k : string) (l : list string) :
  init_adjacency ns !! k = Some l -> l = [] /\ In k (map node_id ns).
Proof.
  unfold init_adjacency.
  assert (H : forall m0 : gmap string (list string),
             (forall k l, m0 !! k = Some l -> l = [] /\ In k (map node_id ns)) ->
             forall ns', (forall n, In n ns' -> In n ns) ->
             forall k l, fold_left (fun m node => <[node_id node := []]> m) ns' m0 !! k
                         = Some l -> l = [] /\ In k (map node_id ns)).
  { intros m0 Hm0 ns'. revert m0 Hm0.
    induction ns' as [|n ns' IH]; intros m0 Hm0 Hsub k' l'; simpl.
    - apply Hm0.
    - apply IH.
      + intros k2 l2. destruct (decide (node_id n = k2)) as [Heq|Hne].
        * subst k2. rewrite lookup_insert_eq. intros [= <-]. split; [reflexivity|].
          apply in_map, Hsub. left. reflexivity.
        * rewrite lookup_insert_ne by exact Hne. apply Hm0.
      + intros n' Hn'. apply Hsub. right. exact Hn'. }
  apply (H ∅); [|auto]. intros k' l'. rewrite lookup_empty. discriminate.
Qed.

(** Every array of [outgoingEdges] holds targets of edges leaving its key. *)
Lemma outgoing_targets (u v : string) (l : list string) :
  outgoing !! u = Some l -> In v l ->
  exists e, In e edges /\ edge_source e = u /\ edge_target e = v.
Proof.
  unfold outgoing, outgoingEdges. revert u v l.
  apply (fold_left_invariant
           (fun m : gmap string (list string) =>
              forall u v l, m !! u = Some l -> In v l ->
                exists e, In e edges /\ edge_source e = u /\ edge_target e = v)).
  - intros u v l Hl Hv. apply init_adjacency_lookup in Hl as [-> _]. destruct Hv.
  - intros m e He IH u v l Hl Hv. unfold push_if_present in Hl.
    destruct (m !! edge_source e) as [l0|] eqn:Hm; [|eapply IH; eassumption].
    destruct (decide (edge_source e = u)) as [Heq|Hne].
    + subst u. rewrite lookup_insert_eq in Hl. injection Hl as <-.
      apply in_app_or in Hv as [Hv|[<-|[]]]; [eapply IH; eassumption|].
      exists e. auto.
    + rewrite lookup_insert_ne in Hl by exact Hne. eapply IH; eassumption.
Qed.

Lemma children_in_U (u v : string) :
  In v (default [] (outgoing !! u)) -> v ∈ U.
Proof.
  destruct (outgoing !! u) as [l|] eqn:Hl; simpl; [|intros []].
  intros Hv. destruct (outgoing_targets u v l Hl Hv) as (e & He & _ & <-).
  unfold U, bfs_universe. apply elem_of_list_to_set, elem_of_app. right.
  apply list_elem_of_In, in_map, He.
Qed.

Lemma mark_visited (l : list string) (s : gset string) (x : string) :
  x ∈ fold_left (fun s nodeId => {[nodeId]} ∪ s) l s <-> x ∈ l \/ x ∈ s.
Proof.
  revert s. induction l as [|y l IH]; intros s; cbn [fold_left].
  - rewrite elem_of_nil. tauto.
  - rewrite IH, elem_of_union, elem_of_singleton, elem_of_cons. tauto.
Qed.

Lemma mark_level (l : list string) (k : nat) (m : gmap string nat) (x : string) :
  fold_left (fun m nodeId => <[nodeId := k]> m) l m !! x
  = if bool_decide (x ∈ l) then Some k else m !! x.
Proof.
  revert m. induction l as [|y l IH]; intros m; cbn [fold_left].
  - rewrite bool_decide_eq_false_2 by apply not_elem_of_nil. reflexivity.
  - rewrite IH. destruct (decide (x ∈ l)) as [Hin|Hnin].
    + rewrite !bool_decide_eq_true_2; [reflexivity| |exact Hin].
      apply elem_of_cons. right. exact Hin.
    + rewrite (bool_decide_eq_false_2 (x ∈ l)) by exact Hnin.
      destruct (decide (y = x)) as [->|Hne].
      * rewrite lookup_insert_eq, bool_decide_eq_true_2; [reflexivity|].
        apply elem_of_cons. left. reflexivity.
      * rewrite lookup_insert_ne by exact Hne.
        rewrite bool_decide_eq_false_2; [reflexivity|].
        rewrite elem_of_cons. intros [->|H]; [apply Hne; reflexivity|apply Hnin, H].
Qed.

Lemma ordered_add_Forall (P : string -> Prop) (s : list string) (x : string) :
  Forall P s -> P x -> Forall P (ordered_add s x).
Proof.
  intros Hs Hx. unfold ordered_add. case_bool_decide; [exact Hs|].
  apply Forall_app. split; [exact Hs|]. constructor; [exact Hx|constructor].
Qed.

(** The next level only holds children that are not marked yet. *)
Lemma nextLevel_fresh (st : BfsState) :
  Forall (fun x => x ∈ U /\ x ∉ visited (bfs_step incoming outgoing st))
         (currentLevel (bfs_step incoming outgoing st)).
Proof.
  unfold bfs_step. cbn [currentLevel visited].
  set (visited' := fold_left (fun s nodeId => {[nodeId]} ∪ s) (currentLevel st)
                             (visited st)).
  apply (fold_left_invariant
           (Forall (fun x => x ∈ U /\ x ∉ visited'))); [constructor|].
  intros next nodeId _ Hnext. cbv beta zeta.
  apply (fold_left_invariant
           (Forall (fun x => x ∈ U /\ x ∉ visited'))); [exact Hnext|].
  intros next' childId Hchild Hnext'. cbv beta zeta.
  case_bool_decide as Hvis; cbn [negb]; [exact Hnext'|].
  destruct (forallb _ _); [|exact Hnext'].
  apply ordered_add_Forall; [exact Hnext'|].
  split; [eapply children_in_U, Hchild | exact Hvis].
Qed.

Lemma bfs_step_inv (st : BfsState) :
  bfs_inv U st -> bfs_inv U (bfs_step incoming outgoing st).
Proof.
  intros (Hvis & Hcur & Hidx & Hlev).
  pose proof (nextLevel_fresh st) as Hnext.
  split; [|split; [|split]].
  - unfold bfs_step. cbn [visited]. intros x Hx. apply mark_visited in Hx as [Hx|Hx].
    + apply Hcur, Hx.
    + apply Hvis, Hx.
  - intros x Hx. rewrite Forall_forall in Hnext. apply Hnext. exact Hx.
  - unfold bfs_step. cbn [levelIndex levels]. rewrite length_app. simpl. lia.
  - unfold bfs_step. cbn [nodeToLevel visited levelIndex]. intros id l Hl.
    rewrite mark_level in Hl. rewrite mark_visited.
    case_bool_decide as Hin.
    + injection Hl as <-. split; [left; exact Hin|lia].
    + destruct (Hlev id l Hl) as [Hv Hlt]. split; [right; exact Hv|lia].
Qed.

Lemma bfs_step_progress (st : BfsState) :
  bfs_inv U st -> currentLevel st <> [] ->
  size (U ∖ visited (bfs_step incoming outgoing st)) < size (U ∖ visited st).
Proof.
  intros (Hvis & Hcur & _ & _) Hne.
  destruct (currentLevel st) as [|x rest] eqn:Hc; [contradiction|].
  destruct (Hcur x) as [HxU Hxv]; [apply elem_of_cons; left; reflexivity|].
  apply subset_size. split.
  - intros y Hy. apply elem_of_difference in Hy as [HyU Hyv].
    apply elem_of_difference. split; [exact HyU|].
    intros Hyv'. apply Hyv. unfold bfs_step. cbn [visited]. apply mark_visited.
    right. exact Hyv'.
  - intros Hsub. assert (Hx : x ∈ U ∖ visited st) by (apply elem_of_difference; auto).
    apply Hsub in Hx. apply elem_of_difference in Hx as [_ Hx]. apply Hx.
    unfold bfs_step. cbn [visited]. apply mark_visited. left. rewrite Hc.
    apply elem_of_cons. left. reflexivity.
Qed.

(** The loop ends within the fuel, with the invariant and an empty level. *)
Lemma bfs_loop_returns (fuel : nat) (st : BfsState) :
  bfs_inv U st -> size (U ∖ visited st) < fuel ->
  exists st', bfs_loop fuel incoming outgoing st = Some st'
              /\ bfs_inv U st' /\ currentLevel st' = [].
Proof.
  revert st. induction fuel as [|fuel IH]; intros st Hinv Hfuel; [lia|].
  simpl. destruct (currentLevel st) as [|x rest] eqn:Hc.
  - exists st. auto.
  - apply IH.
    + apply bfs_step_inv, Hinv.
    + pose proof (bfs_step_progress st Hinv) as Hp. rewrite Hc in Hp.
      specialize (Hp ltac:(discriminate)). lia.
Qed.

Lemma bfs_init_inv :
  bfs_inv U (mkBfs [] ∅ ∅ (map node_id (rootNodes incoming nodes)) 0).
Proof.
  split; [|split; [|split]]; cbn.
  - apply empty_subseteq.
  - intros x Hx. split; [|apply not_elem_of_empty].
    unfold U, bfs_universe. apply elem_of_list_to_set, elem_of_app. left.
    apply list_elem_of_In. apply list_elem_of_In in Hx.
    apply in_map_iff in Hx as (n & <- & Hn). apply filter_In in Hn as [Hn _].
    apply in_map, Hn.
  - reflexivity.
  - intros id l Hl. rewrite lookup_empty in Hl. discriminate.
Qed.

(** The bound built into [assign_levels] is always enough. *)
Lemma bfs_loop_enough :
  exists st, level_loop nodes edges = Some st
             /\ bfs_inv U st /\ currentLevel st = [].
Proof.
  unfold level_loop. apply bfs_loop_returns; [apply bfs_init_inv|].
  cbn [visited]. unfold bfs_bound, U, bfs_universe.
  pose proof (size_list_to_set_le (map node_id nodes ++ map edge_target edges)) as H.
  rewrite length_app, !length_map in H.
  assert (size (list_to_set (map node_id nodes ++ map edge_target edges) ∖ ∅ : gset string)
          <= size (list_to_set (map node_id nodes ++ map edge_target edges) : gset string)).
  { apply subseteq_size. intros x Hx. apply elem_of_difference in Hx as [Hx _]. exact Hx. }
  lia.
Qed.


(** More fuel does not change the state the loop ends in. *)
Lemma bfs_loop_mono (fuel : nat) (inc out : gmap string (list string)) :
  forall st st', bfs_loop fuel inc out st = Some st' ->
                 bfs_loop (S fuel) inc out st = Some st'.
Proof.
  induction fuel as [|fuel IH]; intros st st' H; [discriminate|].
  remember (S fuel) as fuel1 eqn:Hf. cbn [bfs_loop]. rewrite Hf in H.
  cbn [bfs_loop] in H. destruct (currentLevel st); [exact H|]. apply IH, H.
Qed.

Lemma mark_level_nodes (l : list DAGNode) (k : nat) (m : gmap string nat) :
  fold_left (fun m node => <[node_id node := k]> m) l m
  = fold_left (fun m nodeId => <[nodeId := k]> m) (map node_id l) m.
Proof.
  revert m. induction l as [|n l IH]; intros m; simpl; [reflexivity|]. apply IH.
Qed.

(** C7, as the engine implements it: when the graph has at least one
    in-degree-zero node, the level loop ends; the nodes it reached have
    levels below the number of levels it built; and every node it never
    reached is put in one further level, whose index is that number: the
    level holds exactly the unreached nodes, and the row of each of them is
    the row of that level. *)
Theorem hierarchical_trailing_level (levelSpacing nodeSpacing : R) :
  rootNodes (incomingEdges nodes edges) nodes <> [] ->
  exists st,
    level_loop nodes edges = Some st
    /\ calculateHierarchicalLayout nodes edges (Some levelSpacing) (Some nodeSpacing)
       = map (place_in_level (add_unvisited nodes st) levelSpacing nodeSpacing) nodes
    /\ length (levels st) = levelIndex st
    /\ (forall id l, nodeToLevel st !! id = Some l ->
          id ∈ visited st /\ (l < levelIndex st)%nat)
    /\ forall node, In node nodes -> node_id node ∉ visited st ->
         let st' := add_unvisited nodes st in
         let unreached :=
           List.filter (fun n => negb (bool_decide (node_id n ∈ visited st))) nodes in
         nodeToLevel st' !! node_id node = Some (levelIndex st)
         /\ levels st' !! levelIndex st = Some (map node_id unreached)
         /\ length (levels st') = S (levelIndex st)
         /\ In node unreached
         /\ pos_y (node_position (place_in_level st' levelSpacing nodeSpacing node))
            = JS.Math_round (INR (levelIndex st) * levelSpacing + 80).
Proof.
  intros Hroots.
  destruct bfs_loop_enough as (st & Hloop & (Hvis & Hcur & Hidx & Hlev) & Hempty).
  exists st. split; [exact Hloop|]. split; [|split; [auto|split; [exact Hlev|]]].
  - unfold calculateHierarchicalLayout, assign_levels. rewrite Hloop.
    destruct nodes as [|n0 ns] eqn:Hn; [contradiction Hroots; reflexivity|].
    destruct (rootNodes _ (n0 :: ns)); [contradiction Hroots; reflexivity|].
    reflexivity.
  - intros node Hnode Hunv st' unreached.
    assert (Hin : In node unreached).
    { apply filter_In. split; [exact Hnode|].
      apply negb_true_iff, bool_decide_eq_false. exact Hunv. }
    assert (Hst' : st' = mkBfs (levels st ++ [map node_id unreached])%list
                               (visited st)
                               (fold_left (fun m n => <[node_id n := levelIndex st]> m)
                                          unreached (nodeToLevel st))
                               (currentLevel st) (levelIndex st)).
    { unfold st', add_unvisited. fold unreached.
      destruct unreached; [destruct Hin|reflexivity]. }
    assert (Hlevel : nodeToLevel st' !! node_id node = Some (levelIndex st)).
    { rewrite Hst'. cbn [nodeToLevel]. rewrite mark_level_nodes, mark_level.
      rewrite bool_decide_eq_true_2; [reflexivity|].
      apply list_elem_of_In, in_map, Hin. }
    split; [exact Hlevel|]. split; [|split; [|split; [exact Hin|]]].
    + rewrite Hst'. cbn [levels]. rewrite Hidx. apply list_lookup_middle. reflexivity.
    + rewrite Hst'. cbn [levels]. rewrite length_app, Hidx. simpl. lia.
    + unfold place_in_level. rewrite Hlevel. reflexivity.
Qed.

End LevelLoop.

Section LevelExamples.
Import Geometry Layout.
Local Open Scope R_scope.

Lemma Math_floor_eq (z : Z) (x : R) :
  IZR z <= x < IZR z + 1 -> JS.Math_floor x = IZR z.
Proof. intros H. unfold JS.Math_floor. f_equal. apply Zfloor_eq. exact H. Qed.

Lemma Math_ceil_eq (z : Z) (x : R) :
  IZR z - 1 < x <= IZR z -> JS.Math_ceil x = IZR z.
Proof. intros H. unfold JS.Math_ceil. f_equal. apply Zceil_eq. exact H. Qed.

Lemma rem_eq (z : Z) (a b : R) :
  0 <= a / b -> IZR z <= a / b < IZR z + 1 -> JS.rem a b = a - b * IZR z.
Proof.
  intros H0 Hz. unfold JS.rem, JS.trunc.
  destruct (Rle_dec 0 (a / b)); [|contradiction].
  rewrite (Zfloor_eq z) by exact Hz. reflexivity.
Qed.

(** C7 as stated fails on a graph without in-degree-zero node: for the
    cycle [A -> B -> C -> A] no node is reached, and the three nodes are not
    put in one level but on a grid of two rows. *)
Lemma hierarchical_rootless_is_grid :
  let A := mkNode "A" "A" (mkPosition 0 0) false in
  let B := mkNode "B" "B" (mkPosition 0 0) false in
  let C := mkNode "C" "C" (mkPosition 0 0) false in
  let nodes := [A; B; C] in
  let edges := [mkEdge "edge-1" "A" "B" false; mkEdge "edge-2" "B" "C" false;
                mkEdge "edge-3" "C" "A" false] in
  rootNodes (incomingEdges nodes edges) nodes = []
  /\ calculateHierarchicalLayout nodes edges None None
     = [with_position A (mkPosition 100 100);
        with_position B (mkPosition 300 100);
        with_position C (mkPosition 100 240)]
  /\ (100 : R) <> 240.
Proof.
  intros A B C nodes edges.
  assert (Hroots : rootNodes (incomingEdges nodes edges) nodes = [])
    by (vm_compute; reflexivity).
  split; [exact Hroots|]. split; [|lra].
  unfold calculateHierarchicalLayout. rewrite Hroots.
  unfold calculateGridLayout, nodes. cbn [length Nat.eqb default imap fst snd]. unfold compose.
  pose proof sqrt3_bounds as Hs.
  replace (INR 3) with 3 by (simpl; lra).
  rewrite (Math_ceil_eq 2 (sqrt 3)) by lra.
  assert (Hor : JS.or_else 2 (JS.Math_ceil (sqrt (3 * 1.2))) = 2).
  { unfold JS.or_else. destruct (Req_dec_T 2 0); [lra|reflexivity]. }
  rewrite Hor. rewrite (Rmin_left 2 3) by lra.
  replace (INR 0) with 0 by reflexivity.
  replace (INR 1) with 1 by reflexivity.
  replace (INR 2) with 2 by (simpl; lra).
  rewrite (rem_eq 0 0 2), (rem_eq 0 1 2), (rem_eq 1 2 2) by lra.
  rewrite (Math_floor_eq 0 (0 / 2)), (Math_floor_eq 0 (1 / 2)), (Math_floor_eq 1 (2 / 2))
    by lra.
  unfold with_position. repeat f_equal; lra.
Qed.

Lemma hierarchical_trailing_level_witness :
  let A := mkNode "A" "A" (mkPosition 0 0) false in
  let B := mkNode "B" "B" (mkPosition 0 0) false in
  let C := mkNode "C" "C" (mkPosition 0 0) false in
  let nodes := [A; B; C] in
  let edges := [mkEdge "edge-1" "B" "C" false; mkEdge "edge-2" "C" "B" false] in
  exists st,
    level_loop nodes edges = Some st
    /\ levelIndex st = 1%nat
    /\ nodeToLevel (add_unvisited nodes st) !! "B" = Some 1%nat
    /\ nodeToLevel (add_unvisited nodes st) !! "C" = Some 1%nat
    /\ levels (add_unvisited nodes st) = [["A"]; ["B"; "C"]].
Proof.
  intros A B C nodes edges.
  assert (Hroots : rootNodes (incomingEdges nodes edges) nodes <> [])
    by (vm_compute; discriminate).
  destruct (hierarchical_trailing_level nodes edges 180 160 Hroots)
    as (st & Hloop & _ & _ & _ & Hunreached).
  exists st. split; [exact Hloop|].
  assert (Hst : level_loop nodes edges
                = Some (mkBfs [["A"]] {["A"]} {["A" := 0%nat]} [] 1))
    by (vm_compute; reflexivity).
  rewrite Hloop in Hst. injection Hst as ->.
  split; [reflexivity|].
  split; [|split].
  - apply (Hunreached B); [right; left; reflexivity|].
    cbn [visited node_id B]. intros H. apply elem_of_singleton in H. discriminate H.
  - apply (Hunreached C); [right; right; left; reflexivity|].
    cbn [visited node_id C]. intros H. apply elem_of_singleton in H. discriminate H.
  - vm_compute. reflexivity.
Defined.
End LevelExamples.

(** ** Layouts only move nodes *)

Section Frames.
Import Geometry Layout.

Lemma same_up_to_position_frames (nodes nodes' : list DAGNode) :
  same_up_to_position nodes nodes' <-> map frame_of nodes' = map frame_of nodes.
Proof.
  unfold same_up_to_position. split.
  - induction 1 as [|n n' l l' (Hi & Hl & Hs) _ IH]; simpl; [reflexivity|].
    rewrite IH. unfold frame_of. rewrite Hi, Hl, Hs. reflexivity.
  - revert nodes'. induction nodes as [|n l IH]; intros [|n' l'] H; simpl in H;
      try discriminate; constructor.
    + unfold frame_of in H. injection H as Hi Hl Hs _. auto.
    + apply IH. injection H as _ _ _ H. exact H.
Qed.

Lemma frame_with_position (n : DAGNode) (p : Position) :
  frame_of (with_position n p) = frame_of n.
Proof. reflexivity. Qed.

Lemma frames_map (f : DAGNode -> DAGNode) (l : list DAGNode) :
  (forall n, frame_of (f n) = frame_of n) ->
  map frame_of (map f l) = map frame_of l.
Proof.
  intros Hf. rewrite map_map. apply map_ext. exact Hf.
Qed.

Lemma frames_imap (f : nat -> DAGNode -> DAGNode) (l : list DAGNode) :
  (forall i n, frame_of (f i n) = frame_of n) ->
  map frame_of (imap f l) = map frame_of l.
Proof.
  revert f. induction l as [|n l IH]; intros f Hf; simpl; [reflexivity|].
  rewrite Hf. f_equal. apply IH. intros i n'. apply Hf.
Qed.

Lemma frames_insert (l : list DAGNode) (i : nat) (n : DAGNode) (p : Position) :
  l !! i = Some n -> map frame_of (<[i := with_position n p]> l) = map frame_of l.
Proof.
  intros Hi. change (map frame_of) with (fmap (M:=list) frame_of).
  rewrite list_fmap_insert, frame_with_position. apply list_insert_id.
  rewrite list_lookup_fmap, Hi. reflexivity.
Qed.

Lemma frames_grid (nodes : list DAGNode) (columns : option R) (spacing : option (R * R)) :
  map frame_of (calculateGridLayout nodes columns spacing) = map frame_of nodes.
Proof.
  unfold calculateGridLayout. destruct (length nodes =? 0)%nat; [reflexivity|].
  apply frames_imap. reflexivity.
Qed.

Lemma frames_circular (nodes : list DAGNode) (radius : option R)
    (center : option (R * R)) :
  map frame_of (calculateCircularLayout nodes radius center) = map frame_of nodes.
Proof.
  unfold calculateCircularLayout. destruct nodes as [|a [|b l]]; try reflexivity.
  apply frames_imap. reflexivity.
Qed.

Lemma frames_hierarchical (nodes : list DAGNode) (edges : list DAGEdge)
    (levelSpacing nodeSpacing : option R) :
  map frame_of (calculateHierarchicalLayout nodes edges levelSpacing nodeSpacing)
  = map frame_of nodes.
Proof.
  unfold calculateHierarchicalLayout. destruct (length nodes =? 0)%nat; [reflexivity|].
  destruct (length (rootNodes _ nodes) =? 0)%nat; [apply frames_grid|].
  destruct (assign_levels nodes edges); [|reflexivity].
  apply frames_map. reflexivity.
Qed.

Lemma frames_tree (fuel : nat) (nodes out : list DAGNode) (edges : list DAGEdge)
    (dir : TreeDirection) :
  calculateTreeLayout fuel nodes edges dir = Some out ->
  map frame_of out = map frame_of nodes.
Proof.
  unfold calculateTreeLayout. destruct (length nodes =? 0)%nat; [intros [= <-]; reflexivity|].
  destruct (rootNodes _ nodes) as [|rootNode ?].
  - intros [= <-]. apply frames_hierarchical.
  - destruct (calculateSubtreePositions _ _ _ _ _ _ _ _) as [[w positions]|];
      [|discriminate].
    intros [= <-]. apply frames_map. reflexivity.
Qed.

Lemma frames_force (random : nat -> R) (nodes : list DAGNode) (edges : list DAGEdge)
    (iterations : option nat) (canvasSize : option (R * R)) :
  map frame_of (calculateForceLayout random nodes edges iterations canvasSize)
  = map frame_of nodes.
Proof.
  unfold calculateForceLayout. destruct (length nodes =? 0)%nat; [reflexivity|].
  apply frames_map. reflexivity.
Qed.

Lemma frames_dagre
    (dagre_layout : list DAGNode -> list DAGEdge -> LayoutOptions ->
                    option (string -> option Position))
    (nodes : list DAGNode) (edges : list DAGEdge) (options : PartialLayoutOptions) :
  map frame_of (applyDagreLayout dagre_layout nodes edges options) = map frame_of nodes.
Proof.
  unfold applyDagreLayout. destruct (length nodes =? 0)%nat; [reflexivity|].
  destruct (dagre_layout nodes edges (merge_options options)) as [graph_node|].
  - apply frames_map. intros n. destruct (graph_node (node_id n)); reflexivity.
  - apply frames_hierarchical.
Qed.

Lemma frames_resolve_pair (minDistance : R) (st : list DAGNode * bool) (ij : nat * nat) :
  map frame_of (resolve_pair minDistance st ij).1 = map frame_of st.1.
Proof.
  unfold resolve_pair.
  destruct (st.1 !! ij.1) as [node1|] eqn:H1; [|reflexivity].
  destruct (st.1 !! ij.2) as [node2|] eqn:H2; [|reflexivity].
  destruct (JS.ltb _ minDistance); [|reflexivity].
  cbn [fst]. destruct (decide (ij.1 = ij.2)) as [Heq|Hne].
  - rewrite <- Heq. rewrite list_insert_insert_eq. rewrite Heq at 1.
    apply frames_insert. exact H2.
  - rewrite frames_insert; [apply frames_insert; exact H1|].
    rewrite list_lookup_insert_ne by exact Hne. exact H2.
Qed.

Lemma frames_resolve_pairs (minDistance : R) (pairs : list (nat * nat))
    (st : list DAGNode * bool) :
  map frame_of (fold_left (resolve_pair minDistance) pairs st).1 = map frame_of st.1.
Proof.
  revert st. induction pairs as [|ij pairs IH]; intros st; simpl; [reflexivity|].
  rewrite IH. apply frames_resolve_pair.
Qed.

Lemma frames_resolve_iterations (remaining : nat) (minDistance : R)
    (nodes : list DAGNode) :
  map frame_of (resolve_iterations remaining minDistance nodes) = map frame_of nodes.
Proof.
  revert nodes. induction remaining as [|remaining IH]; intros nodes; simpl;
    [reflexivity|].
  pose proof (frames_resolve_pairs minDistance (index_pairs (length nodes))
                                   (nodes, false)) as Hp.
  destruct (fold_left _ _ (nodes, false)) as [resolved hasOverlap]. cbn [fst] in Hp.
  destruct (negb hasOverlap); [exact Hp|]. rewrite IH. exact Hp.
Qed.

Lemma frames_resolve (nodes : list DAGNode) (minSpacing : option R) :
  map frame_of (resolveNodeOverlaps nodes minSpacing) = map frame_of nodes.
Proof.
  unfold resolveNodeOverlaps. destruct (length nodes <=? 1)%nat; [reflexivity|].
  apply frames_resolve_iterations.
Qed.

(** Whatever [applyBestLayout] returns only differs from its input in
    the positions. *)
Lemma frames_applyBestLayout
    (dagre_layout : list DAGNode -> list DAGEdge -> LayoutOptions ->
                    option (string -> option Position))
    (random : nat -> R) (fuel : nat) (nodes out : list DAGNode)
    (edges : list DAGEdge) (canvasSize : option (R * R)) :
  applyBestLayout dagre_layout random fuel nodes edges canvasSize = Some out ->
  map frame_of out = map frame_of nodes.
Proof.
  unfold applyBestLayout.
  destruct (getSuggestedLayout nodes edges); cbn [option_map];
    try (intros [= <-]; rewrite frames_resolve).
  - apply frames_hierarchical.
  - apply frames_dagre.
  - apply frames_circular.
  - apply frames_grid.
  - destruct (calculateTreeLayout fuel nodes edges vertical) as [l|] eqn:Ht;
      [|discriminate].
    cbn [option_map]. intros [= <-]. rewrite frames_resolve.
    eapply frames_tree, Ht.
  - apply frames_force.
Qed.

End Frames.

(** ** Strategy selection: what "tree" implies *)

Section TreeSelection.
Import Geometry Layout.

Lemma indegree_snoc (pre : list DAGEdge) (e : DAGEdge) (k : string) :
  indegree (pre ++ [e])%list k
  = (indegree pre k + if String.eqb (edge_target e) k then 1 else 0)%nat.
Proof.
  unfold indegree. rewrite List.filter_app, length_app. simpl.
  destruct (String.eqb (edge_target e) k); reflexivity.
Qed.

Lemma indegree_cons (e : DAGEdge) (es : list DAGEdge) (k : string) :
  indegree (e :: es) k
  = ((if String.eqb (edge_target e) k then 1 else 0) + indegree es k)%nat.
Proof.
  unfold indegree. simpl. destruct (String.eqb (edge_target e) k); reflexivity.
Qed.

Lemma indegree_pos (edges : list DAGEdge) (e : DAGEdge) :
  In e edges -> (0 < indegree edges (edge_target e))%nat.
Proof.
  intros He. unfold indegree.
  assert (Hin : In e (List.filter (fun e' => String.eqb (edge_target e') (edge_target e))
                                  edges)).
  { apply filter_In. split; [exact He|apply String.eqb_refl]. }
  destruct (List.filter _ edges); [destruct Hin|simpl; lia].
Qed.

Variable nodes : list DAGNode.
Variable edges : list DAGEdge.

Let ids := map node_id nodes.

Lemma zero_counts_lookup (ns : list DAGNode) (k : string) :
  (forall c, fold_left (fun m node => <[node_id node := 0%nat]> m) ns
                       (∅ : gmap string nat) !! k = Some c ->
             c = 0%nat /\ In k (map node_id ns))
  /\ (In k (map node_id ns) ->
      fold_left (fun m node => <[node_id node := 0%nat]> m) ns
                (∅ : gmap string nat) !! k = Some 0%nat).
Proof.
  apply (fold_left_prefix
           (fun pre (m : gmap string nat) =>
              (forall c, m !! k = Some c -> c = 0%nat /\ In k (map node_id pre))
              /\ (In k (map node_id pre) -> m !! k = Some 0%nat))).
  - split; [intros c; rewrite lookup_empty; discriminate|intros []].
  - intros pre n m [H1 H2]. rewrite map_app, lookup_insert. simpl.
    case_decide as Hk.
    + split; [intros c [= <-]; split; [reflexivity|]|reflexivity].
      apply in_or_app. right. left. exact Hk.
    + split.
      * intros c Hc. destruct (H1 c Hc) as [-> Hin]. split; [reflexivity|].
        apply in_or_app. left. exact Hin.
      * intros Hin. apply in_app_or in Hin as [Hin|[Heq|[]]]; [auto|contradiction].
Qed.

(** The map of in-degrees: a count for every node and every target. *)
Lemma incomingCounts_lookup (k : string) :
  (forall c, incomingCounts nodes edges !! k = Some c ->
             c = indegree edges k /\ (In k ids \/ (0 < c)%nat))
  /\ (In k ids -> incomingCounts nodes edges !! k = Some (indegree edges k)).
Proof.
  unfold incomingCounts.
  match goal with
  | |- context [fold_left ?f edges ?a] =>
      pose proof (fold_left_prefix
                    (fun pre (m : gmap string nat) =>
                       (forall c, m !! k = Some c ->
                                  c = indegree pre k /\ (In k ids \/ (0 < c)%nat))
                       /\ (In k ids -> is_Some (m !! k))
                       /\ (m !! k = None -> indegree pre k = 0%nat))
                    f edges a) as H
  end.
  destruct H as (H1 & H2 & _).
  - destruct (zero_counts_lookup nodes k) as [H1 H2].
    split; [|split].
    + intros c Hc. destruct (H1 c Hc) as [-> Hin]. auto.
    + intros Hin. rewrite (H2 Hin). eauto.
    + reflexivity.
  - intros pre e m (H1 & H2 & H3). rewrite indegree_snoc, lookup_insert.
    case_decide as Hk.
    + subst k. rewrite String.eqb_refl. split; [|split; [eauto|discriminate]].
      intros c [= <-]. split; [|right; lia].
      destruct (m !! edge_target e) as [c0|] eqn:Hm; simpl.
      * destruct (H1 c0 eq_refl) as [-> _]. reflexivity.
      * rewrite (H3 eq_refl). reflexivity.
    + assert (String.eqb (edge_target e) k = false) as -> by
          (apply String.eqb_neq; exact Hk).
      rewrite Nat.add_0_r. auto.
  - split; [exact H1|].
    intros Hin. destruct (H2 Hin) as [c Hc]. rewrite Hc.
    destruct (H1 c Hc) as [-> _]. reflexivity.
Qed.

Lemma NoDup_fst_filter {A B : Type} (f : A * B -> bool) (l : list (A * B)) :
  List.NoDup (map fst l) -> List.NoDup (map fst (List.filter f l)).
Proof.
  induction l as [|x l IH]; simpl; intros H; [constructor|].
  apply List.NoDup_cons_iff in H as [Hx Hl]. destruct (f x); simpl; [|apply IH, Hl].
  apply List.NoDup_cons_iff. split; [|apply IH, Hl].
  intros Hin. apply Hx.
  apply in_map_iff in Hin as (y & Hy & Hin). apply filter_In in Hin as [Hin _].
  apply in_map_iff. exists y. auto.
Qed.

(** With distinct node identities, the entries of the in-degree map with
    count zero are the nodes without incoming edge. *)
Lemma zero_count_entries :
  List.NoDup ids ->
  length (List.filter (fun entry : string * nat => (snd entry =? 0)%nat)
                      (map_to_list (incomingCounts nodes edges)))
  = length (List.filter (fun k => (indegree edges k =? 0)%nat) ids).
Proof.
  intros Hnd.
  set (L := List.filter (fun entry : string * nat => (snd entry =? 0)%nat)
                        (map_to_list (incomingCounts nodes edges))).
  rewrite <- (length_map fst L). apply Permutation_length.
  apply Stdlib.Sorting.Permutation.NoDup_Permutation.
  - apply NoDup_fst_filter, NoDup_ListNoDup, NoDup_fst_map_to_list.
  - apply List.NoDup_filter, Hnd.
  - intros k. rewrite in_map_iff, filter_In. split.
    + intros ([k' c] & <- & Hin). apply filter_In in Hin as [Hin Hc]. simpl in *.
      apply Nat.eqb_eq in Hc. subst c.
      apply list_elem_of_In, elem_of_map_to_list in Hin.
      destruct (proj1 (incomingCounts_lookup k') 0%nat Hin) as [H0 [Hk|Hlt]]; [|lia].
      split; [exact Hk|apply Nat.eqb_eq; symmetry; exact H0].
    + intros [Hk H0]. apply Nat.eqb_eq in H0. exists (k, 0%nat). split; [reflexivity|].
      apply filter_In. split; [|reflexivity].
      apply list_elem_of_In, elem_of_map_to_list.
      rewrite (proj2 (incomingCounts_lookup k) Hk), H0. reflexivity.
Qed.

Lemma list_sum_indicator (t : string) (l : list string) :
  List.NoDup l ->
  (list_sum (map (fun k => if String.eqb t k then 1 else 0)%nat l) <= 1)%nat.
Proof.
  induction l as [|k l IH]; simpl; intros H; [lia|].
  apply List.NoDup_cons_iff in H as [Hk Hl]. specialize (IH Hl).
  destruct (String.eqb t k) eqn:E; [|lia].
  apply String.eqb_eq in E. subst k.
  assert (Hz : list_sum (map (fun k => if String.eqb t k then 1 else 0)%nat l) = 0%nat).
  { clear IH Hl. induction l as [|k l IH]; simpl; [reflexivity|].
    destruct (String.eqb t k) eqn:E.
    - apply String.eqb_eq in E. subst k. exfalso. apply Hk. left. reflexivity.
    - apply IH. intros H. apply Hk. right. exact H. }
  lia.
Qed.

(** Distinct identities share the edges: the in-degrees add up to at
    most the number of edges. *)
Lemma sum_indegree_le (l : list string) :
  List.NoDup l -> (list_sum (map (indegree edges) l) <= length edges)%nat.
Proof.
  intros Hnd. induction edges as [|e es IH]; simpl.
  - clear Hnd. induction l as [|k l' IHl]; simpl; [lia|]. exact IHl.
  - assert (Hsplit : list_sum (map (indegree (e :: es)) l)
                     = (list_sum (map (fun k => if String.eqb (edge_target e) k
                                                then 1 else 0)%nat l)
                        + list_sum (map (indegree es) l))%nat).
    { clear. induction l as [|k l' IHl]; simpl; [reflexivity|].
      rewrite IHl, indegree_cons. lia. }
    rewrite Hsplit. pose proof (list_sum_indicator (edge_target e) l Hnd). lia.
Qed.

Lemma length_le_sum_zero (l : list string) :
  (length l <= list_sum (map (indegree edges) l)
               + length (List.filter (fun k => (indegree edges k =? 0)%nat) l))%nat.
Proof.
  induction l as [|k l IH]; simpl; [lia|].
  destruct (indegree edges k =? 0)%nat eqn:E; simpl; [lia|].
  apply Nat.eqb_neq in E. lia.
Qed.

Lemma length_lt_sum_zero (l : list string) (k0 : string) :
  In k0 l -> (2 <= indegree edges k0)%nat ->
  (length l < list_sum (map (indegree edges) l)
              + length (List.filter (fun k => (indegree edges k =? 0)%nat) l))%nat.
Proof.
  induction l as [|k l IH]; simpl; intros Hin H2; [destruct Hin|].
  destruct Hin as [->|Hin].
  - pose proof (length_le_sum_zero l).
    destruct (indegree edges k0 =? 0)%nat eqn:E; [apply Nat.eqb_eq in E|]; simpl; lia.
  - specialize (IH Hin H2).
    destruct (indegree edges k =? 0)%nat eqn:E; [|apply Nat.eqb_neq in E]; simpl; lia.
Qed.

Lemma getSuggestedLayout_tree :
  getSuggestedLayout nodes edges = tree ->
  length (List.filter (fun entry : string * nat => (snd entry =? 0)%nat)
                      (map_to_list (incomingCounts nodes edges))) = 1%nat
  /\ length edges = (length nodes - 1)%nat
  /\ (5 <= length nodes)%nat.
Proof.
  unfold getSuggestedLayout. intros H.
  destruct (length nodes <=? 1)%nat eqn:E1; [discriminate|].
  destruct (length nodes <=? 4)%nat eqn:E4; [discriminate|].
  apply Nat.leb_gt in E4.
  match type of H with
  | (if ?c then _ else _) = _ => destruct c eqn:Et
  end.
  - apply andb_true_iff in Et as [Hr He]. apply Nat.eqb_eq in Hr, He. auto.
  - repeat match type of H with
           | (if ?c then _ else _) = _ => destruct c
           end; discriminate.
Qed.

(** When the selection answers "tree" on nodes with distinct identities,
    no node has two incoming edges. *)
Lemma tree_indegree_le_1 :
  getSuggestedLayout nodes edges = tree -> List.NoDup ids ->
  forall k, In k ids -> (indegree edges k <= 1)%nat.
Proof.
  intros Ht Hnd k Hk.
  destruct (getSuggestedLayout_tree Ht) as (Hroots & Hedges & Hlen).
  rewrite (zero_count_entries Hnd) in Hroots.
  destruct (le_lt_dec (indegree edges k) 1) as [Hle|Hgt]; [exact Hle|].
  pose proof (length_lt_sum_zero ids k Hk Hgt) as H1.
  pose proof (sum_indegree_le ids Hnd) as H2.
  unfold ids in H1 at 1. rewrite length_map in H1. lia.
Qed.

End TreeSelection.

(** ** Tree layout: the recursion returns *)

Section TreeRecursion.
Import Geometry Layout.

Variable nodes : list DAGNode.
Variable edges : list DAGEdge.

Let ids := map node_id nodes.
Let incoming := incomingEdges nodes edges.
Let outgoing := outgoingEdges nodes edges.

Lemma init_adjacency_In (ns : list DAGNode) (k : string) :
  In k (map node_id ns) -> init_adjacency ns !! k = Some [].
Proof.
  unfold init_adjacency.
  apply (fold_left_prefix
           (fun pre (m : gmap string (list string)) =>
              In k (map node_id pre) -> m !! k = Some [])).
  - intros [].
  - intros pre n m IH Hin. rewrite map_app in Hin. rewrite lookup_insert.
    case_decide as Hk; [reflexivity|].
    apply in_app_or in Hin as [Hin|[Heq|[]]]; [auto|contradiction].
Qed.

(** The array of [incomingEdges] of a node has one entry per edge into it. *)
Lemma incoming_length (k : string) :
  In k ids -> exists l, incoming !! k = Some l /\ length l = indegree edges k.
Proof.
  intros Hk. unfold incoming, incomingEdges.
  apply (fold_left_prefix
           (fun pre (m : gmap string (list string)) =>
              exists l, m !! k = Some l /\ length l = indegree pre k)).
  - exists []. split; [apply init_adjacency_In, Hk|reflexivity].
  - intros pre e m (l & Hl & Hlen). rewrite indegree_snoc. unfold push_if_present.
    destruct (String.eqb (edge_target e) k) eqn:E.
    + apply String.eqb_eq in E. rewrite E, Hl, lookup_insert_eq.
      eexists. split; [reflexivity|]. rewrite length_app. simpl. lia.
    + apply String.eqb_neq in E.
      destruct (m !! edge_target e); [rewrite lookup_insert_ne by exact E|];
        exists l; (split; [exact Hl|lia]).
Qed.

Lemma outgoing_keys (u : string) (l : list string) :
  outgoing !! u = Some l -> In u ids.
Proof.
  unfold outgoing, outgoingEdges. revert u l.
  apply (fold_left_invariant
           (fun m : gmap string (list string) =>
              forall u l, m !! u = Some l -> In u ids)).
  - intros u l Hl. apply init_adjacency_lookup in Hl as [_ Hin]. exact Hin.
  - intros m e _ IH u l. unfold push_if_present.
    destruct (m !! edge_source e) as [l0|] eqn:Hm; [|apply IH].
    rewrite lookup_insert. case_decide as Hk; [|apply IH].
    intros _. subst u. eapply IH, Hm.
Qed.

Lemma root_indegree (rootNode : DAGNode) :
  In rootNode (rootNodes incoming nodes) -> indegree edges (node_id rootNode) = 0%nat.
Proof.
  unfold rootNodes. intros Hin. apply filter_In in Hin as [Hin Hlen].
  destruct (incoming_length (node_id rootNode)) as (l & Hl & <-).
  { apply in_map, Hin. }
  rewrite Hl in Hlen. simpl in Hlen. apply Nat.eqb_eq in Hlen. exact Hlen.
Qed.

Lemma filter_le_1_unique {A : Type} (f : A -> bool) (l : list A) (a b : A) :
  (length (List.filter f l) <= 1)%nat -> In a l -> In b l ->
  f a = true -> f b = true -> a = b.
Proof.
  intros Hlen Ha Hb Hfa Hfb.
  assert (Ha' : In a (List.filter f l)) by (apply filter_In; auto).
  assert (Hb' : In b (List.filter f l)) by (apply filter_In; auto).
  destruct (List.filter f l) as [|x [|y r]]; simpl in *; try lia; try tauto.
  destruct Ha' as [<-|[]], Hb' as [<-|[]]. reflexivity.
Qed.

(** On a descending path every identity is the root, which has no
    incoming edge, or is entered from the identity that follows it. *)
Lemma descends_pred (path pre post : list string) (c : string) :
  descends edges path -> path = (pre ++ c :: post)%list ->
  (post = [] /\ indegree edges c = 0%nat)
  \/ (exists p post' e, post = p :: post' /\ In e edges
                        /\ edge_source e = p /\ edge_target e = c).
Proof.
  revert path. induction pre as [|x pre IH]; intros path Hd ->; simpl in Hd.
  - destruct post as [|p post']; [left; auto|].
    right. destruct Hd as [(e & He & Hs & Ht) _]. exists p, post', e. auto.
  - apply (IH (pre ++ c :: post)%list); [|reflexivity].
    destruct (pre ++ c :: post)%list eqn:E; [destruct pre; discriminate|].
    apply Hd.
Qed.

Lemma subtree_children_returns
    (rec : string -> nat -> nat -> nat -> gmap string Position ->
           option (nat * gmap string Position))
    (children : list string) :
  (forall c level sib sc positions, In c children ->
     exists r, rec c level sib sc positions = Some r) ->
  forall level sc tw positions,
    exists r, subtree_children rec children level sc tw positions = Some r.
Proof.
  induction children as [|c children IH]; intros Hrec level sc tw positions; simpl.
  - eauto.
  - destruct (Hrec c level tw sc positions (or_introl eq_refl)) as ([w p] & ->).
    apply IH. intros c' l' s' sc' p' Hin. apply Hrec. right. exact Hin.
Qed.

Hypothesis Hdistinct : List.NoDup ids.
Hypothesis Hindegree : forall k, In k ids -> (indegree edges k <= 1)%nat.

(** A child of the node a descending path ends in is not on the path. *)
Lemma child_not_on_path (u c : string) (path : list string) :
  List.NoDup (u :: path) -> (forall x, In x path -> In x ids) ->
  descends edges (u :: path) ->
  In c (default [] (outgoing !! u)) ->
  In u ids /\ ~ In c (u :: path) /\ descends edges (c :: u :: path).
Proof.
  intros Hnd Hids Hd Hc.
  destruct (outgoing !! u) as [l|] eqn:Hl; simpl in Hc; [|destruct Hc].
  pose proof (outgoing_keys u l Hl) as Hu.
  destruct (outgoing_targets nodes edges u c l Hl Hc) as (e2 & He2 & Hs2 & Ht2).
  split; [exact Hu|]. split; [|simpl; eauto].
  intros Hin. apply in_split in Hin as (pre & post & Hsplit).
  assert (Hcid : In c ids).
  { assert (Hc' : In c (u :: path)) by (rewrite Hsplit; apply in_elt).
    destruct Hc' as [<-|Hc']; [exact Hu|apply Hids, Hc']. }
  destruct (descends_pred _ pre post c Hd Hsplit)
    as [[_ H0]|(p & post' & e1 & -> & He1 & Hs1 & Ht1)].
  - pose proof (indegree_pos edges e2 He2) as Hpos. rewrite Ht2 in Hpos. lia.
  - assert (Heq : e1 = e2).
    { apply (filter_le_1_unique (fun e => String.eqb (edge_target e) c) edges).
      - apply Hindegree, Hcid.
      - exact He1.
      - exact He2.
      - rewrite Ht1. apply String.eqb_refl.
      - rewrite Ht2. apply String.eqb_refl. }
    subst e2. rewrite Hs1 in Hs2. subst p.
    rewrite Hsplit in Hnd. destruct pre as [|x pre]; simpl in Hsplit.
    + injection Hsplit as -> _. apply List.NoDup_cons_iff in Hnd as [Hnd _].
      apply Hnd. left. reflexivity.
    + injection Hsplit as -> _. simpl in Hnd.
      apply List.NoDup_cons_iff in Hnd as [Hnd _].
      apply Hnd. apply in_or_app. right. right. left. reflexivity.
Qed.

(** The recursion returns when the fuel covers the nodes not yet on the
    path. *)
Lemma subtree_returns (dir : TreeDirection) (fuel : nat) :
  forall (u : string) (path : list string) (level sib sc : nat)
         (positions : gmap string Position),
    List.NoDup (u :: path) -> (forall x, In x path -> In x ids) ->
    descends edges (u :: path) ->
    (length ids < fuel + length path)%nat ->
    exists r, calculateSubtreePositions fuel outgoing dir u level sib sc positions
              = Some r.
Proof.
  induction fuel as [|fuel IH]; intros u path level sib sc positions Hnd Hids Hd Hfuel.
  { exfalso. apply List.NoDup_cons_iff in Hnd as [_ Hnd].
    pose proof (NoDup_incl_length Hnd Hids). lia. }
  simpl. destruct (default [] (outgoing !! u)) as [|firstChild rest] eqn:Hch.
  { eauto. }
  destruct (subtree_children_returns
              (calculateSubtreePositions fuel outgoing dir) (firstChild :: rest))
    with (level := (level + 1)%nat) (sc := length (firstChild :: rest)) (tw := 0%nat)
         (positions := positions) as ([tw positions'] & Hloop).
  - intros c level' sib' sc' positions'' Hc. rewrite <- Hch in Hc.
    destruct (child_not_on_path u c path Hnd Hids Hd Hc) as (Hu & Hnot & Hd').
    apply (IH c (u :: path)).
    + apply List.NoDup_cons_iff. auto.
    + intros x [<-|Hx]; [exact Hu|apply Hids, Hx].
    + exact Hd'.
    + simpl. lia.
  - simpl in Hloop. simpl. rewrite Hloop.
    destruct (positions' !! firstChild); [destruct (positions' !! _)|]; eauto.
Qed.

End TreeRecursion.

(** ** The best layout *)

Section BestLayout.
Import Geometry Layout.

(** The tree layout returns on every graph the selection sends to it,
    provided the node identities are distinct. *)
Lemma tree_layout_returns (nodes : list DAGNode) (edges : list DAGEdge)
    (dir : TreeDirection) (fuel : nat) :
  getSuggestedLayout nodes edges = tree ->
  List.NoDup (map node_id nodes) ->
  (tree_depth_bound nodes <= fuel)%nat ->
  exists out, calculateTreeLayout fuel nodes edges dir = Some out.
Proof.
  intros Ht Hnd Hfuel. unfold calculateTreeLayout.
  destruct (length nodes =? 0)%nat; [eauto|].
  destruct (rootNodes (incomingEdges nodes edges) nodes) as [|rootNode roots] eqn:Hr;
    [eauto|].
  destruct (subtree_returns nodes edges (tree_indegree_le_1 nodes edges Ht Hnd)
                            dir fuel (node_id rootNode) [] 0 0 1 ∅)
    as ([w positions] & ->).
  - apply List.NoDup_cons_iff. split; [intros []|constructor].
  - intros x [].
  - simpl. apply (root_indegree nodes edges). rewrite Hr. left. reflexivity.
  - unfold tree_depth_bound in Hfuel. rewrite length_map. simpl. lia.
  - eauto.
Qed.

Lemma subtree_children_mono
    (rec1 rec2 : string -> nat -> nat -> nat -> gmap string Position ->
                 option (nat * gmap string Position)) :
  (forall c level sib sc positions r,
     rec1 c level sib sc positions = Some r -> rec2 c level sib sc positions = Some r) ->
  forall children level sc tw positions r,
    subtree_children rec1 children level sc tw positions = Some r ->
    subtree_children rec2 children level sc tw positions = Some r.
Proof.
  intros Hrec. induction children as [|c children IH];
    intros level sc tw positions r; simpl; [auto|].
  destruct (rec1 c level tw sc positions) as [[w p]|] eqn:H1; [|discriminate].
  rewrite (Hrec _ _ _ _ _ _ H1). apply IH.
Qed.

(** More fuel does not change what the recursion returns. *)
Lemma subtree_fuel_mono (outgoing : gmap string (list string)) (dir : TreeDirection)
    (fuel : nat) :
  forall nodeId level sib sc positions r,
    calculateSubtreePositions fuel outgoing dir nodeId level sib sc positions = Some r ->
    calculateSubtreePositions (S fuel) outgoing dir nodeId level sib sc positions
    = Some r.
Proof.
  induction fuel as [|fuel IH]; intros nodeId level sib sc positions r H;
    [discriminate|].
  remember (S fuel) as fuel1 eqn:Hf. cbn [calculateSubtreePositions].
  rewrite Hf in H. cbn [calculateSubtreePositions] in H.
  destruct (default [] (outgoing !! nodeId)) as [|firstChild rest]; [exact H|].
  destruct (subtree_children (calculateSubtreePositions fuel outgoing dir)
                             (firstChild :: rest) (level + 1)
                             (length (firstChild :: rest)) 0 positions)
    as [[tw positions']|] eqn:Hloop; [|discriminate].
  rewrite (subtree_children_mono _ _ IH _ _ _ _ _ _ Hloop). exact H.
Qed.

Lemma subtree_fuel_le (outgoing : gmap string (list string)) (dir : TreeDirection)
    (fuel fuel' : nat) nodeId level sib sc positions r :
  (fuel <= fuel')%nat ->
  calculateSubtreePositions fuel outgoing dir nodeId level sib sc positions = Some r ->
  calculateSubtreePositions fuel' outgoing dir nodeId level sib sc positions = Some r.
Proof.
  induction 1 as [|fuel' _ IH]; intros H; [exact H|].
  apply subtree_fuel_mono, IH, H.
Qed.

Lemma applyBestLayout_fuel_le
    (dagre_layout : list DAGNode -> list DAGEdge -> LayoutOptions ->
                    option (string -> option Position))
    (random : nat -> R) (fuel fuel' : nat) (nodes out : list DAGNode)
    (edges : list DAGEdge) (canvasSize : option (R * R)) :
  (fuel <= fuel')%nat ->
  applyBestLayout dagre_layout random fuel nodes edges canvasSize = Some out ->
  applyBestLayout dagre_layout random fuel' nodes edges canvasSize = Some out.
Proof.
  intros Hle. unfold applyBestLayout.
  destruct (getSuggestedLayout nodes edges); try (intros H; exact H).
  unfold calculateTreeLayout. destruct (length nodes =? 0)%nat; [auto|].
  destruct (rootNodes _ nodes) as [|rootNode roots]; [auto|].
  destruct (calculateSubtreePositions fuel _ _ _ _ _ _ _) as [[w positions]|] eqn:Hs;
    [|discriminate].
  rewrite (subtree_fuel_le _ _ _ _ _ _ _ _ _ _ Hle Hs). auto.
Qed.

(** On nodes with distinct identities [applyBestLayout] returns, and
    returns the same array for every fuel from the depth bound on. *)
Lemma applyBestLayout_returns
    (dagre_layout : list DAGNode -> list DAGEdge -> LayoutOptions ->
                    option (string -> option Position))
    (random : nat -> R) (nodes : list DAGNode) (edges : list DAGEdge)
    (canvasSize : option (R * R)) :
  List.NoDup (map node_id nodes) ->
  exists out,
    forall fuel, (tree_depth_bound nodes <= fuel)%nat ->
      applyBestLayout dagre_layout random fuel nodes edges canvasSize = Some out.
Proof.
  intros Hnd.
  assert (Hret : exists out,
             applyBestLayout dagre_layout random (tree_depth_bound nodes)
                             nodes edges canvasSize = Some out).
  { unfold applyBestLayout.
    destruct (getSuggestedLayout nodes edges) eqn:Ht; cbn [option_map]; eauto.
    destruct (tree_layout_returns nodes edges vertical (tree_depth_bound nodes)
                                  Ht Hnd (le_n _)) as [out ->].
    cbn [option_map]. eauto. }
  destruct Hret as [out Hout]. exists out.
  intros fuel Hfuel. eapply applyBestLayout_fuel_le; eassumption.
Qed.

(** C9: whatever the nodes, the edges, the canvas size, the answers of
    the third-party layout and the random numbers are, an array returned by
    [applyBestLayout] has the length of the input and, index by index, the
    identity, the label and the selection flag of the input node: only
    positions differ.  On nodes with distinct identities (a node set)
    [applyBestLayout] does return. *)
Theorem applyBestLayout_frame
    (dagre_layout : list DAGNode -> list DAGEdge -> LayoutOptions ->
                    option (string -> option Position))
    (random : nat -> R) (nodes : list DAGNode) (edges : list DAGEdge)
    (canvasSize : option (R * R)) :
  (forall fuel out,
     applyBestLayout dagre_layout random fuel nodes edges canvasSize = Some out ->
     length out = length nodes /\ same_up_to_position nodes out)
  /\ (List.NoDup (map node_id nodes) ->
      exists out,
        forall fuel, (tree_depth_bound nodes <= fuel)%nat ->
          applyBestLayout dagre_layout random fuel nodes edges canvasSize = Some out).
Proof.
  split; [|apply applyBestLayout_returns].
  intros fuel out Hout.
  pose proof (frames_applyBestLayout _ _ _ _ _ _ _ Hout) as Hframes. split.
  - rewrite <- (length_map frame_of out), Hframes, length_map. reflexivity.
  - apply same_up_to_position_frames, Hframes.
Qed.

End BestLayout.

Section BestLayoutExamples.
Import Geometry Layout.

Lemma applyBestLayout_frame_witness :
  let node i := mkNode i i (mkPosition 0 0) false in
  let nodes := [node "n1"; node "n2"; node "n3"; node "n4"; node "n5"] in
  let edges := [mkEdge "edge-1" "n1" "n2" false; mkEdge "edge-2" "n1" "n3" false;
                mkEdge "edge-3" "n2" "n4" false; mkEdge "edge-4" "n2" "n5" false] in
  getSuggestedLayout nodes edges = tree
  /\ exists out,
       (forall fuel, (6 <= fuel)%nat ->
          applyBestLayout (fun _ _ _ => None) (fun _ => 0%R) fuel nodes edges None
          = Some out)
       /\ length out = 5%nat
       /\ same_up_to_position nodes out.
Proof.
  intros node nodes edges. split; [reflexivity|].
  destruct (applyBestLayout_frame (fun _ _ _ => None) (fun _ => 0%R) nodes edges None)
    as [Hframe Hreturns].
  destruct Hreturns as [out Hout].
  { simpl. repeat (apply List.NoDup_cons; [simpl; intuition discriminate|]).
    apply List.NoDup_nil. }
  exists out. split; [exact Hout|].
  apply (Hframe 6%nat out), Hout. apply le_n.
Defined.

(** Why the second half of C9 asks for distinct identities: on an array in which an
    identity occurs twice, the selection can answer "tree" for a graph with
    a cycle below the root, and the recursion of the tree layout then never
    ends, whatever the fuel. *)
Lemma applyBestLayout_duplicate_identity_diverges
    (dagre_layout : list DAGNode -> list DAGEdge -> LayoutOptions ->
                    option (string -> option Position))
    (random : nat -> R) (canvasSize : option (R * R)) (fuel : nat) :
  let node i := mkNode i i (mkPosition 0 0) false in
  let nodes := [node "A"; node "A"; node "B"; node "C"; node "D"] in
  let edges := [mkEdge "edge-1" "A" "B" false; mkEdge "edge-2" "B" "C" false;
                mkEdge "edge-3" "C" "B" false; mkEdge "edge-4" "C" "D" false] in
  getSuggestedLayout nodes edges = tree
  /\ applyBestLayout dagre_layout random fuel nodes edges canvasSize = None.
Proof.
  intros node nodes edges.
  assert (Ht : getSuggestedLayout nodes edges = tree) by reflexivity.
  split; [exact Ht|]. unfold applyBestLayout. rewrite Ht.
  set (outgoing := outgoingEdges nodes edges).
  assert (HA : outgoing !! "A" = Some ["B"]) by (vm_compute; reflexivity).
  assert (HB : outgoing !! "B" = Some ["C"]) by (vm_compute; reflexivity).
  assert (HC : outgoing !! "C" = Some ["B"; "D"]) by (vm_compute; reflexivity).
  assert (Hloop : forall f level sib sc positions,
             calculateSubtreePositions f outgoing vertical "B" level sib sc positions
             = None
             /\ calculateSubtreePositions f outgoing vertical "C" level sib sc positions
                = None).
  { induction f as [|f IH]; intros level sib sc positions; [split; reflexivity|].
    split; cbn [calculateSubtreePositions].
    - rewrite HB. simpl. rewrite (proj2 (IH _ _ _ _)). reflexivity.
    - rewrite HC. simpl. rewrite (proj1 (IH _ _ _ _)). reflexivity. }
  assert (Hroot : calculateSubtreePositions fuel outgoing vertical "A" 0 0 1 ∅ = None).
  { destruct fuel as [|f]; [reflexivity|].
    cbn [calculateSubtreePositions]. rewrite HA. simpl.
    rewrite (proj1 (Hloop _ _ _ _ _)). reflexivity. }
  unfold calculateTreeLayout.
  change (length nodes =? 0)%nat with false. cbv iota.
  change (rootNodes (incomingEdges nodes edges) nodes) with [node "A"; node "A"].
  cbv iota. fold outgoing. cbn [node_id node].
  rewrite Hroot. reflexivity.
Qed.

End BestLayoutExamples.

(** ** The verdict of the validator *)

Section Verdict.

Import Validation.

(** The first step of a cycle is an edge. *)
Lemma tc_first_edge (edges : list DAGEdge) (u v : string) :
  tc (edge_rel edges) u v -> exists e, In e edges /\ edge_source e = u.
Proof.
  intros H. destruct H as [u v (e & He & Hs & _)|u w v (e & He & Hs & _) _];
    exists e; split; assumption.
Qed.

Lemma tc_edges_incl (edges edges' : list DAGEdge) (u v : string) :
  (forall e, In e edges -> In e edges') ->
  tc (edge_rel edges) u v -> tc (edge_rel edges') u v.
Proof.
  intros Hincl H. induction H as [u v (e & He & Hs & Ht)|u w v (e & He & Hs & Ht) _ IH].
  - apply tc_once. exists e. auto.
  - eapply tc_l; [|exact IH]. exists e. auto.
Qed.

(** For a graph whose edges leave from nodes, [detectCycle] answers the
    question "is there a cycle". *)
Lemma detectCycle_iff (nodes : list DAGNode) (edges : list DAGEdge) :
  (forall e, In e edges -> In (edge_source e) (map node_id nodes)) ->
  detectCycle nodes edges = true <-> has_cycle edges.
Proof.
  intros Hwf. split; [apply detectCycle_sound|].
  intros (v & Hv). apply (detectCycle_complete nodes edges v); [|exact Hv].
  destruct (tc_first_edge edges v v Hv) as (e & He & <-). apply Hwf, He.
Qed.

(** X1: [detectCycle] always returns and decides what it is asked.  The
    depth-first search never recurses deeper than one plus the number of
    nodes plus the number of edges, whatever the fuel beyond that; an
    answer [true] means the edges hold a cycle; a cycle through a node
    is always found; so for a graph whose edges all leave from nodes the
    answer is [true] exactly when there is a cycle. *)
Theorem detectCycle_decides_cycles (nodes : list DAGNode) (edges : list DAGEdge) :
  (forall extra,
     detectCycle_fuel (S (length nodes + length edges) + extra) nodes edges
     = Some (detectCycle nodes edges))
  /\ (detectCycle nodes edges = true -> has_cycle edges)
  /\ (forall v, In v (map node_id nodes) -> tc (edge_rel edges) v v ->
        detectCycle nodes edges = true)
  /\ ((forall e, In e edges -> In (edge_source e) (map node_id nodes)) ->
      (detectCycle nodes edges = true <-> has_cycle edges)).
Proof.
  split.
  { intros extra. apply detectCycle_fuel_above. unfold dfs_depth_bound. lia. }
  split; [apply detectCycle_sound|]. split; [apply detectCycle_complete|].
  apply detectCycle_iff.
Qed.

(** The set of identities that are an endpoint of some edge. *)
Lemma connectedNodes_elem (edges : list DAGEdge) (acc : gset string) (x : string) :
  x ∈ fold_left (fun s edge => {[edge_target edge]} ∪ ({[edge_source edge]} ∪ s))
                edges acc
  <-> x ∈ acc \/ (exists e, In e edges /\ (edge_source e = x \/ edge_target e = x)).
Proof.
  split; [|apply connectedNodes_acc].
  revert acc. induction edges as [|e edges IH]; intros acc H; simpl in H.
  - left. exact H.
  - apply IH in H as [H|(e' & He' & Hx)].
    + apply elem_of_union in H as [H|H].
      * apply elem_of_singleton in H. right. exists e. split; [left; reflexivity|].
        right. symmetry. exact H.
      * apply elem_of_union in H as [H|H].
        -- apply elem_of_singleton in H. right. exists e. split; [left; reflexivity|].
           left. symmetry. exact H.
        -- left. exact H.
    + right. exists e'. split; [right; exact He'|exact Hx].
Qed.

(** The nodes that are an endpoint of no edge, as [validate] finds them. *)
Lemma disconnected_nil (nodes : list DAGNode) (edges : list DAGEdge) :
  List.filter
    (fun node =>
       negb (bool_decide
               (node_id node ∈
                fold_left (fun (s : gset string) edge =>
                             {[edge_target edge]} ∪ ({[edge_source edge]} ∪ s))
                          edges ∅)))
    nodes = []
  <-> forall n, In n nodes ->
        exists e, In e edges /\ (edge_source e = node_id n \/ edge_target e = node_id n).
Proof.
  split.
  - intros Hnil n Hn.
    destruct (bool_decide (node_id n ∈
                fold_left (fun (s : gset string) edge =>
                             {[edge_target edge]} ∪ ({[edge_source edge]} ∪ s))
                          edges ∅)) eqn:Hb.
    + apply bool_decide_eq_true in Hb. apply connectedNodes_elem in Hb as [Hb|Hb];
        [apply not_elem_of_empty in Hb; destruct Hb|exact Hb].
    + assert (Hin : In n []); [|destruct Hin].
      rewrite <- Hnil. apply filter_In. split; [exact Hn|]. rewrite Hb. reflexivity.
  - intros H. apply filter_nil_iff. intros n Hn.
    apply negb_false_iff, bool_decide_eq_true, connectedNodes_acc. right. apply H, Hn.
Qed.

Lemma length_pos_iff {A : Type} (l : list A) : (0 <? length l)%nat = false <-> l = [].
Proof. destruct l; simpl; split; intros; try reflexivity; discriminate. Qed.

Lemma self_loops_nil (edges : list DAGEdge) :
  List.filter (fun edge => String.eqb (edge_source edge) (edge_target edge)) edges = []
  <-> forall e, In e edges -> edge_source e <> edge_target e.
Proof.
  split.
  - intros Hnil e He Heq. assert (Hin : In e []); [|destruct Hin].
    rewrite <- Hnil. apply filter_In. split; [exact He|]. apply String.eqb_eq, Heq.
  - intros H. apply filter_nil_iff. intros e He. apply String.eqb_neq, H, He.
Qed.

(** The four rules, each with the message it appends. *)
Lemma validate_errors (nodes : list DAGNode) (edges : list DAGEdge) :
  let disconnectedNodes :=
    List.filter
      (fun node =>
         negb (bool_decide
                 (node_id node ∈
                  fold_left (fun (s : gset string) edge =>
                               {[edge_target edge]} ∪ ({[edge_source edge]} ∪ s))
                            edges ∅)))
      nodes in
  let selfLoops :=
    List.filter (fun edge => String.eqb (edge_source edge) (edge_target edge)) edges in
  errors (validate nodes edges)
  = ((if (length nodes <? 2)%nat then [msg_min_nodes] else [])
     ++ (if (2 <=? length nodes)%nat && (0 <? length disconnectedNodes)%nat
         then [(msg_disconnected ++ join ", " (map node_label disconnectedNodes))%string]
         else [])
     ++ (if (0 <? length selfLoops)%nat then [msg_self_loops] else [])
     ++ (if (0 <? length nodes)%nat && (0 <? length edges)%nat
            && detectCycle nodes edges
         then [msg_cycles] else []))%list.
Proof.
  intros disconnectedNodes selfLoops. unfold validate.
  fold disconnectedNodes. fold selfLoops.
  destruct (length nodes <? 2)%nat, (2 <=? length nodes)%nat,
    (0 <? length disconnectedNodes)%nat, (0 <? length selfLoops)%nat,
    ((0 <? length nodes)%nat && (0 <? length edges)%nat), (detectCycle nodes edges);
    reflexivity.
Qed.

(** [validate] accepts exactly the graphs that pass its four rules. *)
Lemma validate_isValid_iff (nodes : list DAGNode) (edges : list DAGEdge) :
  (forall e, In e edges -> In (edge_source e) (map node_id nodes)) ->
  isValid (validate nodes edges) = true
  <-> 2 <= length nodes
      /\ (forall n, In n nodes ->
            exists e, In e edges
                      /\ (edge_source e = node_id n \/ edge_target e = node_id n))
      /\ ~ has_cycle edges.
Proof.
  intros Hwf. split.
  - intros Hv. rewrite validate_isValid in Hv. apply andb_true_iff in Hv as [Herr Hlen].
    apply Nat.eqb_eq in Herr. apply Nat.leb_le in Hlen.
    apply length_zero_iff_nil in Herr. rewrite validate_errors in Herr.
    apply app_eq_nil in Herr as [_ Herr]. apply app_eq_nil in Herr as [Hdis Herr].
    apply app_eq_nil in Herr as [_ Hcyc].
    assert (Hlen' : (2 <=? length nodes)%nat = true) by (apply Nat.leb_le; exact Hlen).
    rewrite Hlen' in Hdis. simpl in Hdis.
    split; [exact Hlen|].
    assert (Hconn : forall n, In n nodes ->
              exists e, In e edges
                        /\ (edge_source e = node_id n \/ edge_target e = node_id n)).
    { apply disconnected_nil. apply length_pos_iff.
      destruct (0 <? length _)%nat; [discriminate|reflexivity]. }
    split; [exact Hconn|].
    intros Hcycle. apply (detectCycle_iff nodes edges Hwf) in Hcycle.
    rewrite Hcycle in Hcyc.
    destruct nodes as [|n0 nodes']; [simpl in Hlen; lia|].
    destruct edges as [|e0 edges'].
    + destruct (Hconn n0 (or_introl eq_refl)) as (e & [] & _).
    + simpl in Hcyc. discriminate.
  - intros (Hlen & Hconn & Hacyclic).
    rewrite (validate_valid nodes edges Hlen Hconn); [reflexivity| |exact Hacyclic].
    intros e He Heq. apply Hacyclic. exists (edge_source e). apply tc_once.
    exists e. auto.
Qed.

(** X2: when every edge leaves from a node, [validate] accepts a graph
    exactly when it has at least two nodes, every node is an endpoint of
    some edge, and the edges hold no cycle (a self-loop is a cycle). *)
Theorem validate_accepts_exactly_dags (nodes : list DAGNode) (edges : list DAGEdge) :
  (forall e, In e edges -> In (edge_source e) (map node_id nodes)) ->
  isValid (validate nodes edges) = true
  <-> 2 <= length nodes
      /\ (forall n, In n nodes ->
            exists e, In e edges
                      /\ (edge_source e = node_id n \/ edge_target e = node_id n))
      /\ ~ has_cycle edges.
Proof. apply validate_isValid_iff. Qed.

Lemma validate_accepts_exactly_dags_witness :
  let nodes := [mkNode "A" "a" (mkPosition 0 0) false;
                mkNode "B" "b" (mkPosition 0 0) false] in
  let edges := [mkEdge "edge-1" "A" "B" false] in
  isValid (validate nodes edges) = true
  <-> 2 <= length nodes
      /\ (forall n, In n nodes ->
            exists e, In e edges
                      /\ (edge_source e = node_id n \/ edge_target e = node_id n))
      /\ ~ has_cycle edges.
Proof.
  apply (validate_accepts_exactly_dags
           [mkNode "A" "a" (mkPosition 0 0) false;
            mkNode "B" "b" (mkPosition 0 0) false]
           [mkEdge "edge-1" "A" "B" false]).
  intros e [<-|[]]. simpl. left. reflexivity.
Defined.

Lemma has_cycle_Permutation (edges edges' : list DAGEdge) :
  Permutation edges edges' -> has_cycle edges -> has_cycle edges'.
Proof.
  intros Hp (v & Hv). exists v. apply (tc_edges_incl edges edges'); [|exact Hv].
  intros e. apply Permutation_in, Hp.
Qed.

Lemma validate_isValid_Permutation (nodes nodes' : list DAGNode)
    (edges edges' : list DAGEdge) :
  Permutation nodes nodes' -> Permutation edges edges' ->
  (forall e, In e edges -> In (edge_source e) (map node_id nodes)) ->
  isValid (validate nodes edges) = true -> isValid (validate nodes' edges') = true.
Proof.
  intros Hn He Hwf Hv.
  apply (validate_isValid_iff nodes edges Hwf) in Hv as (Hlen & Hconn & Hacyclic).
  apply validate_isValid_iff.
  - intros e Hin. apply (Permutation_in _ (Permutation_sym He)) in Hin.
    apply (Permutation_in _ (Permutation_map node_id Hn)), Hwf, Hin.
  - split; [rewrite <- (Permutation_length Hn); exact Hlen|]. split.
    + intros n Hin. apply (Permutation_in _ (Permutation_sym Hn)) in Hin.
      destruct (Hconn n Hin) as (e & Hein & Hen). exists e.
      split; [apply (Permutation_in _ He), Hein|exact Hen].
    + intros Hc. apply Hacyclic.
      apply (has_cycle_Permutation edges' edges (Permutation_sym He)), Hc.
Qed.

(** X3: the verdict does not depend on the order in which the nodes
    and the edges are listed (for a graph whose edges leave from
    nodes). *)
Theorem validate_verdict_order_independent (nodes nodes' : list DAGNode)
    (edges edges' : list DAGEdge) :
  Permutation nodes nodes' -> Permutation edges edges' ->
  (forall e, In e edges -> In (edge_source e) (map node_id nodes)) ->
  isValid (validate nodes' edges') = isValid (validate nodes edges).
Proof.
  intros Hn He Hwf.
  assert (Hwf' : forall e, In e edges' -> In (edge_source e) (map node_id nodes')).
  { intros e Hin. apply (Permutation_in _ (Permutation_sym He)) in Hin.
    apply (Permutation_in _ (Permutation_map node_id Hn)), Hwf, Hin. }
  destruct (isValid (validate nodes edges)) eqn:H1.
  - apply (validate_isValid_Permutation nodes nodes' edges edges'); assumption.
  - destruct (isValid (validate nodes' edges')) eqn:H2; [|reflexivity].
    rewrite <- H1. symmetry.
    apply (validate_isValid_Permutation nodes' nodes edges' edges);
      [apply Permutation_sym, Hn|apply Permutation_sym, He|exact Hwf'|exact H2].
Qed.

Lemma validate_verdict_order_independent_witness :
  let A := mkNode "A" "a" (mkPosition 0 0) false in
  let B := mkNode "B" "b" (mkPosition 0 0) false in
  let C := mkNode "C" "c" (mkPosition 0 0) false in
  let e1 := mkEdge "edge-1" "A" "B" false in
  let e2 := mkEdge "edge-2" "B" "C" false in
  isValid (validate [B; A; C] [e2; e1]) = isValid (validate [A; B; C] [e1; e2]).
Proof.
  apply (validate_verdict_order_independent
           [mkNode "A" "a" (mkPosition 0 0) false;
            mkNode "B" "b" (mkPosition 0 0) false;
            mkNode "C" "c" (mkPosition 0 0) false]
           [mkNode "B" "b" (mkPosition 0 0) false;
            mkNode "A" "a" (mkPosition 0 0) false;
            mkNode "C" "c" (mkPosition 0 0) false]
           [mkEdge "edge-1" "A" "B" false; mkEdge "edge-2" "B" "C" false]
           [mkEdge "edge-2" "B" "C" false; mkEdge "edge-1" "A" "B" false]).
  - apply perm_swap.
  - apply perm_swap.
  - intros e [<-|[<-|[]]]; simpl; auto.
Defined.

Lemma In_single_if {A : Type} (c : bool) (m x : A) :
  In x (if c then [m] else []) <-> c = true /\ x = m.
Proof.
  destruct c; simpl; split.
  - intros [<-|[]]. auto.
  - intros [_ ->]. left. reflexivity.
  - intros [].
  - intros [H _]. discriminate.
Qed.

(** X4: [validate] reports every rule that is broken and nothing else:
    each of the four messages is in the list exactly when its rule is
    violated (the cycle message when the graph has a node and an edge
    and [detectCycle] answers [true]), and the graph is valid exactly
    when the list is empty. *)
Theorem validate_reports_every_violation (nodes : list DAGNode)
    (edges : list DAGEdge) :
  let errs := errors (validate nodes edges) in
  (In msg_min_nodes errs <-> length nodes < 2)
  /\ ((exists labels, In (msg_disconnected ++ labels) errs)
      <-> 2 <= length nodes
          /\ exists n, In n nodes
               /\ forall e, In e edges ->
                    edge_source e <> node_id n /\ edge_target e <> node_id n)
  /\ (In msg_self_loops errs
      <-> exists e, In e edges /\ edge_source e = edge_target e)
  /\ (In msg_cycles errs
      <-> nodes <> [] /\ edges <> [] /\ detectCycle nodes edges = true)
  /\ (isValid (validate nodes edges) = true <-> errs = []).
Proof.
  intros errs. unfold errs. rewrite validate_isValid, validate_errors.
  set (disconnectedNodes := List.filter _ nodes).
  set (selfLoops := List.filter _ edges).
  assert (Hdis : (0 <? length disconnectedNodes)%nat = true
                 <-> exists n, In n nodes
                       /\ forall e, In e edges ->
                            edge_source e <> node_id n /\ edge_target e <> node_id n).
  { split.
    - intros H. destruct disconnectedNodes as [|n l] eqn:Hd; [discriminate|].
      assert (Hn : In n disconnectedNodes) by (rewrite Hd; left; reflexivity).
      apply filter_In in Hn as [Hn Hb]. exists n. split; [exact Hn|].
      apply negb_true_iff, bool_decide_eq_false in Hb.
      intros e He. split; intros Heq; apply Hb, connectedNodes_acc; right; exists e; auto.
    - intros (n & Hn & Hfree).
      destruct disconnectedNodes as [|n' l] eqn:Hd; [|reflexivity]. exfalso.
      apply (proj1 (disconnected_nil nodes edges)) with (n := n) in Hd; [|exact Hn].
      destruct Hd as (e & He & Hen). destruct (Hfree e He) as [Hs Ht].
      destruct Hen; contradiction. }
  assert (Hself : (0 <? length selfLoops)%nat = true
                  <-> exists e, In e edges /\ edge_source e = edge_target e).
  { split.
    - intros H. destruct selfLoops as [|e l] eqn:Hd; [discriminate|].
      assert (He : In e selfLoops) by (rewrite Hd; left; reflexivity).
      apply filter_In in He as [He Hb]. exists e. split; [exact He|].
      apply String.eqb_eq, Hb.
    - intros (e & He & Heq).
      destruct selfLoops as [|e' l] eqn:Hd; [|reflexivity]. exfalso.
      apply (proj1 (self_loops_nil edges)) with (e := e) in Hd; auto. }
  repeat rewrite in_app_iff. repeat setoid_rewrite in_app_iff.
  repeat rewrite In_single_if. repeat setoid_rewrite In_single_if.
  split; [|split; [|split; [|split]]].
  - split.
    + intros [[H _]|[[_ H]|[[_ H]|[_ H]]]]; try discriminate H.
      apply Nat.ltb_lt, H.
    + intros H. left. split; [apply Nat.ltb_lt, H|reflexivity].
  - split.
    + intros (labels & [[_ H]|[[H _]|[[_ H]|[_ H]]]]); try discriminate H.
      apply andb_true_iff in H as [H1 H2]. split; [apply Nat.leb_le, H1|].
      apply Hdis, H2.
    + intros (Hlen & Hn). eexists. right. left. split; [|reflexivity].
      apply andb_true_iff. split; [apply Nat.leb_le, Hlen|apply Hdis, Hn].
  - split.
    + intros [[_ H]|[[_ H]|[[H _]|[_ H]]]]; try discriminate H.
      apply Hself, H.
    + intros H. right. right. left. split; [apply Hself, H|reflexivity].
  - split.
    + intros [[_ H]|[[_ H]|[[_ H]|[H _]]]]; try discriminate H.
      apply andb_true_iff in H as [H Hc]. apply andb_true_iff in H as [Hn He].
      split; [intros ->; discriminate|]. split; [intros ->; discriminate|exact Hc].
    + intros (Hn & He & Hc). right. right. right. split; [|reflexivity].
      destruct nodes; [contradiction|]. destruct edges; [contradiction|].
      simpl. exact Hc.
  - split.
    + intros H. apply andb_true_iff in H as [H _]. apply Nat.eqb_eq in H.
      apply length_zero_iff_nil in H. exact H.
    + intros H. apply andb_true_iff. split; [rewrite H; reflexivity|].
      apply app_eq_nil in H as [H _].
      destruct (length nodes <? 2)%nat eqn:Hlt; [discriminate|].
      apply Nat.ltb_ge in Hlt. apply Nat.leb_le, Hlt.
Qed.

End Verdict.

(** ** Edge registry: what every reachable state satisfies *)

Section EdgeRegistryInvariants.

Import EdgeStore.

(** A proposal is admitted exactly when it passes the four checks. *)
Lemma validateEdge_valid_iff (edges : list DAGEdge) (nodes : list DAGNode)
    (s t : string) :
  ev_isValid (validateEdge edges nodes s t) = true
  <-> s <> t
      /\ ~ (exists e, In e edges /\ edge_source e = s /\ edge_target e = t)
      /\ (In s (map node_id nodes) /\ In t (map node_id nodes))
      /\ ~ (exists e, In e edges /\ edge_source e = t /\ edge_target e = s).
Proof.
  unfold validateEdge.
  pose proof (existsb_edge_pair edges s t) as Hdup.
  pose proof (existsb_edge_pair edges t s) as Hrev.
  pose proof (existsb_node_id nodes s) as Hs.
  pose proof (existsb_node_id nodes t) as Ht.
  destruct (String.eqb_spec s t) as [Heq|Hne].
  { simpl. split; [discriminate|]. intros (H & _). contradiction. }
  destruct (existsb (fun edge => String.eqb (edge_source edge) s
                                 && String.eqb (edge_target edge) t) edges).
  { simpl. split; [discriminate|]. intros (_ & H & _). exfalso. apply H, Hdup.
    reflexivity. }
  destruct (existsb (fun node => String.eqb (node_id node) s) nodes); cycle 1.
  { simpl. split; [discriminate|]. intros (_ & _ & [H _] & _). apply Hs in H.
    discriminate. }
  destruct (existsb (fun node => String.eqb (node_id node) t) nodes); cycle 1.
  { simpl. split; [discriminate|]. intros (_ & _ & [_ H] & _). apply Ht in H.
    discriminate. }
  cbn [negb orb].
  destruct (existsb (fun edge => String.eqb (edge_source edge) t
                                 && String.eqb (edge_target edge) s) edges).
  - simpl. split; [discriminate|]. intros (_ & _ & _ & H). exfalso. apply H, Hrev.
    reflexivity.
  - simpl. split; [|reflexivity]. intros _. split; [exact Hne|].
    split; [intros H; apply Hdup in H; discriminate|].
    split; [split; [apply Hs|apply Ht]; reflexivity|].
    intros H. apply Hrev in H. discriminate.
Qed.

(** X5: the four checks of [validateEdge] in their order: each reason is
    reported exactly when the checks before it pass and its own check
    fails, and the proposal is admitted when all four pass. *)
Theorem validateEdge_first_failure (edges : list DAGEdge) (nodes : list DAGNode)
    (s t : string) :
  let duplicate := exists e, In e edges /\ edge_source e = s /\ edge_target e = t in
  let reverse := exists e, In e edges /\ edge_source e = t /\ edge_target e = s in
  let present := In s (map node_id nodes) /\ In t (map node_id nodes) in
  (s = t -> validateEdge edges nodes s t = mkEdgeValidation false (Some msg_self))
  /\ (s <> t -> duplicate ->
      validateEdge edges nodes s t = mkEdgeValidation false (Some msg_duplicate))
  /\ (s <> t -> ~ duplicate -> ~ present ->
      validateEdge edges nodes s t = mkEdgeValidation false (Some msg_missing))
  /\ (s <> t -> ~ duplicate -> present -> reverse ->
      validateEdge edges nodes s t = mkEdgeValidation false (Some msg_direct_cycle))
  /\ (s <> t -> ~ duplicate -> present -> ~ reverse ->
      validateEdge edges nodes s t = mkEdgeValidation true None).
Proof. apply validateEdge_checks. Qed.

(** The two outcomes of [addEdge]. *)
Lemma addEdge_cases (nodes : list DAGNode) (s t : string) (st : State) :
  (ev_isValid (validateEdge (edges st) nodes s t) = false
   /\ addEdge nodes s t st
      = (false, ev_errorMessage (validateEdge (edges st) nodes s t), st))
  \/ (ev_isValid (validateEdge (edges st) nodes s t) = true
      /\ addEdge nodes s t st
         = (true, None,
            mkState (edges st ++ [mkEdge (Ident.make_id "edge-" (edgeIdCounter st))
                                         s t false])%list
                    (edgeIdCounter st + 1)%N)).
Proof.
  unfold addEdge. destruct (ev_isValid (validateEdge (edges st) nodes s t));
    [right|left]; split; reflexivity.
Qed.

(** The two outcomes of [addEdge_in_render]. *)
Lemma addEdge_in_render_cases (rendered : list DAGEdge) (nodes : list DAGNode)
    (s t : string) (st : State) :
  (ev_isValid (validateEdge rendered nodes s t) = false
   /\ addEdge_in_render rendered nodes s t st
      = (false, ev_errorMessage (validateEdge rendered nodes s t), st))
  \/ (ev_isValid (validateEdge rendered nodes s t) = true
      /\ addEdge_in_render rendered nodes s t st
         = (true, None,
            mkState (edges st ++ [mkEdge (Ident.make_id "edge-" (edgeIdCounter st))
                                         s t false])%list
                    (edgeIdCounter st + 1)%N)).
Proof.
  unfold addEdge_in_render. destruct (ev_isValid (validateEdge rendered nodes s t));
    [right|left]; split; reflexivity.
Qed.

Lemma NoDup_map_filter {A B : Type} (f : A -> B) (p : A -> bool) (l : list A) :
  List.NoDup (map f l) -> List.NoDup (map f (List.filter p l)).
Proof.
  induction l as [|a l IH]; intros H; simpl; [constructor|].
  apply List.NoDup_cons_iff in H as [Hnotin Hnd].
  destruct (p a); simpl; [|apply IH, Hnd].
  constructor; [|apply IH, Hnd].
  intros Hin. apply Hnotin. apply in_map_iff in Hin as (x & Hx & Hin).
  apply filter_In in Hin as [Hin _]. apply in_map_iff. eauto.
Qed.

Lemma NoDup_map_snoc {A B : Type} (f : A -> B) (l : list A) (a : A) :
  List.NoDup (map f l) -> ~ In (f a) (map f l) ->
  List.NoDup (map f (l ++ [a])%list).
Proof.
  induction l as [|x l IH]; intros Hnd Hnotin; simpl.
  - constructor; [intros []|constructor].
  - simpl in Hnd, Hnotin. apply List.NoDup_cons_iff in Hnd as [Hx Hnd].
    constructor.
    + rewrite map_app, in_app_iff. intros [H|[H|[]]]; [contradiction|].
      apply Hnotin. left. symmetry. exact H.
    + apply IH; [exact Hnd|]. intros H. apply Hnotin. right. exact H.
Qed.

Lemma simple_graph_filter (p : DAGEdge -> bool) (l : list DAGEdge) :
  simple_graph l -> simple_graph (List.filter p l).
Proof.
  intros (Hloop & Hdup & Hrev). split; [|split].
  - intros e He. apply filter_In in He as [He _]. apply Hloop, He.
  - apply NoDup_map_filter, Hdup.
  - intros e1 e2 H1 H2. apply filter_In in H1 as [H1 _]. apply filter_In in H2 as [H2 _].
    apply Hrev; assumption.
Qed.

Lemma simple_graph_step (st : State) (op : Op) :
  simple_graph (edges st) -> simple_graph (edges (step st op)).
Proof.
  intros Hs. destruct op as [nodes s t|i|l|n|l|]; simpl;
    try (apply simple_graph_filter, Hs).
  - destruct (addEdge_cases nodes s t st) as [[_ ->]|[Hv ->]]; [exact Hs|].
    apply validateEdge_valid_iff in Hv as (Hne & Hnd & _ & Hnr).
    destruct Hs as (Hloop & Hdup & Hrev). simpl. split; [|split].
    + intros e He. apply in_app_or in He as [He|[<-|[]]]; [apply Hloop, He|exact Hne].
    + apply NoDup_map_snoc; [exact Hdup|].
      intros Hin. apply in_map_iff in Hin as (e & He & Hin). apply Hnd.
      exists e. unfold endpoints in He. simpl in He. injection He as Hs' Ht'. auto.
    + intros e1 e2 H1 H2 [Ha Hb].
      apply in_app_or in H1 as [H1|[<-|[]]]; apply in_app_or in H2 as [H2|[<-|[]]];
        simpl in *.
      * apply (Hrev e1 e2 H1 H2). auto.
      * apply Hnr. exists e1. auto.
      * apply Hnr. exists e2. auto.
      * apply Hne. exact Ha.
  - split; [intros e []|]. split; [constructor|intros e1 e2 []].
Qed.

Lemma fresh_edge_id (st : State) (e : DAGEdge) :
  edge_counter_above st -> In e (edges st) ->
  edge_id e <> Ident.make_id "edge-" (edgeIdCounter st).
Proof.
  intros Habove He Heq.
  pose proof (Habove e (edgeIdCounter st) He) as H.
  rewrite Heq, id_number_make_id in H. specialize (H eq_refl). lia.
Qed.

Lemma edge_ids_step (st : State) (op : Op) :
  edge_counter_above st -> List.NoDup (map edge_id (edges st)) ->
  List.NoDup (map edge_id (edges (step st op))).
Proof.
  intros Habove Hnd. destruct op as [nodes s t|i|l|n|l|]; simpl;
    try (apply NoDup_map_filter, Hnd).
  - destruct (addEdge_cases nodes s t st) as [[_ ->]|[_ ->]]; [exact Hnd|].
    simpl. apply NoDup_map_snoc; [exact Hnd|].
    intros Hin. apply in_map_iff in Hin as (e & He & Hin).
    apply (fresh_edge_id st e Habove Hin). exact He.
  - constructor.
Qed.

(** [run] keeps both invariants; [play] below keeps the first when every
    [addEdge] comes from a render that has seen the state, and the second
    always. *)
Lemma edge_registry_invariants (initialEdges : list DAGEdge) (ops : list Op) :
  (simple_graph initialEdges -> simple_graph (edges (run initialEdges ops)))
  /\ (List.NoDup (map edge_id initialEdges) ->
      List.NoDup (map edge_id (edges (run initialEdges ops)))).
Proof.
  unfold run. split; intros H0.
  - apply fold_left_invariant; [exact H0|]. intros st op _. apply simple_graph_step.
  - apply (fold_left_invariant
             (fun st => edge_counter_above st /\ List.NoDup (map edge_id (edges st)))).
    + split; [apply edge_counter_above_mount|exact H0].
    + intros st op _ [Ha Hn]. split; [apply edge_counter_above_step, Ha|].
      apply edge_ids_step; assumption.
Qed.

Lemma simple_graph_handle (events : list Event) (h : Hook) (fresh : bool) :
  simple_graph (edges (hook_state h)) ->
  (fresh = true -> hook_rendered h = edges (hook_state h)) ->
  renders_before_adds fresh events = true ->
  simple_graph (edges (hook_state (fold_left handle events h))).
Proof.
  revert h fresh. induction events as [|ev events IH]; intros h fresh Hs Hfresh Hev;
    [exact Hs|].
  destruct ev as [|op].
  - apply (IH _ true); [exact Hs|reflexivity|exact Hev].
  - assert (Hstep : forall op', simple_graph (edges (step (hook_state h) op')))
      by (intros op'; apply simple_graph_step, Hs).
    destruct op as [nodes s t|i|l|n|l|];
      try (apply (IH _ false); [apply Hstep|discriminate|exact Hev]).
    simpl in Hev. apply andb_true_iff in Hev as [-> Hev].
    apply (IH _ false); [|discriminate|exact Hev].
    simpl. rewrite (Hfresh eq_refl). apply (Hstep (OpAddEdge nodes s t)).
Qed.

(** X6: the edges of the registry stay a simple graph when the
    initial ones are (no edge from a node to itself, no two edges with
    the same source and target, no edge together with its reverse),
    along every history of renders and calls in which each [addEdge] is
    called from a render that has seen the state it is applied to: the
    hook has rendered again since the call before it. *)
Theorem edge_registry_stays_simple (initialEdges : list DAGEdge)
    (events : list Event) :
  simple_graph initialEdges ->
  renders_before_adds true events = true ->
  simple_graph (edges (hook_state (play initialEdges events))).
Proof.
  intros Hs Hev. unfold play.
  apply (simple_graph_handle events (mount_hook initialEdges) true);
    [exact Hs|reflexivity|exact Hev].
Qed.

Lemma edge_registry_stays_simple_witness :
  simple_graph
    (edges (hook_state
              (play [mkEdge "edge-1" "A" "B" false]
                    [Call (OpAddEdge [mkNode "A" "a" (mkPosition 0 0) false;
                                      mkNode "B" "b" (mkPosition 0 0) false;
                                      mkNode "C" "c" (mkPosition 0 0) false] "B" "C");
                     Render;
                     Call (OpAddEdge [mkNode "A" "a" (mkPosition 0 0) false;
                                      mkNode "B" "b" (mkPosition 0 0) false;
                                      mkNode "C" "c" (mkPosition 0 0) false] "B" "C");
                     Call (OpRemoveEdge "edge-1")]))).
Proof.
  apply (edge_registry_stays_simple [mkEdge "edge-1" "A" "B" false]).
  - split; [|split].
    + intros e [<-|[]]. simpl. discriminate.
    + simpl. constructor; [intros []|constructor].
    + intros e1 e2 [<-|[]] [<-|[]] [H _]. simpl in H. discriminate.
  - reflexivity.
Defined.

(** Two calls of [addEdge] from the same render both pass the checks of
    that render: the second one leaves a duplicate. *)
Lemma stale_render_admits_duplicate :
  let nodes := [mkNode "A" "a" (mkPosition 0 0) false;
                mkNode "B" "b" (mkPosition 0 0) false] in
  edges (hook_state (play [] [Call (OpAddEdge nodes "A" "B");
                              Call (OpAddEdge nodes "A" "B")]))
  = [mkEdge "edge-1" "A" "B" false; mkEdge "edge-2" "A" "B" false].
Proof. reflexivity. Qed.

Lemma edge_ids_handle (h : Hook) (ev : Event) :
  edge_counter_above (hook_state h) ->
  List.NoDup (map edge_id (edges (hook_state h))) ->
  List.NoDup (map edge_id (edges (hook_state (handle h ev)))).
Proof.
  intros Habove Hnd. destruct ev as [|op]; [exact Hnd|].
  destruct op as [nodes s t|i|l|n|l|];
    try (apply (edge_ids_step (hook_state h)); assumption).
  simpl.
  destruct (addEdge_in_render_cases (hook_rendered h) nodes s t (hook_state h))
    as [[_ ->]|[_ ->]]; [exact Hnd|].
  simpl. apply NoDup_map_snoc; [exact Hnd|].
  intros Hin. apply in_map_iff in Hin as (e & He & Hin).
  apply (fresh_edge_id (hook_state h) e Habove Hin). exact He.
Qed.

Lemma edge_ids_play (initialEdges : list DAGEdge) (events : list Event) :
  List.NoDup (map edge_id initialEdges) ->
  List.NoDup (map edge_id (edges (hook_state (play initialEdges events)))).
Proof.
  intros H0. unfold play.
  apply (fold_left_invariant
           (fun h => edge_counter_above (hook_state h)
                     /\ List.NoDup (map edge_id (edges (hook_state h))))).
  - split; [apply edge_counter_above_mount|exact H0].
  - intros h ev _ [Ha Hn]. split; [|apply edge_ids_handle; assumption].
    destruct ev as [|op]; [exact Ha|].
    destruct op; try (apply (edge_counter_above_step (hook_state h)), Ha).
    apply edge_counter_above_add, Ha.
Qed.

(** X8: once an edge is admitted by an [addEdge] called from a render
    that has seen the state, and the hook has rendered again, proposing
    the same edge is rejected as a duplicate, and proposing its reverse
    between nodes that exist is rejected as a direct cycle; neither
    changes the registry. *)
Theorem admitted_edge_blocks_repeat_and_reverse (rendered : list DAGEdge)
    (nodes nodes' : list DAGNode) (s t : string) (st st' : State) :
  rendered = edges st ->
  addEdge_in_render rendered nodes s t st = (true, None, st') ->
  addEdge_in_render (edges st') nodes' s t st' = (false, Some msg_duplicate, st')
  /\ (In s (map node_id nodes') -> In t (map node_id nodes') ->
      addEdge_in_render (edges st') nodes' t s st'
      = (false, Some msg_direct_cycle, st')).
Proof.
  intros -> Hadd.
  destruct (addEdge_in_render_cases (edges st) nodes s t st) as [[_ H]|[Hv H]];
    rewrite H in Hadd; [discriminate|].
  injection Hadd as <-.
  apply validateEdge_valid_iff in Hv as (Hne & Hnd & _ & Hnr).
  set (newEdge := mkEdge (Ident.make_id "edge-" (edgeIdCounter st)) s t false).
  set (st' := mkState (edges st ++ [newEdge])%list (edgeIdCounter st + 1)%N).
  assert (Hnew : In newEdge (edges st')).
  { simpl. apply in_or_app. right. left. reflexivity. }
  pose proof (validateEdge_checks (edges st') nodes' s t) as Hst.
  pose proof (validateEdge_checks (edges st') nodes' t s) as Hts.
  cbv zeta in Hst, Hts.
  destruct Hst as (_ & Hdup & _). destruct Hts as (_ & _ & _ & Hrev & _).
  split.
  - unfold addEdge_in_render. rewrite Hdup; [reflexivity|exact Hne|].
    exists newEdge. auto.
  - intros Hs Ht. unfold addEdge_in_render.
    rewrite Hrev; [reflexivity|congruence| |auto|].
    + intros (e & He & Hes & Het). simpl in He.
      apply in_app_or in He as [He|[<-|[]]].
      * apply Hnr. exists e. auto.
      * simpl in Hes. congruence.
    + exists newEdge. auto.
Qed.

Lemma admitted_edge_blocks_repeat_and_reverse_witness :
  let nodes := [mkNode "A" "a" (mkPosition 0 0) false;
                mkNode "B" "b" (mkPosition 0 0) false] in
  let st' := mkState [mkEdge "edge-1" "A" "B" false] 2%N in
  addEdge_in_render (edges st') nodes "A" "B" st' = (false, Some msg_duplicate, st')
  /\ (In "A" (map node_id nodes) -> In "B" (map node_id nodes) ->
      addEdge_in_render (edges st') nodes "B" "A" st'
      = (false, Some msg_direct_cycle, st')).
Proof.
  apply (admitted_edge_blocks_repeat_and_reverse []
           [mkNode "A" "a" (mkPosition 0 0) false;
            mkNode "B" "b" (mkPosition 0 0) false]
           [mkNode "A" "a" (mkPosition 0 0) false;
            mkNode "B" "b" (mkPosition 0 0) false]
           "A" "B" (mkState [] 1%N)).
  - reflexivity.
  - reflexivity.
Defined.

End EdgeRegistryInvariants.

(** ** Looking up what the registries hold *)

Section Lookup.

Context {A : Type} (key : A -> string).

Lemma find_filter_same (i : string) (l : list A) :
  List.find (fun a => String.eqb (key a) i)
            (List.filter (fun a => negb (String.eqb (key a) i)) l) = None.
Proof.
  induction l as [|a l IH]; simpl; [reflexivity|].
  destruct (String.eqb (key a) i) eqn:E; simpl; [exact IH|].
  rewrite E. exact IH.
Qed.

Lemma find_filter_other (i j : string) (l : list A) :
  i <> j ->
  List.find (fun a => String.eqb (key a) j)
            (List.filter (fun a => negb (String.eqb (key a) i)) l)
  = List.find (fun a => String.eqb (key a) j) l.
Proof.
  intros Hne. induction l as [|a l IH]; simpl; [reflexivity|].
  destruct (String.eqb (key a) i) eqn:E; simpl.
  - apply String.eqb_eq in E.
    assert (E' : String.eqb (key a) j = false) by (apply String.eqb_neq; congruence).
    rewrite E'. exact IH.
  - destruct (String.eqb (key a) j); [reflexivity|exact IH].
Qed.

Lemma find_snoc_fresh (x : A) (l : list A) :
  (forall a, In a l -> key a <> key x) ->
  List.find (fun a => String.eqb (key a) (key x)) (l ++ [x])%list = Some x.
Proof.
  induction l as [|a l IH]; intros Hfresh; simpl.
  - rewrite String.eqb_refl. reflexivity.
  - assert (E : String.eqb (key a) (key x) = false).
    { apply String.eqb_neq, Hfresh. left. reflexivity. }
    rewrite E. apply IH. intros b Hb. apply Hfresh. right. exact Hb.
Qed.

Lemma find_snoc_other (x : A) (j : string) (l : list A) :
  j <> key x ->
  List.find (fun a => String.eqb (key a) j) (l ++ [x])%list
  = List.find (fun a => String.eqb (key a) j) l.
Proof.
  intros Hne. induction l as [|a l IH]; simpl.
  - assert (E : String.eqb (key x) j = false) by (apply String.eqb_neq; congruence).
    rewrite E. reflexivity.
  - destruct (String.eqb (key a) j); [reflexivity|exact IH].
Qed.

Lemma find_map_update (i j : string) (f : A -> A) (l : list A) :
  (forall a, key (f a) = key a) ->
  List.find (fun a => String.eqb (key a) j)
            (map (fun a => if String.eqb (key a) i then f a else a) l)
  = if String.eqb i j
    then option_map f (List.find (fun a => String.eqb (key a) j) l)
    else List.find (fun a => String.eqb (key a) j) l.
Proof.
  intros Hkey. induction l as [|a l IH]; simpl.
  - destruct (String.eqb i j); reflexivity.
  - destruct (String.eqb_spec (key a) i) as [Hi|Hi].
    + rewrite Hkey. destruct (String.eqb_spec (key a) j) as [Hj|Hj].
      * assert (E : String.eqb i j = true) by (apply String.eqb_eq; congruence).
        rewrite E. reflexivity.
      * exact IH.
    + destruct (String.eqb_spec (key a) j) as [Hj|Hj]; [|exact IH].
      assert (E : String.eqb i j = false) by (apply String.eqb_neq; congruence).
      rewrite E. reflexivity.
Qed.

End Lookup.

Section EdgeLookup.

Import EdgeStore.

(** X9: lookups in the edge registry, in any state reached by a
    history of renders and calls in which the numbers of the initial
    identities and the counter stay below 2^53.  An admitted edge is
    appended and [getEdge] of a render that has seen it finds it under
    its new identity, the other identities being looked up as before;
    after [removeEdge] the identity is no longer found and the others
    are; after [removeEdgesForNode] the node has neither incoming nor
    outgoing edges. *)
Theorem edge_registry_lookup (initialEdges : list DAGEdge) (events : list Event) :
  exact_counters initialEdges (length events) ->
  let st := hook_state (play initialEdges events) in
  (forall rendered nodes s t st',
     addEdge_in_render rendered nodes s t st = (true, None, st') ->
     exists newEdge,
       edges st' = (edges st ++ [newEdge])%list
       /\ edge_source newEdge = s /\ edge_target newEdge = t
       /\ getEdge (edge_id newEdge) st' = Some newEdge
       /\ forall i, i <> edge_id newEdge -> getEdge i st' = getEdge i st)
  /\ (forall i, getEdge i (removeEdge i st) = None)
  /\ (forall i j, i <> j -> getEdge j (removeEdge i st) = getEdge j st)
  /\ (forall n, getEdgesForNode n (removeEdgesForNode n st) = ([], [])).
Proof.
  intros _ st. split; [|split; [|split]].
  - intros rendered nodes s t st' Hadd.
    destruct (addEdge_in_render_cases rendered nodes s t st) as [[_ H]|[_ H]];
      rewrite H in Hadd; [discriminate|].
    injection Hadd as <-. eexists. split; [reflexivity|]. split; [reflexivity|].
    split; [reflexivity|]. unfold getEdge. cbn [edges edge_id]. split.
    + apply (find_snoc_fresh edge_id
               (mkEdge (Ident.make_id "edge-" (edgeIdCounter st)) s t false)).
      intros e He. apply fresh_edge_id; [|exact He].
      apply edge_counter_above_play.
    + intros i Hi.
      apply (find_snoc_other edge_id
               (mkEdge (Ident.make_id "edge-" (edgeIdCounter st)) s t false)).
      exact Hi.
  - intros i. apply (find_filter_same edge_id).
  - intros i j Hne. apply (find_filter_other edge_id). exact Hne.
  - intros n. unfold getEdgesForNode, removeEdgesForNode. cbn [edges]. f_equal.
    + apply filter_nil_iff. intros e He. apply filter_In in He as [_ He].
      apply andb_true_iff in He as [_ He]. apply negb_true_iff in He. exact He.
    + apply filter_nil_iff. intros e He. apply filter_In in He as [_ He].
      apply andb_true_iff in He as [He _]. apply negb_true_iff in He. exact He.
Qed.

Lemma edge_registry_lookup_witness :
  let st := mkState [mkEdge "edge-4" "A" "B" false] 5%N in
  (forall rendered nodes s t st',
     addEdge_in_render rendered nodes s t st = (true, None, st') ->
     exists newEdge,
       edges st' = (edges st ++ [newEdge])%list
       /\ edge_source newEdge = s /\ edge_target newEdge = t
       /\ getEdge (edge_id newEdge) st' = Some newEdge
       /\ forall i, i <> edge_id newEdge -> getEdge i st' = getEdge i st)
  /\ (forall i, getEdge i (removeEdge i st) = None)
  /\ (forall i j, i <> j -> getEdge j (removeEdge i st) = getEdge j st)
  /\ (forall n, getEdgesForNode n (removeEdgesForNode n st) = ([], [])).
Proof.
  apply (edge_registry_lookup [mkEdge "edge-4" "A" "B" false] [Render]).
  reflexivity.
Defined.

End EdgeLookup.

(** ** Node registry: what every reachable state satisfies *)

Section NodeRegistryInvariants.

Import NodeStore.

Lemma fresh_node_id (st : State) (n : DAGNode) :
  node_counter_above st -> In n (nodes st) ->
  node_id n <> Ident.make_id "node-" (nodeIdCounter st).
Proof.
  intros Habove Hn Heq.
  pose proof (Habove n (nodeIdCounter st) Hn) as H. unfold node_number in H.
  rewrite Heq, id_number_make_id in H. specialize (H eq_refl). lia.
Qed.

Lemma map_node_id_update (f : DAGNode -> DAGNode) (i : string) (l : list DAGNode) :
  (forall n, node_id (f n) = node_id n) ->
  map node_id (map (fun node => if String.eqb (node_id node) i then f node else node) l)
  = map node_id l.
Proof.
  intros Hf. rewrite map_map. apply map_ext. intros n.
  destruct (String.eqb (node_id n) i); [apply Hf|reflexivity].
Qed.

Lemma node_ids_step (st : State) (op : Op) :
  node_counter_above st -> List.NoDup (map node_id (nodes st)) ->
  List.NoDup (map node_id (nodes (step st op))).
Proof.
  intros Habove Hnd. destruct op as [l p a r|i|l|i p|i l|]; simpl.
  - destruct (addNode l p a r st) as [[created|] st'] eqn:Hadd; simpl.
    + apply addNode_created in Hadd as (Hid & Hnodes & _). rewrite Hnodes.
      apply NoDup_map_snoc; [exact Hnd|].
      intros Hin. apply in_map_iff in Hin as (n & Hn & Hin).
      apply (fresh_node_id st n Habove Hin). congruence.
    + apply addNode_failed in Hadd. subst st'. exact Hnd.
  - apply NoDup_map_filter, Hnd.
  - apply NoDup_map_filter, Hnd.
  - rewrite (map_node_id_update (fun n => with_position n p)); [exact Hnd|reflexivity].
  - unfold updateNodeLabel. destruct (negb (truthy (trim l))); [exact Hnd|]. simpl.
    rewrite (map_node_id_update
               (fun n => mkNode (node_id n) (trim l) (node_position n) (node_selected n)));
      [exact Hnd|reflexivity].
  - constructor.
Qed.

Lemma node_ids_run (initialNodes : list DAGNode) (ops : list Op) :
  List.NoDup (map node_id initialNodes) ->
  List.NoDup (map node_id (nodes (run initialNodes ops))).
Proof.
  intros H0. unfold run.
  apply (fold_left_invariant
           (fun st => node_counter_above st /\ List.NoDup (map node_id (nodes st)))).
  - split; [apply node_counter_above_mount|exact H0].
  - intros st op _ [Ha Hn]. split; [apply node_counter_above_step, Ha|].
    apply node_ids_step; assumption.
Qed.

(** X7: identities stay pairwise distinct in both registries when the
    initial ones are, along every history of the edge hook (renders and
    calls in any order) and every run of the node registry in which the
    numbers of the initial identities and the counter stay below 2^53:
    the counter is always above every number in use, and reading back an
    identity gives the counter it was made from. *)
Theorem registry_identities_stay_distinct :
  (forall (initialEdges : list DAGEdge) (events : list EdgeStore.Event),
     EdgeStore.exact_counters initialEdges (length events) ->
     List.NoDup (map edge_id initialEdges) ->
     List.NoDup (map edge_id
                     (EdgeStore.edges
                        (EdgeStore.hook_state (EdgeStore.play initialEdges events)))))
  /\ (forall (initialNodes : list DAGNode) (ops : list Op),
        exact_counters initialNodes (length ops) ->
        List.NoDup (map node_id initialNodes) ->
        List.NoDup (map node_id (nodes (run initialNodes ops)))).
Proof.
  split.
  - intros initialEdges events _. apply edge_ids_play.
  - intros initialNodes ops _. apply node_ids_run.
Qed.

Lemma registry_identities_stay_distinct_witness :
  List.NoDup
    (map node_id
         (nodes (run [mkNode "node-3" "a" (mkPosition 0 0) false]
                     [OpAddNode (Some "b") None None (0%R, 0%R)]))).
Proof.
  apply (proj2 registry_identities_stay_distinct
           [mkNode "node-3" "a" (mkPosition 0 0) false]
           [OpAddNode (Some "b") None None (0%R, 0%R)]).
  - reflexivity.
  - simpl. constructor; [intros []|constructor].
Defined.

(** X10: lookups in the node registry, in any state reached by a run
    in which the numbers of the initial identities and the counter stay
    below 2^53 and the names are ASCII.  A node created from an ASCII
    name is found by [getNode] under its new identity and the other
    identities are looked up as before; a refused [addNode] changes
    nothing; after [removeNode] the identity is no longer found and the
    others are; [updateNodePosition] moves the node looked up and no
    other. *)
Theorem node_registry_lookup (initialNodes : list DAGNode) (ops : list Op) :
  exact_counters initialNodes (length ops) ->
  forallb ascii_op ops = true ->
  let st := run initialNodes ops in
  (forall label position prompted random created st',
     ascii_name label = true -> ascii_name prompted = true ->
     addNode label position prompted random st = (Some created, st') ->
     getNode (node_id created) st' = Some created
     /\ forall i, i <> node_id created -> getNode i st' = getNode i st)
  /\ (forall label position prompted random st',
        addNode label position prompted random st = (None, st') -> st' = st)
  /\ (forall i, getNode i (removeNode i st) = None)
  /\ (forall i j, i <> j -> getNode j (removeNode i st) = getNode j st)
  /\ (forall i p,
        getNode i (updateNodePosition i p st)
        = option_map (fun n => with_position n p) (getNode i st))
  /\ (forall i j p, i <> j -> getNode j (updateNodePosition i p st) = getNode j st).
Proof.
  intros _ _ st. split; [|split; [|split; [|split; [|split]]]].
  - intros label position prompted random created st' _ _ Hadd.
    apply addNode_created in Hadd as (Hid & Hnodes & _).
    unfold getNode. rewrite Hnodes. split.
    + apply (find_snoc_fresh node_id created). intros n Hn. rewrite Hid.
      apply fresh_node_id; [|exact Hn]. apply node_counter_above_run.
    + intros i Hi. apply (find_snoc_other node_id created). exact Hi.
  - intros label position prompted random st'. apply addNode_failed.
  - intros i. apply (find_filter_same node_id).
  - intros i j Hne. apply (find_filter_other node_id). exact Hne.
  - intros i p. unfold getNode, updateNodePosition. cbn [nodes].
    rewrite (find_map_update node_id i i (fun n => with_position n p));
      [|reflexivity].
    rewrite String.eqb_refl. reflexivity.
  - intros i j p Hne. unfold getNode, updateNodePosition. cbn [nodes].
    rewrite (find_map_update node_id i j (fun n => with_position n p));
      [|reflexivity].
    assert (E : String.eqb i j = false) by (apply String.eqb_neq; exact Hne).
    rewrite E. reflexivity.
Qed.

Lemma node_registry_lookup_witness :
  let st := mkState [mkNode "node-6" "a" (mkPosition 0 0) false;
                     mkNode "node-7" "b" (mkPosition 1 2) false] 8%N in
  (forall label position prompted random created st',
     ascii_name label = true -> ascii_name prompted = true ->
     addNode label position prompted random st = (Some created, st') ->
     getNode (node_id created) st' = Some created
     /\ forall i, i <> node_id created -> getNode i st' = getNode i st)
  /\ (forall label position prompted random st',
        addNode label position prompted random st = (None, st') -> st' = st)
  /\ (forall i, getNode i (removeNode i st) = None)
  /\ (forall i j, i <> j -> getNode j (removeNode i st) = getNode j st)
  /\ (forall i p,
        getNode i (updateNodePosition i p st)
        = option_map (fun n => with_position n p) (getNode i st))
  /\ (forall i j p, i <> j -> getNode j (updateNodePosition i p st) = getNode j st).
Proof.
  apply (node_registry_lookup
           [mkNode "node-6" "a" (mkPosition 0 0) false]
           [OpAddNode (Some " b ") (Some (mkPosition 1 2)) None (0%R, 0%R)]).
  - reflexivity.
  - reflexivity.
Defined.

(** *** Labels *)

Lemma trim_end_idempotent (s : string) : trim_end (trim_end s) = trim_end s.
Proof.
  induction s as [|c s IH]; simpl; [reflexivity|].
  destruct (trim_end s) as [|c' t] eqn:E.
  - destruct (is_space c) eqn:Hc; simpl; [reflexivity|]. rewrite Hc. reflexivity.
  - cbn [trim_end]. cbn [trim_end] in IH. rewrite IH. reflexivity.
Qed.

Lemma trim_start_clean (s : string) : starts_clean (trim_start s).
Proof.
  induction s as [|c s IH]; simpl; [exact I|].
  destruct (is_space c) eqn:Hc; [exact IH|]. simpl. exact Hc.
Qed.

Lemma starts_clean_fixed (s : string) : starts_clean s -> trim_start s = s.
Proof.
  destruct s as [|c s]; simpl; [reflexivity|]. intros ->. reflexivity.
Qed.

Lemma trim_end_starts_clean (s : string) : starts_clean s -> starts_clean (trim_end s).
Proof.
  destruct s as [|c s]; simpl; [auto|]. intros Hc.
  destruct (trim_end s); [rewrite Hc|]; simpl; exact Hc.
Qed.

Lemma trim_idempotent (s : string) : trim (trim s) = trim s.
Proof.
  unfold trim.
  rewrite (starts_clean_fixed (trim_end (trim_start s))).
  - apply trim_end_idempotent.
  - apply trim_end_starts_clean, trim_start_clean.
Qed.

Lemma clean_label_trim (s : string) : truthy (trim s) = true -> clean_label (trim s).
Proof. intros H. split; [exact H|apply trim_idempotent]. Qed.

Lemma clean_labels_step (st : State) (op : Op) :
  (forall n, In n (nodes st) -> clean_label (node_label n)) ->
  forall n, In n (nodes (step st op)) -> clean_label (node_label n).
Proof.
  intros Hclean. destruct op as [l p a r|i|l|i p|i l|]; simpl.
  - unfold addNode.
    destruct (match l with
              | Some l0 => if truthy l0 then Some l0 else a
              | None => a
              end) as [name|]; [|exact Hclean].
    destruct (negb (truthy name) || negb (truthy (trim name))) eqn:Hguard;
      [exact Hclean|].
    apply orb_false_iff in Hguard as [_ Htrim]. apply negb_false_iff in Htrim.
    simpl. intros n Hn. apply in_app_or in Hn as [Hn|[<-|[]]]; [apply Hclean, Hn|].
    simpl. apply clean_label_trim, Htrim.
  - intros n Hn. apply filter_In in Hn as [Hn _]. apply Hclean, Hn.
  - intros n Hn. apply filter_In in Hn as [Hn _]. apply Hclean, Hn.
  - intros n Hn. apply in_map_iff in Hn as (m & <- & Hm).
    destruct (String.eqb (node_id m) i); simpl; apply Hclean, Hm.
  - unfold updateNodeLabel. destruct (negb (truthy (trim l))) eqn:Hguard;
      [exact Hclean|].
    apply negb_false_iff in Hguard. simpl.
    intros n Hn. apply in_map_iff in Hn as (m & <- & Hm).
    destruct (String.eqb (node_id m) i); simpl;
      [apply clean_label_trim, Hguard|apply Hclean, Hm].
  - intros n [].
Qed.

(** X12: every label in the node registry is non-empty and has no
    white space at either end, whatever operations are run, when the
    initial labels are so: [addNode] and [updateNodeLabel] store trimmed
    labels and refuse blank ones. *)
Theorem node_labels_stay_clean (initialNodes : list DAGNode) (ops : list Op) :
  (forall n, In n initialNodes -> clean_label (node_label n)) ->
  forall n, In n (nodes (run initialNodes ops)) ->
    truthy (node_label n) = true /\ trim (node_label n) = node_label n.
Proof.
  intros H0. unfold run.
  apply (fold_left_invariant
           (fun st => forall n, In n (nodes st) -> clean_label (node_label n))).
  - exact H0.
  - intros st op _. apply clean_labels_step.
Qed.

Lemma node_labels_stay_clean_witness :
  let created := mkNode "node-2" "Load data" (mkPosition 0 0) false in
  truthy (node_label created) = true /\ trim (node_label created) = node_label created.
Proof.
  apply (node_labels_stay_clean
           [mkNode "node-1" "a b" (mkPosition 0 0) false]
           [OpAddNode (Some "  Load data ") (Some (mkPosition 0 0)) None (0%R, 0%R);
            OpUpdateNodeLabel "node-1" "   "]).
  - intros n [<-|[]]. split; reflexivity.
  - right. left. reflexivity.
Defined.

(** X11: for a counter of at most 2^53, reading back the number of the
    node or edge identity built from it gives that counter, so two such
    counters never give the same identity. *)
Theorem identity_round_trip (p : string) (n m : N) :
  p = "node-" \/ p = "edge-" ->
  (n <= Ident.MAX_EXACT)%N -> (m <= Ident.MAX_EXACT)%N ->
  Ident.id_number p (Ident.make_id p n) = Some n
  /\ (Ident.make_id p n = Ident.make_id p m -> n = m).
Proof.
  intros _ _ _.
  split; [apply id_number_make_id|]. intros H.
  pose proof (id_number_make_id p n) as Hn. rewrite H, id_number_make_id in Hn.
  congruence.
Qed.

Lemma identity_round_trip_witness :
  Ident.id_number "edge-" (Ident.make_id "edge-" 9007199254740992) = Some 9007199254740992%N
  /\ (Ident.make_id "edge-" 9007199254740992 = Ident.make_id "edge-" 41 ->
      9007199254740992%N = 41%N).
Proof.
  apply (identity_round_trip "edge-" 9007199254740992 41).
  - right. reflexivity.
  - vm_compute. discriminate.
  - vm_compute. discriminate.
Defined.

End NodeRegistryInvariants.

(** ** The editor keeps its graph well formed *)

Section EditorInvariants.

Import Editor.

Variable dagre_layout :
  list DAGNode -> list DAGEdge -> Layout.LayoutOptions ->
  option (string -> option Position).

Lemma includes_In (ids : list string) (x : string) :
  EdgeStore.includes ids x = true <-> In x ids.
Proof.
  unfold EdgeStore.includes. rewrite existsb_exists. split.
  - intros (y & Hy & Heq). apply String.eqb_eq in Heq. subst y. exact Hy.
  - intros H. exists x. split; [exact H|apply String.eqb_refl].
Qed.

Lemma frames_node_ids (nodes nodes' : list DAGNode) :
  map Layout.frame_of nodes' = map Layout.frame_of nodes ->
  map node_id nodes' = map node_id nodes.
Proof.
  intros H.
  assert (Hid : forall l, map node_id l = map (fun f => fst (fst f)) (map Layout.frame_of l)).
  { intros l. rewrite map_map. reflexivity. }
  rewrite !Hid, H. reflexivity.
Qed.

Lemma node_counter_above_ids (st st' : NodeStore.State) :
  map node_id (NodeStore.nodes st') = map node_id (NodeStore.nodes st) ->
  NodeStore.nodeIdCounter st' = NodeStore.nodeIdCounter st ->
  NodeStore.node_counter_above st -> NodeStore.node_counter_above st'.
Proof.
  intros Hids Hc Habove n k Hn Hk. rewrite Hc.
  assert (Hin : In (node_id n) (map node_id (NodeStore.nodes st))).
  { rewrite <- Hids. apply in_map, Hn. }
  apply in_map_iff in Hin as (m & Hm & Hin).
  apply (Habove m k Hin). unfold NodeStore.node_number in *. rewrite Hm. exact Hk.
Qed.

(** What the handlers maintain: the graph is well formed and the two
    counters are above the identities in use. *)
Let inv (st : State) : Prop :=
  NodeStore.node_counter_above (nodeManagement st)
  /\ EdgeStore.edge_counter_above (edgeManagement st)
  /\ well_formed st.

Lemma inv_mount : inv mount.
Proof.
  split; [apply node_counter_above_mount|]. split; [apply edge_counter_above_mount|].
  split; [constructor|]. split; [constructor|]. split; [intros e []|].
  split; [intros e []|]. split; [constructor|intros e1 e2 []].
Qed.

Lemma endpoints_kept (nodes nodes' : list DAGNode) (edges edges' : list DAGEdge) :
  (forall e, In e edges' -> In e edges) ->
  (forall e, In e edges' -> forall x, In x (map node_id nodes) ->
     x = edge_source e \/ x = edge_target e -> In x (map node_id nodes')) ->
  (forall e, In e edges ->
     In (edge_source e) (map node_id nodes) /\ In (edge_target e) (map node_id nodes)) ->
  forall e, In e edges' ->
    In (edge_source e) (map node_id nodes') /\ In (edge_target e) (map node_id nodes').
Proof.
  intros Hsub Hkeep Hend e He. destruct (Hend e (Hsub e He)) as [Hs Ht].
  split; [apply (Hkeep e He _ Hs)|apply (Hkeep e He _ Ht)]; auto.
Qed.

Lemma inv_addNode (random : R * R) (prompted : option string) (st : State) :
  inv st -> inv (addNode random prompted st).
Proof.
  intros (Hn & He & Hnd & Hed & Hend & Hsimple). unfold addNode.
  set (position := Geometry.findNonOverlappingPosition _ _ _).
  pose proof (node_counter_above_step (nodeManagement st)
                (NodeStore.OpAddNode None (Some position) prompted (0%R, 0%R)) Hn)
    as Hn'.
  pose proof (node_ids_step (nodeManagement st)
                (NodeStore.OpAddNode None (Some position) prompted (0%R, 0%R)) Hn Hnd)
    as Hnd'.
  simpl in Hn', Hnd'.
  destruct (NodeStore.addNode None (Some position) prompted (0%R, 0%R)
                              (nodeManagement st)) as [[newNode|] nm'] eqn:Hadd.
  - apply addNode_created in Hadd as (_ & Hnodes & _).
    split; [exact Hn'|]. split; [exact He|]. split; [exact Hnd'|].
    split; [exact Hed|]. split; [|exact Hsimple].
    cbn [nodeManagement edgeManagement]. rewrite Hnodes, map_app.
    intros e Hin. destruct (Hend e Hin) as [Hs Ht].
    split; apply in_or_app; left; assumption.
  - apply addNode_failed in Hadd. subst nm'.
    split; [exact Hn|]. split; [exact He|]. split; [exact Hnd|].
    split; [exact Hed|]. split; [exact Hend|exact Hsimple].
Qed.

Lemma inv_onEdgeCreate (s t : string) (st : State) :
  inv st -> inv (onEdgeCreate s t st).
Proof.
  intros (Hn & He & Hnd & Hed & Hend & Hsimple). unfold onEdgeCreate.
  set (nodes := NodeStore.nodes (nodeManagement st)) in *.
  pose proof (edge_counter_above_step (edgeManagement st)
                (EdgeStore.OpAddEdge nodes s t) He) as He'.
  pose proof (edge_ids_step (edgeManagement st)
                (EdgeStore.OpAddEdge nodes s t) He Hed) as Hed'.
  pose proof (simple_graph_step (edgeManagement st)
                (EdgeStore.OpAddEdge nodes s t) Hsimple) as Hsimple'.
  simpl in He', Hed', Hsimple'.
  split; [exact Hn|]. split; [exact He'|]. split; [exact Hnd|].
  split; [exact Hed'|]. split; [|exact Hsimple'].
  cbn [nodeManagement edgeManagement]. fold nodes.
  destruct (addEdge_cases nodes s t (edgeManagement st)) as [[_ ->]|[Hv ->]];
    [exact Hend|].
  apply validateEdge_valid_iff in Hv as (_ & _ & [Hs Ht] & _).
  simpl. intros e Hin. apply in_app_or in Hin as [Hin|[<-|[]]]; [apply Hend, Hin|].
  simpl. split; assumption.
Qed.

Lemma inv_same_ids (st : State) (nm' : NodeStore.State) :
  map node_id (NodeStore.nodes nm') = map node_id (NodeStore.nodes (nodeManagement st)) ->
  NodeStore.nodeIdCounter nm' = NodeStore.nodeIdCounter (nodeManagement st) ->
  inv st -> inv (mkEditor nm' (edgeManagement st) (selection st)).
Proof.
  intros Hids Hc (Hn & He & Hnd & Hed & Hend & Hsimple).
  split; [apply (node_counter_above_ids (nodeManagement st)); assumption|].
  split; [exact He|]. unfold well_formed. cbn [nodeManagement edgeManagement].
  rewrite Hids. split; [exact Hnd|]. split; [exact Hed|].
  split; [exact Hend|exact Hsimple].
Qed.

Lemma In_filter_ids (sel : list string) (nodes : list DAGNode) (x : string) :
  In x (map node_id nodes) -> EdgeStore.includes sel x = false ->
  In x (map node_id
          (List.filter (fun node => negb (EdgeStore.includes sel (node_id node))) nodes)).
Proof.
  intros Hin Hx. apply in_map_iff in Hin as (n & <- & Hn). apply in_map.
  apply filter_In. split; [exact Hn|]. rewrite Hx. reflexivity.
Qed.

Lemma inv_deleteSelectedItems (st : State) : inv st -> inv (deleteSelectedItems st).
Proof.
  intros Hinv. unfold deleteSelectedItems.
  set (selectedNodes := Selection.nodes (selection st)).
  set (selectedEdges := Selection.edges (selection st)).
  assert (H1 : inv (mkEditor
                      (if (0 <? length selectedNodes)%nat
                       then NodeStore.removeNodes selectedNodes (nodeManagement st)
                       else nodeManagement st)
                      (if (0 <? length selectedNodes)%nat
                       then EdgeStore.removeEdgesForNodes selectedNodes (edgeManagement st)
                       else edgeManagement st)
                      (selection st))).
  { destruct (0 <? length selectedNodes)%nat; [|destruct st; exact Hinv].
    destruct Hinv as (Hn & He & Hnd & Hed & Hend & Hsimple).
    split.
    { apply (node_counter_above_step _ (NodeStore.OpRemoveNodes selectedNodes) Hn). }
    split.
    { apply (edge_counter_above_step _ (EdgeStore.OpRemoveEdgesForNodes selectedNodes) He). }
    split.
    { apply (node_ids_step _ (NodeStore.OpRemoveNodes selectedNodes) Hn Hnd). }
    split.
    { apply (edge_ids_step _ (EdgeStore.OpRemoveEdgesForNodes selectedNodes) He Hed). }
    split.
    2:{ apply (simple_graph_step _ (EdgeStore.OpRemoveEdgesForNodes selectedNodes) Hsimple). }
    cbn [nodeManagement edgeManagement]. simpl.
    intros e Hin. apply filter_In in Hin as [Hin Hkeep].
    apply andb_true_iff in Hkeep as [Hs Ht]. apply negb_true_iff in Hs, Ht.
    destruct (Hend e Hin) as [Hes Het].
    split; apply In_filter_ids; assumption. }
  destruct (0 <? length selectedNodes)%nat.
  - destruct (0 <? length selectedEdges)%nat; [|exact H1].
    destruct H1 as (Hn & He & Hnd & Hed & Hend & Hsimple).
    split; [exact Hn|]. split.
    { apply (edge_counter_above_step _ (EdgeStore.OpRemoveEdges selectedEdges) He). }
    split; [exact Hnd|]. split.
    { apply (edge_ids_step _ (EdgeStore.OpRemoveEdges selectedEdges) He Hed). }
    split.
    2:{ apply (simple_graph_step _ (EdgeStore.OpRemoveEdges selectedEdges) Hsimple). }
    cbn [nodeManagement edgeManagement] in *. simpl.
    intros e Hin. apply filter_In in Hin as [Hin _]. apply Hend, Hin.
  - destruct (0 <? length selectedEdges)%nat; [|exact H1].
    destruct H1 as (Hn & He & Hnd & Hed & Hend & Hsimple).
    split; [exact Hn|]. split.
    { apply (edge_counter_above_step _ (EdgeStore.OpRemoveEdges selectedEdges) He). }
    split; [exact Hnd|]. split.
    { apply (edge_ids_step _ (EdgeStore.OpRemoveEdges selectedEdges) He Hed). }
    split.
    2:{ apply (simple_graph_step _ (EdgeStore.OpRemoveEdges selectedEdges) Hsimple). }
    cbn [nodeManagement edgeManagement] in *. simpl.
    intros e Hin. apply filter_In in Hin as [Hin _]. apply Hend, Hin.
Qed.

Lemma inv_step (st : State) (op : Op) : inv st -> inv (step dagre_layout st op).
Proof.
  intros Hinv.
  destruct op as [random prompted|s t|i p|type i multi| | | |fuel random size|confirmed];
    simpl.
  - apply inv_addNode, Hinv.
  - apply inv_onEdgeCreate, Hinv.
  - apply inv_same_ids; [|reflexivity|exact Hinv].
    apply (map_node_id_update (fun n => with_position n p)). reflexivity.
  - exact Hinv.
  - exact Hinv.
  - exact Hinv.
  - apply inv_deleteSelectedItems, Hinv.
  - unfold applyAutoLayout.
    destruct (Layout.applyBestLayout dagre_layout random fuel
                (NodeStore.nodes (nodeManagement st))
                (EdgeStore.edges (edgeManagement st)) (Some size))
      as [layoutedNodes|] eqn:Hl; [|exact Hinv].
    apply inv_same_ids; [|reflexivity|exact Hinv].
    apply frames_node_ids. apply frames_applyBestLayout in Hl. exact Hl.
  - destruct confirmed; [|exact Hinv].
    destruct Hinv as (Hn & He & _).
    split.
    { apply (node_counter_above_step _ NodeStore.OpClearNodes Hn). }
    split.
    { apply (edge_counter_above_step _ EdgeStore.OpClearEdges He). }
    split; [constructor|]. split; [constructor|]. split; [intros e []|].
    split; [intros e []|]. split; [constructor|intros e1 e2 []].
Qed.

Lemma inv_run (ops : list Op) : inv (run dagre_layout ops).
Proof.
  unfold run. apply fold_left_invariant; [apply inv_mount|].
  intros st op _. apply inv_step.
Qed.

(** X13: in every state the editor can reach from its empty start, node
    identities are pairwise distinct, edge identities are pairwise
    distinct, every edge joins two nodes that exist (deleting nodes
    takes their edges along), and the edges make up a simple graph. *)
Theorem editor_graph_well_formed (ops : list Op) :
  well_formed (run dagre_layout ops).
Proof. apply inv_run. Qed.

(** X14: in every state the editor can reach, the automatic layout
    returns: with fuel above the number of nodes [applyBestLayout] gives
    an array that differs from the nodes in positions only, and
    [applyAutoLayout] stores it. *)
Theorem editor_auto_layout_returns (ops : list Op) (random : nat -> R)
    (canvasSize : R * R) :
  let st := run dagre_layout ops in
  let nodes := NodeStore.nodes (nodeManagement st) in
  exists layoutedNodes,
    Layout.same_up_to_position nodes layoutedNodes
    /\ forall fuel, (length nodes < fuel)%nat ->
         Layout.applyBestLayout dagre_layout random fuel nodes
           (EdgeStore.edges (edgeManagement st)) (Some canvasSize)
         = Some layoutedNodes
         /\ applyAutoLayout dagre_layout fuel random canvasSize st
            = mkEditor (NodeStore.setNodes layoutedNodes (nodeManagement st))
                       (edgeManagement st) (selection st).
Proof.
  intros st nodes.
  destruct (inv_run ops) as (_ & _ & Hnd & _). fold st in Hnd. fold nodes in Hnd.
  destruct (applyBestLayout_returns dagre_layout random nodes
              (EdgeStore.edges (edgeManagement st)) (Some canvasSize) Hnd)
    as (out & Hout).
  exists out. split.
  - apply same_up_to_position_frames.
    apply (frames_applyBestLayout dagre_layout random (Layout.tree_depth_bound nodes)
             nodes out (EdgeStore.edges (edgeManagement st)) (Some canvasSize)).
    apply Hout. reflexivity.
  - intros fuel Hfuel.
    assert (H : Layout.applyBestLayout dagre_layout random fuel nodes
                  (EdgeStore.edges (edgeManagement st)) (Some canvasSize) = Some out).
    { apply Hout. unfold Layout.tree_depth_bound. lia. }
    split; [exact H|]. unfold applyAutoLayout. fold st. fold nodes. rewrite H.
    reflexivity.
Qed.

Lemma filter_all_true {A : Type} (f : A -> bool) (l : list A) :
  (forall x, In x l -> f x = true) -> List.filter f l = l.
Proof.
  induction l as [|a l IH]; intros H; simpl; [reflexivity|].
  rewrite (H a (or_introl eq_refl)). f_equal. apply IH. intros x Hx. apply H.
  right. exact Hx.
Qed.

Lemma filter_twice {A : Type} (f g : A -> bool) (l : list A) :
  List.filter g (List.filter f l) = List.filter (fun x => f x && g x) l.
Proof.
  induction l as [|a l IH]; simpl; [reflexivity|].
  destruct (f a); simpl; [|exact IH]. destruct (g a); [f_equal|]; exact IH.
Qed.

Lemma includes_nil_length (ids : list string) (x : string) :
  (0 <? length ids)%nat = false -> EdgeStore.includes ids x = false.
Proof. destruct ids; [reflexivity|discriminate]. Qed.

(** X15: [deleteSelectedItems] removes exactly the selected nodes, the
    edges that touch a selected node and the selected edges; what
    remains keeps its order, the counters are left alone and the
    selection ends up empty. *)
Theorem deleteSelectedItems_cascade (st : State) :
  let selectedNodes := Selection.nodes (selection st) in
  let selectedEdges := Selection.edges (selection st) in
  let st' := deleteSelectedItems st in
  NodeStore.nodes (nodeManagement st')
  = List.filter (fun node => negb (EdgeStore.includes selectedNodes (node_id node)))
                (NodeStore.nodes (nodeManagement st))
  /\ EdgeStore.edges (edgeManagement st')
     = List.filter
         (fun edge => negb (EdgeStore.includes selectedNodes (edge_source edge))
                      && negb (EdgeStore.includes selectedNodes (edge_target edge))
                      && negb (EdgeStore.includes selectedEdges (edge_id edge)))
         (EdgeStore.edges (edgeManagement st))
  /\ NodeStore.nodeIdCounter (nodeManagement st')
     = NodeStore.nodeIdCounter (nodeManagement st)
  /\ EdgeStore.edgeIdCounter (edgeManagement st')
     = EdgeStore.edgeIdCounter (edgeManagement st)
  /\ selection st' = Selection.mkSelection [] [].
Proof.
  intros selectedNodes selectedEdges st'. unfold st', deleteSelectedItems.
  fold selectedNodes. fold selectedEdges.
  destruct (0 <? length selectedNodes)%nat eqn:Hn;
    destruct (0 <? length selectedEdges)%nat eqn:He;
    cbn [nodeManagement edgeManagement selection NodeStore.removeNodes
         EdgeStore.removeEdgesForNodes EdgeStore.removeEdges
         NodeStore.nodes EdgeStore.edges NodeStore.nodeIdCounter
         EdgeStore.edgeIdCounter];
    (split; [|split; [|split; [reflexivity|split; reflexivity]]]).
  - reflexivity.
  - apply filter_twice.
  - reflexivity.
  - apply filter_ext. intros e.
    rewrite (includes_nil_length selectedEdges _ He). rewrite andb_true_r. reflexivity.
  - symmetry. apply filter_all_true. intros n _.
    rewrite (includes_nil_length selectedNodes _ Hn). reflexivity.
  - apply filter_ext. intros e.
    rewrite !(includes_nil_length selectedNodes _ Hn). reflexivity.
  - symmetry. apply filter_all_true. intros n _.
    rewrite (includes_nil_length selectedNodes _ Hn). reflexivity.
  - symmetry. apply filter_all_true. intros e _.
    rewrite !(includes_nil_length selectedNodes _ Hn).
    rewrite (includes_nil_length selectedEdges _ He). reflexivity.
Qed.

Lemma toggle_NoDup (ids : list string) (x : string) :
  List.NoDup ids -> List.NoDup (Selection.toggle ids x).
Proof.
  intros Hnd. unfold Selection.toggle.
  destruct (EdgeStore.includes ids x) eqn:Hx.
  - apply List.NoDup_filter, Hnd.
  - rewrite <- (map_id (ids ++ [x])). apply NoDup_map_snoc.
    + rewrite map_id. exact Hnd.
    + rewrite map_id. intros Hin. apply includes_In in Hin. congruence.
Qed.

Lemma selection_distinct_step (st : State) (op : Op) :
  well_formed st ->
  List.NoDup (Selection.nodes (selection st))
  /\ List.NoDup (Selection.edges (selection st)) ->
  List.NoDup (Selection.nodes (selection (step dagre_layout st op)))
  /\ List.NoDup (Selection.edges (selection (step dagre_layout st op))).
Proof.
  intros (Hnd & Hed & _) [Hsn Hse].
  destruct op as [random prompted|s t|i p|type i multi| | | |fuel random size|confirmed];
    simpl.
  - unfold addNode.
    destruct (NodeStore.addNode _ _ _ _ _) as [[newNode|] nm']; simpl.
    + split; [constructor; [intros []|constructor]|constructor].
    + split; assumption.
  - split; assumption.
  - split; assumption.
  - destruct type, multi; simpl.
    + split; [apply toggle_NoDup, Hsn|exact Hse].
    + split; [constructor; [intros []|constructor]|constructor].
    + split; [exact Hsn|apply toggle_NoDup, Hse].
    + split; [constructor|constructor; [intros []|constructor]].
  - split; constructor.
  - split; assumption.
  - unfold deleteSelectedItems.
    destruct (if (0 <? length (Selection.nodes (selection st)))%nat then _ else _).
    simpl. split; constructor.
  - unfold applyAutoLayout. destruct (Layout.applyBestLayout _ _ _ _ _ _); simpl;
      split; assumption.
  - destruct confirmed; simpl; [split; constructor|split; assumption].
Qed.

(** The selection never lists an identity twice. *)
Lemma editor_selection_distinct (ops : list Op) :
  let st := run dagre_layout ops in
  List.NoDup (Selection.nodes (selection st))
  /\ List.NoDup (Selection.edges (selection st)).
Proof.
  unfold run.
  apply (fold_left_invariant
           (fun st => inv st
                      /\ List.NoDup (Selection.nodes (selection st))
                      /\ List.NoDup (Selection.edges (selection st)))).
  - split; [apply inv_mount|]. split; constructor.
  - intros st op _ [Hinv Hsel]. split; [apply inv_step, Hinv|].
    apply selection_distinct_step; [apply Hinv|exact Hsel].
Qed.

End EditorInvariants.

(** ** Geometry helpers *)

Section GeometryFacts.

Import Geometry.
Local Open Scope R_scope.

Lemma ltb_true_iff (a b : R) : JS.ltb a b = true <-> a < b.
Proof. unfold JS.ltb. destruct (Rlt_dec a b); split; intros; try discriminate; auto; contradiction. Qed.

Lemma ltb_false_iff (a b : R) : JS.ltb a b = false <-> b <= a.
Proof.
  unfold JS.ltb. destruct (Rlt_dec a b); split; intros; try discriminate; try lra; auto.
Qed.

Lemma leb_true_iff (a b : R) : JS.leb a b = true <-> a <= b.
Proof. unfold JS.leb. destruct (Rle_dec a b); split; intros; try discriminate; auto; contradiction. Qed.

Lemma doRectsOverlap_true (r1 r2 : Rect) :
  doRectsOverlap r1 r2 = true
  <-> rect_x r2 <= rect_x r1 + rect_width r1
      /\ rect_x r1 <= rect_x r2 + rect_width r2
      /\ rect_y r2 <= rect_y r1 + rect_height r1
      /\ rect_y r1 <= rect_y r2 + rect_height r2.
Proof.
  unfold doRectsOverlap. rewrite negb_true_iff, !orb_false_iff, !ltb_false_iff.
  tauto.
Qed.

Lemma isPointInRect_true (p : Position) (r : Rect) :
  isPointInRect p r = true
  <-> rect_x r <= pos_x p <= rect_x r + rect_width r
      /\ rect_y r <= pos_y p <= rect_y r + rect_height r.
Proof.
  unfold isPointInRect. rewrite !andb_true_iff, !leb_true_iff. tauto.
Qed.

(** X16: [doRectsOverlap] is symmetric, and for rectangles of
    non-negative size it holds exactly when some point lies in both
    (sides included, so rectangles that touch overlap). *)
Theorem doRectsOverlap_common_point (r1 r2 : Rect) :
  doRectsOverlap r1 r2 = doRectsOverlap r2 r1
  /\ (0 <= rect_width r1 -> 0 <= rect_height r1 ->
      0 <= rect_width r2 -> 0 <= rect_height r2 ->
      (doRectsOverlap r1 r2 = true
       <-> exists p, isPointInRect p r1 = true /\ isPointInRect p r2 = true)).
Proof.
  split.
  - destruct (doRectsOverlap r1 r2) eqn:H12; destruct (doRectsOverlap r2 r1) eqn:H21;
      try reflexivity; exfalso.
    + apply doRectsOverlap_true in H12.
      assert (H : doRectsOverlap r2 r1 = true) by (apply doRectsOverlap_true; tauto).
      congruence.
    + apply doRectsOverlap_true in H21.
      assert (H : doRectsOverlap r1 r2 = true) by (apply doRectsOverlap_true; tauto).
      congruence.
  - intros Hw1 Hh1 Hw2 Hh2. rewrite doRectsOverlap_true. split.
    + intros (Ha & Hb & Hc & Hd).
      exists (mkPosition (Rmax (rect_x r1) (rect_x r2)) (Rmax (rect_y r1) (rect_y r2))).
      rewrite !isPointInRect_true. simpl.
      pose proof (Rmax_l (rect_x r1) (rect_x r2)).
      pose proof (Rmax_r (rect_x r1) (rect_x r2)).
      pose proof (Rmax_l (rect_y r1) (rect_y r2)).
      pose proof (Rmax_r (rect_y r1) (rect_y r2)).
      assert (Rmax (rect_x r1) (rect_x r2) <= rect_x r1 + rect_width r1)
        by (apply Rmax_lub; lra).
      assert (Rmax (rect_x r1) (rect_x r2) <= rect_x r2 + rect_width r2)
        by (apply Rmax_lub; lra).
      assert (Rmax (rect_y r1) (rect_y r2) <= rect_y r1 + rect_height r1)
        by (apply Rmax_lub; lra).
      assert (Rmax (rect_y r1) (rect_y r2) <= rect_y r2 + rect_height r2)
        by (apply Rmax_lub; lra).
      lra.
    + intros (p & H1 & H2). apply isPointInRect_true in H1, H2. lra.
Qed.

(** *** Bounding box *)





(** *** Closest node *)

(** X18: [findClosestNode] returns [null] only for an empty array;
    otherwise the node it returns has a centre at least as close to the
    point as every other node, and strictly closer than every node
    before it in the array (the first of the closest wins). *)
Theorem findClosestNode_nearest (point : Position) (nodes : list DAGNode) :
  let distance node := calculateDistance point (getNodeCenter node) in
  match findClosestNode point nodes with
  | None => nodes = []
  | Some closestNode =>
      exists i,
        nodes !! i = Some closestNode
        /\ (forall node, In node nodes -> distance closestNode <= distance node)
        /\ (forall j node, (j < i)%nat -> nodes !! j = Some node ->
              distance closestNode < distance node)
  end.
Proof.
  intros distance. destruct nodes as [|first rest]; [reflexivity|].
  unfold findClosestNode. fold (distance first).
  set (f := fun (closest : DAGNode * R) node =>
              let distance0 := calculateDistance point (getNodeCenter node) in
              if JS.ltb distance0 (snd closest) then (node, distance0) else closest).
  pose proof (fold_left_prefix
    (fun pre (closest : DAGNode * R) =>
       snd closest = distance (fst closest)
       /\ exists i,
            (first :: pre) !! i = Some (fst closest)
            /\ (forall node, In node (first :: pre) ->
                  distance (fst closest) <= distance node)
            /\ (forall j node, (j < i)%nat -> (first :: pre) !! j = Some node ->
                  distance (fst closest) < distance node))
    f rest (first, distance first)) as Hfold.
  cbv beta in Hfold. destruct Hfold as [_ (i & Hi & Hmin & Hfirst)].
  - split; [reflexivity|]. exists 0%nat. simpl. split; [reflexivity|].
    split; [intros node [<-|[]]; lra|]. intros j node Hj. lia.
  - intros pre b [c d] [Hd (i & Hi & Hmin & Hfirst)]. simpl in Hd, Hi, Hmin, Hfirst.
    subst d. unfold f. cbn [snd]. fold (distance b).
    destruct (JS.ltb (distance b) (distance c)) eqn:Hlt; cbn [fst snd].
    + apply ltb_true_iff in Hlt. split; [reflexivity|].
      exists (S (length pre)). split.
      { change (first :: pre ++ [b])%list with ((first :: pre) ++ [b])%list.
        rewrite lookup_app_r by (simpl; lia).
        replace (S (length pre) - length (first :: pre))%nat with 0%nat by (simpl; lia).
        reflexivity. }
      split.
      { intros node [<-|Hin].
        - specialize (Hmin first (or_introl eq_refl)). lra.
        - apply in_app_or in Hin as [Hin|[<-|[]]]; [|lra].
          specialize (Hmin node (or_intror Hin)). lra. }
      { intros j node Hj Hnode.
        change (first :: pre ++ [b])%list with ((first :: pre) ++ [b])%list in Hnode.
        rewrite lookup_app_l in Hnode by (simpl; lia).
        assert (Hin : In node (first :: pre)).
        { apply list_elem_of_In, list_elem_of_lookup. exists j. exact Hnode. }
        specialize (Hmin node Hin). lra. }
    + apply ltb_false_iff in Hlt. split; [reflexivity|].
      exists i. split.
      { change (first :: pre ++ [b])%list with ((first :: pre) ++ [b])%list.
        apply lookup_app_l_Some, Hi. }
      split.
      { intros node [<-|Hin].
        - apply Hmin. left. reflexivity.
        - apply in_app_or in Hin as [Hin|[<-|[]]]; [|lra].
          apply Hmin. right. exact Hin. }
      { intros j node Hj Hnode. apply (Hfirst j node Hj).
        change (first :: pre ++ [b])%list with ((first :: pre) ++ [b])%list in Hnode.
        apply lookup_lt_Some in Hi.
        rewrite lookup_app_l in Hnode by lia. exact Hnode. }
  - exists i. split; [exact Hi|]. split; [exact Hmin|exact Hfirst].
Qed.

(** *** Arrow head *)


End GeometryFacts.

(** ** Canvas view state *)

Section CanvasFacts.

Import Geometry Canvas.
Local Open Scope R_scope.







End CanvasFacts.

(** ** Fit to view *)

Section FitToView.

Import Geometry Layout.
Local Open Scope R_scope.



End FitToView.

(** ** Overlap resolver *)

Section Resolver.

Import Geometry Layout.
Local Open Scope R_scope.

Lemma index_pairs_lt (n i j : nat) :
  In (i, j) (index_pairs n) -> (i < j < n)%nat.
Proof.
  unfold index_pairs. intros H. apply in_flat_map in H as (i' & Hi & H).
  apply in_map_iff in H as (j' & Heq & Hj). injection Heq as -> ->.
  apply in_seq in Hi, Hj. lia.
Qed.

(** X23: [resolveNodeOverlaps] returns the array unchanged when every
    two nodes are at least [NODE_WIDTH + minSpacing] apart. *)
Theorem resolveNodeOverlaps_keeps_spaced_nodes (nodes : list DAGNode)
    (minSpacing : R) :
  (forall i j n1 n2, (i < j)%nat -> nodes !! i = Some n1 -> nodes !! j = Some n2 ->
     NODE_WIDTH + minSpacing
     <= calculateDistance (node_position n1) (node_position n2)) ->
  resolveNodeOverlaps nodes (Some minSpacing) = nodes.
Proof.
  intros Hfar. apply resolveNodeOverlaps_far. intros i j n1 n2 Hin H1 H2.
  apply index_pairs_lt in Hin. apply ltb_false_iff.
  apply (Hfar i j n1 n2); [lia|exact H1|exact H2].
Qed.

Lemma resolveNodeOverlaps_keeps_spaced_nodes_witness :
  let nodes := [mkNode "node-1" "a" (mkPosition 0 0) false;
                mkNode "node-2" "b" (mkPosition 200 0) false] in
  resolveNodeOverlaps nodes (Some 50) = nodes.
Proof.
  apply (resolveNodeOverlaps_keeps_spaced_nodes
           [mkNode "node-1" "a" (mkPosition 0 0) false;
            mkNode "node-2" "b" (mkPosition 200 0) false] 50).
  intros i j n1 n2 Hlt H1 H2.
  destruct i as [|[|i]]; destruct j as [|[|j]]; simpl in H1, H2;
    try discriminate; try lia.
  injection H1 as <-. injection H2 as <-. unfold calculateDistance, NODE_WIDTH. simpl.
  replace ((200 - 0) * (200 - 0) + (0 - 0) * (0 - 0)) with (Rsqr 200)
    by (unfold Rsqr; ring).
  rewrite sqrt_Rsqr; lra.
Defined.

End Resolver.

(** ** Grid layout: rows and columns *)

Section Grid.

Import Geometry Layout.
Local Open Scope R_scope.












End Grid.

(** ** Tree layout: when it is chosen, when it returns, when it cannot *)

Section TreeShape.

Import Geometry Layout.

Variable nodes : list DAGNode.
Variable edges : list DAGEdge.

Let ids := map node_id nodes.

(** The in-degrees of distinct identities add up to at most the number
    of edges that point at one of them. *)
Lemma sum_indegree_targets (l : list string) :
  List.NoDup l ->
  (list_sum (map (indegree edges) l)
   <= length (List.filter (fun e => EdgeStore.includes l (edge_target e)) edges))%nat.
Proof.
  intros Hnd. induction edges as [|e es IH]; simpl.
  - clear Hnd. induction l as [|k l' IHl]; simpl; [lia|]. exact IHl.
  - assert (Hsplit : list_sum (map (indegree (e :: es)) l)
                     = (list_sum (map (fun k => if String.eqb (edge_target e) k
                                                then 1 else 0)%nat l)
                        + list_sum (map (indegree es) l))%nat).
    { clear. induction l as [|k l' IHl]; simpl; [reflexivity|].
      rewrite IHl, indegree_cons. lia. }
    rewrite Hsplit. pose proof (list_sum_indicator (edge_target e) l Hnd) as H1.
    destruct (EdgeStore.includes l (edge_target e)) eqn:Hin; simpl; [lia|].
    assert (Hz : list_sum (map (fun k => if String.eqb (edge_target e) k
                                         then 1 else 0)%nat l) = 0%nat).
    { clear -Hin. unfold EdgeStore.includes in Hin.
      induction l as [|k l' IHl]; simpl in *; [reflexivity|].
      apply orb_false_iff in Hin as [Hk Hl]. rewrite Hk. apply IHl, Hl. }
    lia.
Qed.

Lemma filter_length_all {A : Type} (f : A -> bool) (l : list A) :
  length (List.filter f l) = length l -> forall x, In x l -> f x = true.
Proof.
  induction l as [|a l IH]; simpl; intros Hlen x Hx; [destruct Hx|].
  pose proof (List.filter_length_le f l) as Hle.
  destruct (f a) eqn:Ha; simpl in Hlen; [|lia].
  destruct Hx as [<-|Hx]; [exact Ha|]. apply IH; [lia|exact Hx].
Qed.

(** X27: when the strategy selection answers "tree" for nodes with
    distinct identities, there are at least five nodes and one edge
    fewer, one node has no incoming edge, every other node has exactly
    one, and every edge points at a node. *)
Theorem tree_strategy_means_in_forest :
  getSuggestedLayout nodes edges = tree -> List.NoDup ids ->
  (5 <= length nodes)%nat
  /\ length edges = (length nodes - 1)%nat
  /\ (exists root, In root ids /\ indegree edges root = 0%nat
        /\ forall k, In k ids -> k <> root -> indegree edges k = 1%nat)
  /\ (forall e, In e edges -> In (edge_target e) ids).
Proof.
  intros Ht Hnd.
  destruct (getSuggestedLayout_tree nodes edges Ht) as (Hroots & Hedges & Hlen).
  rewrite (zero_count_entries nodes edges Hnd) in Hroots. fold ids in Hroots.
  split; [exact Hlen|]. split; [exact Hedges|]. split.
  - destruct (List.filter (fun k => (indegree edges k =? 0)%nat) ids)
      as [|root [|? ?]] eqn:Hf; try discriminate.
    assert (Hroot : In root (List.filter (fun k => (indegree edges k =? 0)%nat) ids))
      by (rewrite Hf; left; reflexivity).
    apply filter_In in Hroot as [Hin Hz]. apply Nat.eqb_eq in Hz.
    exists root. split; [exact Hin|]. split; [exact Hz|].
    intros k Hk Hne.
    pose proof (tree_indegree_le_1 nodes edges Ht Hnd k Hk) as Hle.
    destruct (indegree edges k) as [|[|d]] eqn:Hd; [|reflexivity|lia].
    exfalso. apply Hne.
    assert (Hkf : In k (List.filter (fun k => (indegree edges k =? 0)%nat) ids)).
    { apply filter_In. split; [exact Hk|]. rewrite Hd. reflexivity. }
    rewrite Hf in Hkf. destruct Hkf as [<-|[]]. reflexivity.
  - intros e He.
    pose proof (sum_indegree_targets ids Hnd) as H1.
    pose proof (length_le_sum_zero edges ids) as H2.
    pose proof (List.filter_length_le
                  (fun e => EdgeStore.includes ids (edge_target e)) edges) as H3.
    unfold ids in H2 at 1. rewrite length_map in H2.
    assert (Hall : length (List.filter
                             (fun e => EdgeStore.includes ids (edge_target e)) edges)
                   = length edges) by lia.
    pose proof (filter_length_all _ edges Hall e He) as Hin. simpl in Hin.
    unfold EdgeStore.includes in Hin. apply existsb_exists in Hin as (k & Hk & Heq).
    apply String.eqb_eq in Heq. subst k. exact Hk.
Qed.

End TreeShape.

Section TreeVerdicts.

Import Geometry Layout.

Lemma tree_strategy_means_in_forest_witness :
  let node i := mkNode i i (mkPosition 0 0) false in
  let nodes := [node "n1"; node "n2"; node "n3"; node "n4"; node "n5"] in
  let edges := [mkEdge "edge-1" "n1" "n2" false; mkEdge "edge-2" "n1" "n3" false;
                mkEdge "edge-3" "n2" "n4" false; mkEdge "edge-4" "n2" "n5" false] in
  (5 <= length nodes)%nat
  /\ length edges = (length nodes - 1)%nat
  /\ (exists root, In root (map node_id nodes) /\ indegree edges root = 0%nat
        /\ forall k, In k (map node_id nodes) -> k <> root ->
             indegree edges k = 1%nat)
  /\ (forall e, In e edges -> In (edge_target e) (map node_id nodes)).
Proof.
  intros node nodes edges. apply (tree_strategy_means_in_forest nodes edges).
  - reflexivity.
  - simpl. repeat (apply List.NoDup_cons; [simpl; intuition discriminate|]).
    apply List.NoDup_nil.
Defined.

(** X28: [calculateTreeLayout] returns, with fuel above the number of
    nodes, whenever no node has more than one incoming edge; the result
    differs from the nodes in positions only. *)
Theorem calculateTreeLayout_returns_on_forests (nodes : list DAGNode)
    (edges : list DAGEdge) (dir : TreeDirection) (fuel : nat) :
  (forall k, In k (map node_id nodes) -> (indegree edges k <= 1)%nat) ->
  (length nodes < fuel)%nat ->
  exists out, calculateTreeLayout fuel nodes edges dir = Some out
              /\ same_up_to_position nodes out.
Proof.
  intros Hdeg Hfuel.
  assert (H : exists out, calculateTreeLayout fuel nodes edges dir = Some out).
  { unfold calculateTreeLayout.
    destruct (length nodes =? 0)%nat; [eauto|].
    destruct (rootNodes (incomingEdges nodes edges) nodes) as [|rootNode roots] eqn:Hr;
      [eauto|].
    destruct (subtree_returns nodes edges Hdeg dir fuel (node_id rootNode) [] 0 0 1 ∅)
      as ([w positions] & ->).
    - apply List.NoDup_cons_iff. split; [intros []|constructor].
    - intros x [].
    - simpl. apply (root_indegree nodes edges). rewrite Hr. left. reflexivity.
    - rewrite length_map. simpl. lia.
    - eauto. }
  destruct H as (out & Hout). exists out. split; [exact Hout|].
  apply same_up_to_position_frames. apply (frames_tree fuel nodes out edges dir Hout).
Qed.

Lemma calculateTreeLayout_returns_on_forests_witness :
  let node i := mkNode i i (mkPosition 0 0) false in
  let nodes := [node "a"; node "b"; node "c"] in
  let edges := [mkEdge "edge-1" "a" "b" false; mkEdge "edge-2" "a" "c" false] in
  exists out, calculateTreeLayout 4 nodes edges vertical = Some out
              /\ same_up_to_position nodes out.
Proof.
  intros node nodes edges.
  apply (calculateTreeLayout_returns_on_forests nodes edges vertical 4).
  - intros k [<-|[<-|[<-|[]]]]; vm_compute; lia.
  - simpl. lia.
Defined.

(** A child that never returns keeps the loop over the children from
    returning. *)
Lemma subtree_children_none
    (rec : string -> nat -> nat -> nat -> gmap string Position ->
           option (nat * gmap string Position))
    (children : list string) (c : string) :
  In c children ->
  (forall level sib sc positions, rec c level sib sc positions = None) ->
  forall level sc tw positions,
    subtree_children rec children level sc tw positions = None.
Proof.
  intros Hin Hc. induction children as [|x children IH]; [destruct Hin|].
  intros level sc tw positions. simpl.
  destruct Hin as [->|Hin]; [rewrite Hc; reflexivity|].
  destruct (rec x level tw sc positions) as [[w positions']|]; [|reflexivity].
  apply IH, Hin.
Qed.

(** Every edge that leaves a node is recorded in [outgoingEdges]. *)
Lemma outgoing_edges (nodes : list DAGNode) (edges : list DAGEdge) (e : DAGEdge) :
  In (edge_source e) (map node_id nodes) -> In e edges ->
  In (edge_target e) (default [] (outgoingEdges nodes edges !! edge_source e)).
Proof.
  intros Hsrc. unfold outgoingEdges.
  apply (fold_left_prefix
           (fun pre (m : gmap string (list string)) =>
              (exists l, m !! edge_source e = Some l)
              /\ (In e pre -> In (edge_target e) (default [] (m !! edge_source e))))).
  - split; [|intros []]. exists []. apply init_adjacency_In, Hsrc.
  - intros pre e0 m [(l & Hl) IH]. unfold push_if_present.
    destruct (m !! edge_source e0) as [l0|] eqn:Hm.
    + destruct (decide (edge_source e0 = edge_source e)) as [Heq|Hne].
      * rewrite Heq, lookup_insert_eq. rewrite Heq, Hl in Hm. injection Hm as <-.
        split; [eauto|]. intros Hin. simpl.
        apply in_app_or in Hin as [Hin|[<-|[]]].
        -- apply in_or_app. left. specialize (IH Hin). rewrite Hl in IH. exact IH.
        -- apply in_or_app. right. left. reflexivity.
      * rewrite lookup_insert_ne by exact Hne. split; [eauto|].
        intros Hin. apply in_app_or in Hin as [Hin|[<-|[]]]; [apply IH, Hin|].
        contradiction.
    + split; [eauto|]. intros Hin. apply in_app_or in Hin as [Hin|[<-|[]]];
        [apply IH, Hin|]. rewrite Hl in Hm. discriminate.
Qed.

Lemma subtree_never_returns (nodes : list DAGNode) (edges : list DAGEdge)
    (dir : TreeDirection) (fuel : nat) :
  let follows u c := In u (map node_id nodes) /\ Validation.edge_rel edges u c in
  forall u v, rtc follows u v -> tc follows v v ->
    forall level sib sc positions,
      calculateSubtreePositions fuel (outgoingEdges nodes edges) dir u
                                level sib sc positions = None.
Proof.
  intros follows. induction fuel as [|fuel IH]; intros u v Huv Hvv level sib sc positions;
    [reflexivity|].
  assert (Hchild : exists c, follows u c /\ rtc follows c v).
  { apply rtc_inv in Huv. destruct Huv as [->|(c & Huc & Hcv)]; [|eauto].
    inversion Hvv as [? ? Hvc|? c ? Hvc Hcv]; subst.
    - exists v. split; [exact Hvc|constructor].
    - exists c. split; [exact Hvc|apply tc_rtc, Hcv]. }
  destruct Hchild as (c & [Hu (e & He & Hs & Ht)] & Hcv).
  assert (Hin : In c (default [] (outgoingEdges nodes edges !! u))).
  { subst u c. apply outgoing_edges; [exact Hu|exact He]. }
  cbn [calculateSubtreePositions].
  destruct (default [] (outgoingEdges nodes edges !! u)) as [|first rest] eqn:Hch;
    [destruct Hin|].
  rewrite (subtree_children_none _ (first :: rest) c Hin); [reflexivity|].
  intros level' sib' sc' positions'. apply (IH c v Hcv Hvv).
Qed.

(** X29: [calculateTreeLayout] never returns, whatever the fuel, when a
    cycle can be reached from the first root along edges that leave from
    nodes: in the source the recursion overflows the call stack. *)
Theorem calculateTreeLayout_overflows_on_reachable_cycle (nodes : list DAGNode)
    (edges : list DAGEdge) (dir : TreeDirection) (rootNode : DAGNode)
    (roots : list DAGNode) (v : string) :
  let follows u c := In u (map node_id nodes) /\ Validation.edge_rel edges u c in
  rootNodes (incomingEdges nodes edges) nodes = rootNode :: roots ->
  rtc follows (node_id rootNode) v -> tc follows v v ->
  forall fuel, calculateTreeLayout fuel nodes edges dir = None.
Proof.
  intros follows Hroots Hreach Hcycle fuel. unfold calculateTreeLayout.
  destruct nodes as [|n ns]; [discriminate|]. cbn [length Nat.eqb].
  rewrite Hroots.
  rewrite (subtree_never_returns (n :: ns) edges dir fuel _ v Hreach Hcycle).
  reflexivity.
Qed.

Lemma calculateTreeLayout_overflows_on_reachable_cycle_witness :
  let node i := mkNode i i (mkPosition 0 0) false in
  let nodes := [node "r"; node "a"; node "b"] in
  let edges := [mkEdge "edge-1" "r" "a" false; mkEdge "edge-2" "a" "b" false;
                mkEdge "edge-3" "b" "a" false] in
  calculateTreeLayout 100 nodes edges vertical = None.
Proof.
  intros node nodes edges.
  apply (calculateTreeLayout_overflows_on_reachable_cycle
           nodes edges vertical (node "r") [] "a").
  - vm_compute. reflexivity.
  - eapply rtc_l; [|apply rtc_refl]. split; [simpl; auto|].
    exists (mkEdge "edge-1" "r" "a" false). simpl. auto.
  - eapply tc_l; [|apply tc_once].
    + split; [simpl; auto|]. exists (mkEdge "edge-2" "a" "b" false). simpl. auto.
    + split; [simpl; auto|]. exists (mkEdge "edge-3" "b" "a" false). simpl. auto.
Defined.

End TreeVerdicts.

(** ** Hierarchical layout: the levels follow the edges *)

Section Layering.

Import Layout.

Variable nodes : list DAGNode.
Variable edges : list DAGEdge.

Let ids := map node_id nodes.
Let incoming := incomingEdges nodes edges.
Let outgoing := outgoingEdges nodes edges.
Let U := bfs_universe nodes edges.

(** Every edge into a node is recorded in [incomingEdges]. *)
Lemma incoming_edges (e : DAGEdge) :
  In (edge_target e) ids -> In e edges ->
  In (edge_source e) (default [] (incoming !! edge_target e)).
Proof.
  intros Htgt. unfold incoming, incomingEdges.
  apply (fold_left_prefix
           (fun pre (m : gmap string (list string)) =>
              (exists l, m !! edge_target e = Some l)
              /\ (In e pre -> In (edge_source e) (default [] (m !! edge_target e))))).
  - split; [|intros []]. exists []. apply init_adjacency_In, Htgt.
  - intros pre e0 m [(l & Hl) IH]. unfold push_if_present.
    destruct (m !! edge_target e0) as [l0|] eqn:Hm.
    + destruct (decide (edge_target e0 = edge_target e)) as [Heq|Hne].
      * rewrite Heq, lookup_insert_eq. rewrite Heq, Hl in Hm. injection Hm as <-.
        split; [eauto|]. intros Hin. simpl.
        apply in_app_or in Hin as [Hin|[<-|[]]].
        -- apply in_or_app. left. specialize (IH Hin). rewrite Hl in IH. exact IH.
        -- apply in_or_app. right. left. reflexivity.
      * rewrite lookup_insert_ne by exact Hne. split; [eauto|].
        intros Hin. apply in_app_or in Hin as [Hin|[<-|[]]]; [apply IH, Hin|].
        contradiction.
    + split; [eauto|]. intros Hin. apply in_app_or in Hin as [Hin|[<-|[]]];
        [apply IH, Hin|]. rewrite Hl in Hm. discriminate.
Qed.

(** Every array of [incomingEdges] holds sources of edges into its key. *)
Lemma incoming_sources (v p : string) :
  In p (default [] (incoming !! v)) ->
  exists e, In e edges /\ edge_source e = p /\ edge_target e = v.
Proof.
  unfold incoming, incomingEdges. revert v p.
  apply (fold_left_invariant
           (fun m : gmap string (list string) =>
              forall v p, In p (default [] (m !! v)) ->
                exists e, In e edges /\ edge_source e = p /\ edge_target e = v)).
  - intros v p Hp. destruct (init_adjacency nodes !! v) as [l|] eqn:Hl; [|destruct Hp].
    apply init_adjacency_lookup in Hl as [-> _]. destruct Hp.
  - intros m e He IH v p Hp. unfold push_if_present in Hp.
    destruct (m !! edge_target e) as [l0|] eqn:Hm; [|apply IH, Hp].
    destruct (decide (edge_target e = v)) as [Heq|Hne].
    + subst v. rewrite lookup_insert_eq in Hp. simpl in Hp.
      apply in_app_or in Hp as [Hp|[<-|[]]]; [|exists e; auto].
      apply IH. rewrite Hm. exact Hp.
    + rewrite lookup_insert_ne in Hp by exact Hne. apply IH, Hp.
Qed.

Lemma ordered_add_elem (s : list string) (x y : string) :
  y ∈ ordered_add s x <-> y ∈ s \/ y = x.
Proof.
  unfold ordered_add. case_bool_decide as Hx.
  - split; [auto|]. intros [H| ->]; assumption.
  - rewrite elem_of_app, list_elem_of_singleton. reflexivity.
Qed.

(** The next level: what it holds, and what it cannot miss. *)
Lemma nextLevel_spec (st : BfsState) :
  let visited' := visited (bfs_step incoming outgoing st) in
  (forall x p, x ∈ currentLevel (bfs_step incoming outgoing st) ->
     In p (default [] (incoming !! x)) -> p ∈ visited')
  /\ (forall nodeId childId,
        nodeId ∈ currentLevel st ->
        In childId (default [] (outgoing !! nodeId)) ->
        childId ∉ visited' ->
        (forall p, In p (default [] (incoming !! childId)) -> p ∈ visited') ->
        childId ∈ currentLevel (bfs_step incoming outgoing st)).
Proof.
  unfold bfs_step. cbn [currentLevel visited].
  set (visited' := fold_left (fun s nodeId => {[nodeId]} ∪ s) (currentLevel st)
                             (visited st)).
  set (accept := fun (next : list string) (childId : string) =>
                  if negb (bool_decide (childId ∈ visited')) then
                    let parents := default [] (incoming !! childId) in
                    let allParentsVisited :=
                      forallb (fun parentId => bool_decide (parentId ∈ visited'))
                              parents in
                    if allParentsVisited then ordered_add next childId else next
                  else next).
  set (good := fun childId : string =>
                 (childId ∉ visited')
                 /\ forall p, In p (default [] (incoming !! childId)) -> p ∈ visited').
  assert (Haccept : forall next c y,
            y ∈ accept next c <-> y ∈ next \/ (y = c /\ good c)).
  { intros next c y. unfold accept, good. case_bool_decide as Hv; cbn [negb].
    - split; [auto|]. intros [H|[_ [H _]]]; [exact H|contradiction].
    - cbv zeta.
      destruct (forallb _ (default [] (incoming !! c))) eqn:Hall.
      + rewrite ordered_add_elem. rewrite forallb_forall in Hall.
        split; intros [H|H]; auto.
        * right. split; [exact H|]. subst y. split; [exact Hv|].
          intros p Hp. specialize (Hall p Hp).
          apply bool_decide_eq_true in Hall. exact Hall.
        * right. apply H.
      + split; [auto|]. intros [H|[_ [_ H]]]; [exact H|].
        assert (Ht : forallb (fun parentId => bool_decide (parentId ∈ visited'))
                             (default [] (incoming !! c)) = true).
        { apply forallb_forall. intros p Hp. apply bool_decide_eq_true.
          apply H, Hp. }
        congruence. }
  assert (Hinner : forall children next y,
            y ∈ fold_left accept children next
            <-> y ∈ next \/ (In y children /\ good y)).
  { induction children as [|c children IH]; intros next y; cbn [fold_left].
    - split; [auto|]. intros [H|[[] _]]. exact H.
    - rewrite IH, Haccept. simpl. split.
      + intros [[H|[-> H]]|[H1 H2]]; auto.
      + intros [H|[[<-|H1] H2]]; auto. }
  assert (Houter : forall current next y,
            y ∈ fold_left (fun next nodeId =>
                             fold_left accept (default [] (outgoing !! nodeId)) next)
                          current next
            <-> y ∈ next
                \/ exists nodeId, In nodeId current
                     /\ In y (default [] (outgoing !! nodeId)) /\ good y).
  { induction current as [|n current IH]; intros next y; cbn [fold_left].
    - split; [auto|]. intros [H|(n & [] & _)]. exact H.
    - rewrite IH, Hinner. split.
      + intros [[H|[H1 H2]]|(n' & H1 & H2)]; auto.
        * right. exists n. simpl. auto.
        * right. exists n'. simpl. tauto.
      + intros [H|(n' & [<-|H1] & H2 & H3)]; auto.
        right. exists n'. auto. }
  split.
  - intros x p Hx Hp.
    apply Houter in Hx as [Hx|(n & _ & _ & [_ Hgood])];
      [apply not_elem_of_nil in Hx; destruct Hx|].
    apply Hgood, Hp.
  - intros nodeId childId Hn Hc Hv Hp. apply Houter. right.
    exists nodeId. split; [apply list_elem_of_In, Hn|]. split; [exact Hc|].
    split; assumption.
Qed.

Lemma bfs_layered_step (st : BfsState) :
  bfs_inv U st -> bfs_layered incoming st ->
  bfs_layered incoming (bfs_step incoming outgoing st).
Proof.
  intros (Hvis & Hcur & Hidx & Hlev) (Hdom & Hpar & Hnow).
  destruct (nextLevel_spec st) as [Hnext _].
  split; [|split].
  - unfold bfs_step. cbn [visited nodeToLevel]. intros id Hid.
    rewrite mark_level. apply mark_visited in Hid.
    case_bool_decide as Hin; [eauto|].
    destruct Hid as [Hid|Hid]; [contradiction|]. apply Hdom, Hid.
  - unfold bfs_step. cbn [nodeToLevel]. intros v l p Hl Hp.
    assert (Hkeep : forall q lq, nodeToLevel st !! q = Some lq ->
              fold_left (fun m nodeId => <[nodeId := levelIndex st]> m)
                        (currentLevel st) (nodeToLevel st) !! q = Some lq).
    { intros q lq Hq. rewrite mark_level. case_bool_decide as Hin; [|exact Hq].
      destruct (Hcur q Hin) as [_ Hnv]. destruct (Hlev q lq Hq) as [Hv _].
      contradiction. }
    rewrite mark_level in Hl. case_bool_decide as Hin.
    + injection Hl as <-.
      destruct (Hdom p (Hnow v p Hin Hp)) as (lp & Hlp).
      exists lp. split; [apply Hkeep, Hlp|]. apply (Hlev p lp Hlp).
    + destruct (Hpar v l p Hl Hp) as (lp & Hlp & Hlt).
      exists lp. split; [apply Hkeep, Hlp|exact Hlt].
  - intros v p Hv Hp. apply (Hnext v p Hv Hp).
Qed.

Lemma bfs_layered_init :
  bfs_layered incoming (mkBfs [] ∅ ∅ (map node_id (rootNodes incoming nodes)) 0).
Proof.
  split; [|split]; cbn.
  - intros id Hid. apply not_elem_of_empty in Hid. destruct Hid.
  - intros v l p Hl. rewrite lookup_empty in Hl. discriminate.
  - intros v p Hv Hp. exfalso. apply list_elem_of_In, in_map_iff in Hv as (n & <- & Hn).
    apply filter_In in Hn as [_ Hn]. apply Nat.eqb_eq in Hn.
    destruct (default [] (incoming !! node_id n)); [destruct Hp|discriminate].
Qed.

(** The roots are on level 0. *)
Lemma bfs_roots_step (st : BfsState) (r : string) :
  bfs_inv U st ->
  (levelIndex st = 0%nat /\ r ∈ currentLevel st) \/ nodeToLevel st !! r = Some 0%nat ->
  nodeToLevel (bfs_step incoming outgoing st) !! r = Some 0%nat.
Proof.
  intros (Hvis & Hcur & Hidx & Hlev) Hr. unfold bfs_step. cbn [nodeToLevel].
  rewrite mark_level. destruct Hr as [[H0 Hin]|Hr].
  - rewrite bool_decide_eq_true_2 by exact Hin. rewrite H0. reflexivity.
  - case_bool_decide as Hin; [|exact Hr].
    destruct (Hcur r Hin) as [_ Hnv]. destruct (Hlev r 0%nat Hr) as [Hv _].
    contradiction.
Qed.

(** The loop, with everything it maintains. *)
Lemma bfs_loop_layered (fuel : nat) (st st' : BfsState) :
  bfs_loop fuel incoming outgoing st = Some st' ->
  bfs_inv U st -> bfs_layered incoming st ->
  bfs_layered incoming st'
  /\ forall r,
       (levelIndex st = 0%nat /\ r ∈ currentLevel st)
       \/ nodeToLevel st !! r = Some 0%nat ->
       nodeToLevel st' !! r = Some 0%nat.
Proof.
  revert st. induction fuel as [|fuel IH]; intros st Hloop Hinv Hlay; [discriminate|].
  simpl in Hloop. destruct (currentLevel st) as [|x rest] eqn:Hc.
  - injection Hloop as <-. split; [exact Hlay|].
    intros r [[_ Hin]|Hr]; [|exact Hr].
    apply not_elem_of_nil in Hin. destruct Hin.
  - destruct (IH _ Hloop (bfs_step_inv nodes edges st Hinv)
                 (bfs_layered_step st Hinv Hlay)) as [Hlay' Hroots].
    split; [exact Hlay'|]. intros r Hr. apply Hroots. right.
    apply bfs_roots_step; [exact Hinv|rewrite Hc; exact Hr].
Qed.

Lemma level_loop_layered :
  exists st,
    level_loop nodes edges = Some st
    /\ bfs_inv U st /\ currentLevel st = []
    /\ bfs_layered incoming st
    /\ forall node, In node (rootNodes incoming nodes) ->
         nodeToLevel st !! node_id node = Some 0%nat.
Proof.
  destruct (bfs_loop_enough nodes edges) as (st & Hloop & Hinv & Hempty).
  exists st. split; [exact Hloop|]. split; [exact Hinv|]. split; [exact Hempty|].
  destruct (bfs_loop_layered _ _ _ Hloop (bfs_init_inv nodes edges) bfs_layered_init)
    as [Hlay Hroots].
  split; [exact Hlay|]. intros node Hnode. apply Hroots. left. cbn.
  split; [reflexivity|]. apply list_elem_of_In, in_map, Hnode.
Qed.

(** *** In a graph without cycle every node is reached *)

Lemma forallb_false {A : Type} (f : A -> bool) (l : list A) :
  forallb f l = false -> exists x, In x l /\ f x = false.
Proof.
  induction l as [|a l IH]; simpl; [discriminate|].
  destruct (f a) eqn:Ha; simpl.
  - intros H. destruct (IH H) as (x & Hx & Hfx). exists x. auto.
  - intros _. exists a. auto.
Qed.

Hypothesis Hsources : forall e, In e edges -> In (edge_source e) ids.

Lemma bfs_pending_step (st : BfsState) :
  bfs_inv U st -> bfs_pending nodes incoming st ->
  bfs_pending nodes incoming (bfs_step incoming outgoing st).
Proof.
  intros (Hvis & Hcur & Hidx & Hlev) Hpend v Hv Hnv Hparents.
  destruct (nextLevel_spec st) as [_ Hnext]. cbv zeta in Hnext.
  assert (Hvisited' : forall x, x ∈ visited (bfs_step incoming outgoing st)
                                <-> x ∈ currentLevel st \/ x ∈ visited st).
  { intros x. unfold bfs_step. cbn [visited]. apply mark_visited. }
  assert (Hnc : v ∉ currentLevel st).
  { intros H. apply Hnv, Hvisited'. left. exact H. }
  assert (Hnv0 : v ∉ visited st).
  { intros H. apply Hnv, Hvisited'. right. exact H. }
  destruct (forallb (fun p => bool_decide (p ∈ visited st))
                    (default [] (incoming !! v))) eqn:Hall.
  - exfalso. apply Hnc, Hpend; [exact Hv|exact Hnv0|].
    intros p Hp. rewrite forallb_forall in Hall. specialize (Hall p Hp).
    apply bool_decide_eq_true in Hall. exact Hall.
  - apply forallb_false in Hall as (p & Hp & Hpv). apply bool_decide_eq_false in Hpv.
    assert (Hpc : p ∈ currentLevel st).
    { pose proof (Hparents p Hp) as Hp'. apply Hvisited' in Hp'.
      destruct Hp'; [assumption|contradiction]. }
    destruct (incoming_sources v p Hp) as (e & He & Hes & Het).
    apply (Hnext p v Hpc); [|exact Hnv|exact Hparents].
    subst p v. apply outgoing_edges; [apply Hsources, He|exact He].
Qed.

Lemma bfs_pending_init :
  bfs_pending nodes incoming
    (mkBfs [] ∅ ∅ (map node_id (rootNodes incoming nodes)) 0).
Proof.
  intros v Hv _ Hparents. cbn in *.
  apply in_map_iff in Hv as (n & <- & Hn). apply list_elem_of_In, in_map.
  apply filter_In. split; [exact Hn|].
  destruct (default [] (incoming !! node_id n)) as [|p l]; [reflexivity|].
  specialize (Hparents p (or_introl eq_refl)).
  apply not_elem_of_empty in Hparents. destruct Hparents.
Qed.

Lemma bfs_loop_pending (fuel : nat) (st st' : BfsState) :
  bfs_loop fuel incoming outgoing st = Some st' ->
  bfs_inv U st -> bfs_pending nodes incoming st -> bfs_pending nodes incoming st'.
Proof.
  revert st. induction fuel as [|fuel IH]; intros st Hloop Hinv Hpend; [discriminate|].
  simpl in Hloop. destruct (currentLevel st) as [|x rest] eqn:Hc.
  - injection Hloop as <-. exact Hpend.
  - apply (IH _ Hloop (bfs_step_inv nodes edges st Hinv)).
    apply bfs_pending_step; assumption.
Qed.

(** Without a cycle, a set of nodes in which every node has a parent
    is empty: climbing from parent to parent would never repeat a
    node. *)
Lemma no_endless_climb (S : string -> Prop) :
  ~ Validation.has_cycle edges ->
  (forall v, S v -> In v ids) ->
  (forall v, S v -> exists p, S p /\ Validation.edge_rel edges p v) ->
  forall v, ~ S v.
Proof.
  intros Hacyclic Hids Hparent.
  assert (Hclimb : forall n seen u,
            length ids < n + length seen -> List.NoDup seen ->
            (forall x, In x seen -> In x ids) -> In u seen -> S u ->
            (forall x, In x seen -> rtc (Validation.edge_rel edges) u x) -> False).
  { induction n as [|n IH]; intros seen u Hlen Hnd Hsub Hu HS Hreach.
    - pose proof (List.NoDup_incl_length Hnd Hsub). lia.
    - destruct (Hparent u HS) as (p & HSp & Hpu).
      apply (IH (p :: seen) p).
      + simpl. lia.
      + constructor; [|exact Hnd]. intros Hp. apply Hacyclic. exists u.
        eapply tc_rtc_l; [apply (Hreach p Hp)|]. apply tc_once, Hpu.
      + intros x [<-|Hx]; [apply Hids, HSp|apply Hsub, Hx].
      + left. reflexivity.
      + exact HSp.
      + intros x [<-|Hx]; [apply rtc_refl|].
        eapply rtc_l; [exact Hpu|apply Hreach, Hx]. }
  intros v HS.
  apply (Hclimb (length ids) [v] v).
  - simpl. lia.
  - constructor; [intros []|constructor].
  - intros x [<-|[]]. apply Hids, HS.
  - left. reflexivity.
  - exact HS.
  - intros x [<-|[]]. apply rtc_refl.
Qed.

Lemma level_loop_reaches_all :
  ~ Validation.has_cycle edges ->
  forall st, level_loop nodes edges = Some st ->
    forall v, In v ids -> v ∈ visited st.
Proof.
  intros Hacyclic st Hloop v Hv.
  destruct (bfs_loop_enough nodes edges) as (st' & Hloop' & Hinv & Hempty).
  rewrite Hloop in Hloop'. injection Hloop' as <-.
  pose proof (bfs_loop_pending _ _ _ Hloop (bfs_init_inv nodes edges) bfs_pending_init)
    as Hpend.
  destruct (decide (v ∈ visited st)) as [Hin|Hnin]; [exact Hin|]. exfalso.
  apply (no_endless_climb (fun x => In x ids /\ x ∉ visited st) Hacyclic) with (v := v);
    [tauto| |split; assumption].
  intros x [Hx Hxv].
  destruct (forallb (fun p => bool_decide (p ∈ visited st))
                    (default [] (incoming !! x))) eqn:Hall.
  - exfalso. assert (Hc : x ∈ currentLevel st).
    { apply Hpend; [exact Hx|exact Hxv|].
      intros p Hp. rewrite forallb_forall in Hall. specialize (Hall p Hp).
      apply bool_decide_eq_true in Hall. exact Hall. }
    rewrite Hempty in Hc. apply not_elem_of_nil in Hc. exact Hc.
  - apply forallb_false in Hall as (p & Hp & Hpv). apply bool_decide_eq_false in Hpv.
    destruct (incoming_sources x p Hp) as (e & He & Hes & Het).
    exists p. split; [split; [subst p; apply Hsources, He|exact Hpv]|].
    exists e. auto.
Qed.

End Layering.

Section LayeringVerdicts.

Import Layout.

Local Open Scope R_scope.




(** X26: on a graph without cycle whose edges join nodes, the level
    loop reaches every node: no trailing level is added, and every edge
    goes from a level to a strictly greater one. *)
Theorem hierarchical_reaches_every_node_of_a_dag (nodes : list DAGNode)
    (edges : list DAGEdge) :
  (forall e, In e edges ->
     In (edge_source e) (map node_id nodes) /\ In (edge_target e) (map node_id nodes)) ->
  ~ Validation.has_cycle edges ->
  exists st,
    level_loop nodes edges = Some st
    /\ (forall node, In node nodes -> node_id node ∈ visited st)
    /\ add_unvisited nodes st = st
    /\ forall e, In e edges ->
         exists ls lt, nodeToLevel st !! edge_source e = Some ls
                       /\ nodeToLevel st !! edge_target e = Some lt
                       /\ (ls < lt)%nat.
Proof.
  intros Hwf Hacyclic.
  destruct (level_loop_layered nodes edges)
    as (st & Hloop & _ & _ & (Hdom & Hpar & _) & _).
  assert (Hall : forall v, In v (map node_id nodes) -> v ∈ visited st).
  { apply (level_loop_reaches_all nodes edges); [|exact Hacyclic|exact Hloop].
    intros e He. apply Hwf, He. }
  exists st. split; [exact Hloop|]. split; [|split].
  - intros node Hnode. apply Hall, in_map, Hnode.
  - unfold add_unvisited. rewrite (filter_nil_iff _ nodes); [reflexivity|].
    intros n Hn. apply negb_false_iff, bool_decide_eq_true, Hall, in_map, Hn.
  - intros e He. destruct (Hwf e He) as [Hs Ht].
    destruct (Hdom _ (Hall _ Ht)) as (lt & Hlt).
    destruct (Hpar (edge_target e) lt (edge_source e) Hlt) as (ls & Hls & Hlt').
    { apply incoming_edges; assumption. }
    eauto.
Qed.

Lemma hierarchical_reaches_every_node_of_a_dag_witness :
  let node i := mkNode i i (mkPosition 0 0) false in
  let nodes := [node "A"; node "B"; node "C"] in
  let edges := [mkEdge "edge-1" "A" "B" false; mkEdge "edge-2" "B" "C" false] in
  exists st,
    level_loop nodes edges = Some st
    /\ (forall node, In node nodes -> node_id node ∈ visited st)
    /\ add_unvisited nodes st = st
    /\ forall e, In e edges ->
         exists ls lt, nodeToLevel st !! edge_source e = Some ls
                       /\ nodeToLevel st !! edge_target e = Some lt
                       /\ (ls < lt)%nat.
Proof.
  intros node nodes edges.
  apply (hierarchical_reaches_every_node_of_a_dag nodes edges).
  - intros e [<-|[<-|[]]]; simpl; auto.
  - apply chain_acyclic; discriminate.
Defined.

End LayeringVerdicts.

(** ** Force layout: the nodes stay on the canvas *)

Section Force.

Import Geometry Layout.
Local Open Scope R_scope.












End Force.
